(** * Fake quantization, per-tensor affine (CUDA kernels)

    A shallow embedding of
    [aten/src/ATen/native/quantized/cuda/fake_quantize_per_tensor_affine.cu]:
    the two operator kernels [FakeQuantizePerTensorAffineOp_forward] and
    [FakeQuantizePerTensorAffineOp_backward], their sanity checks, the
    quantization-delay switch and the per-element device lambdas.

    Numbers are modelled the way the C++ has them:
    - [int64_t] parameters are integers of [Z];
    - the [int] expression [(1 << num_bits) - 1] is a 32-bit two's
      complement computation, written out with its wrap-around (at
      [num_bits = 32] the shift is undefined in C++; both results hosts
      give are covered);
    - [float] and [double] values are IEEE-754 binary32 and binary64
      numbers, taken from the executable specification [SpecFloat] of the
      standard library (round to nearest, ties to even); every operation
      of the source rounds on its own, with the conversions C++ inserts
      between [int64_t], [float] and [double];
    - a tensor is its device flag, its scalar type and the list of its
      elements; the kernels run in a small monad that throws the C++
      exceptions and records the passes handed to the tensor library. *)

From Stdlib Require Import ZArith List Bool String Lia.
From Stdlib Require Import Floats.SpecFloat.
Import ListNotations.

Local Open Scope Z_scope.

(** ** 32-bit [int] arithmetic *)

Module Int32.

Definition min_signed : Z := - 2 ^ 31.
Definition max_signed : Z := 2 ^ 31 - 1.

(** Reduction of an integer to the two's complement range. *)
Definition wrap (z : Z) : Z := (z + 2 ^ 31) mod 2 ^ 32 - 2 ^ 31.

(** [a << n] on [int]: the bits shifted beyond bit 31 are lost.  For a
    count of 32 and more C++ leaves the result undefined; this is what a
    host gives that shifts by the whole count. *)
Definition shl (a n : Z) : Z := wrap (Z.shiftl a n).

(** [a << n] on a host whose shift instruction uses the low five bits of
    the count only, so that a count of 32 shifts by 0. *)
Definition shl_masked (a n : Z) : Z := wrap (Z.shiftl a (Z.land n 31)).

Definition sub (a b : Z) : Z := wrap (a - b).

End Int32.

(** ** IEEE-754 binary formats *)

Section Format.

Variables prec emax : Z.

(** Conversion of an integer ([int], [int64_t]) to the format. *)
Definition of_int (z : Z) : spec_float :=
  binary_normalize prec emax z 0 false.

(** Conversion of a number of another binary format to this one
    ([float] to [double] is exact, [double] to [float] rounds). *)
Definition of_float (x : spec_float) : spec_float :=
  match x with
  | S754_finite s m e => binary_normalize prec emax (cond_Zopp s (Zpos m)) e s
  | _ => x
  end.

(** [std::round]: to the nearest integer, halfway cases away from zero. *)
Definition round (x : spec_float) : spec_float :=
  match x with
  | S754_finite s m e =>
      if 0 <=? e then x
      else binary_normalize prec emax
             (cond_Zopp s ((Zpos m + 2 ^ (- e - 1)) / 2 ^ (- e))) 0 s
  | _ => x
  end.

End Format.

Definition is_nan (x : spec_float) : bool :=
  match x with S754_nan => true | _ => false end.

(** Neither an infinity nor a NaN. *)
Definition is_finite (x : spec_float) : bool :=
  match x with S754_zero _ | S754_finite _ _ _ => true | _ => false end.

(** [fmaxf] and [fminf]: a NaN argument is treated as missing data. *)
Definition fmaxf (a b : spec_float) : spec_float :=
  match SFcompare a b with
  | Some Lt => b
  | Some _ => a
  | None => if is_nan a then b else a
  end.

Definition fminf (a b : spec_float) : spec_float :=
  match SFcompare a b with
  | Some Gt => b
  | Some _ => a
  | None => if is_nan a then b else a
  end.

(** [float]: binary32. *)
Module F32.
Definition prec : Z := 24.
Definition emax : Z := 128.
Definition of_int := of_int prec emax.
Definition of_double := of_float prec emax.
Definition add := SFadd prec emax.
Definition sub := SFsub prec emax.
Definition mul := SFmul prec emax.
Definition div := SFdiv prec emax.
Definition round := round prec emax.
Definition zero : spec_float := S754_zero false.
Definition one : spec_float := of_int 1.
(** [float(b)] for a [bool]. *)
Definition of_bool (b : bool) : spec_float := if b then one else zero.
End F32.

(** [double]: binary64. *)
Module F64.
Definition prec : Z := 53.
Definition emax : Z := 1024.
Definition of_int := of_int prec emax.
Definition of_single := of_float prec emax.
Definition mul := SFmul prec emax.
Definition div := SFdiv prec emax.
End F64.

(** The integer a finite number denotes, when it denotes one. *)
Definition SF2Z (x : spec_float) : option Z :=
  match x with
  | S754_zero _ => Some 0
  | S754_finite s m e =>
      if 0 <=? e then Some (cond_Zopp s (Zpos m) * 2 ^ e)
      else if Zpos m mod 2 ^ (- e) =? 0
           then Some (cond_Zopp s (Zpos m / 2 ^ (- e)))
           else None
  | _ => None
  end.

(** ** Tensors, exceptions and the trace of device work *)

(** Element types of a tensor; the kernels accept [Float] only. *)
Inductive ScalarType := Byte | Int | Long | Half | Float | Double.

(** A tensor: where it lives, its element type, its elements in storage
    order.  The kernels look at no other attribute. *)
Record Tensor := mkTensor {
  is_cuda : bool;
  scalar_type : ScalarType;
  data : list spec_float
}.

(** [t.numel()] *)
Definition numel (t : Tensor) : Z := Z.of_nat (List.length (data t)).

Definition ScalarType_eqb (a b : ScalarType) : bool :=
  match a, b with
  | Byte, Byte | Int, Int | Long, Long | Half, Half
  | Float, Float | Double, Double => true
  | _, _ => false
  end.

(** What a kernel can throw: [AT_CHECK] raises [c10::Error], the sanity
    checks raise [std::invalid_argument] and [std::length_error]. *)
Inductive exn :=
| c10_Error
| invalid_argument (what : string)
| length_error (what : string).

(** Work handed to the tensor library: allocations and element-wise
    passes over device memory. *)
Inductive event :=
| EvEmptyLike
| EvZerosLike
| EvCopy
| EvApply2
| EvMul.

(** A computation returns a value or throws, and records the device work
    done up to that point. *)
Record M (A : Type) := mkM {
  trace : list event;
  outcome : exn + A
}.
Arguments mkM {A} _ _.
Arguments trace {A} _.
Arguments outcome {A} _.

Definition ret {A} (a : A) : M A := mkM [] (inr a).
Definition throw {A} (e : exn) : M A := mkM [] (inl e).
Definition bind {A B} (m : M A) (k : A -> M B) : M B :=
  match outcome m with
  | inl e => mkM (trace m) (inl e)
  | inr a => let r := k a in mkM (trace m ++ trace r) (outcome r)
  end.
Definition emit {A} (ev : event) (a : A) : M A := mkM [ev] (inr a).

Notation "x <- m ;; k" := (bind m (fun x => k))
  (at level 61, m at next level, right associativity).
Notation "m ;;; k" := (bind m (fun _ => k))
  (at level 61, right associativity).

Definition AT_CHECK (b : bool) : M unit :=
  if b then ret tt else throw c10_Error.

(** [if (c) throw e;] *)
Definition throw_if (c : bool) (e : exn) : M unit :=
  if c then throw e else ret tt.

(** The uninitialised contents of a fresh [empty_like] tensor; every
    element is overwritten before it is read. *)
Definition uninit : spec_float := S754_nan.

Definition empty_like (t : Tensor) : M Tensor :=
  emit EvEmptyLike
    (mkTensor (is_cuda t) (scalar_type t) (map (fun _ => uninit) (data t))).

Definition zeros_like (t : Tensor) : M Tensor :=
  emit EvZerosLike
    (mkTensor (is_cuda t) (scalar_type t) (map (fun _ => F32.zero) (data t))).

(** [dst.copy_(src)] *)
Definition copy_ (dst src : Tensor) : M Tensor :=
  emit EvCopy (mkTensor (is_cuda dst) (scalar_type dst) (data src)).

(** [CUDA_tensor_apply2<float, float>(a, b, op)]: [op] sees an element of
    [a] and the element of [b] at the same position, and assigns the
    latter. *)
Fixpoint apply2 (op : spec_float -> spec_float -> spec_float)
    (a b : list spec_float) : list spec_float :=
  match a, b with
  | x :: a', y :: b' => op x y :: apply2 op a' b'
  | _, _ => b
  end.

Definition CUDA_tensor_apply2 (a b : Tensor)
    (op : spec_float -> spec_float -> spec_float) : M Tensor :=
  emit EvApply2
    (mkTensor (is_cuda b) (scalar_type b) (apply2 op (data a) (data b))).

(** [a * b] on tensors of equal element count. *)
Fixpoint mul_data (a b : list spec_float) : list spec_float :=
  match a, b with
  | x :: a', y :: b' => F32.mul x y :: mul_data a' b'
  | _, _ => []
  end.

Definition tensor_mul (a b : Tensor) : M Tensor :=
  emit EvMul (mkTensor (is_cuda a) (scalar_type a) (mul_data (data a) (data b))).

(** ** The kernels *)

Definition msg_num_bits : string := "`num_bits` should be in the [1, 32] range.".
Definition msg_zero_point : string := "`zero_point` must be a positive integer.".
Definition msg_quant_delay : string := "`quant_delay` must be a positive integer.".
Definition msg_iter : string := "`iter` must be >=0 for non-zero `quant_delay`".
Definition msg_empty : string := "`X` is empty".
Definition msg_size : string := "`X` and `dY` are not the same size".

(** [float inv_scale = 1.0f / scale;] the division is done in [double]. *)
Definition inv_scale_of (scale : spec_float) : spec_float :=
  F32.of_double (F64.div (F64.of_single F32.one) scale).

(** [const float quant_min = 0;] *)
Definition quant_min_of : spec_float := F32.of_int 0.

(** [const float quant_max = (1 << num_bits) - 1;] computed on [int]. *)
Definition quant_max_int (num_bits : Z) : Z :=
  Int32.sub (Int32.shl 1 num_bits) 1.

Definition quant_max_of (num_bits : Z) : spec_float :=
  F32.of_int (quant_max_int num_bits).

(** The same [int] expression where the host reduces the shift count. *)
Definition quant_max_int_masked (num_bits : Z) : Z :=
  Int32.sub (Int32.shl_masked 1 num_bits) 1.

(** The quantization point [std::round(input_val * inv_scale + zero_point)]:
    a [float] product, a [float] sum with the converted [zero_point], each
    rounded, then the rounding to an integer. *)
Definition quant_point (inv_scale : spec_float) (zero_point : Z)
    (input_val : spec_float) : spec_float :=
  F32.round (F32.add (F32.mul input_val inv_scale) (F32.of_int zero_point)).

(** [(q - zero_point) * scale]: the difference is a [float], the product a
    [double], rounded to [float] when stored. *)
Definition dequantize (scale : spec_float) (zero_point : Z)
    (q : spec_float) : spec_float :=
  F32.of_double
    (F64.mul (F64.of_single (F32.sub q (F32.of_int zero_point))) scale).

(** Device lambda of the forward kernel. *)
Definition forward_lambda (scale inv_scale : spec_float) (zero_point : Z)
    (quant_min quant_max : spec_float)
    (input_val result_val : spec_float) : spec_float :=
  dequantize scale zero_point
    (fminf quant_max (fmaxf quant_min (quant_point inv_scale zero_point input_val))).

(** Device lambda of the backward kernel. *)
Definition backward_lambda (inv_scale : spec_float) (zero_point : Z)
    (quant_min quant_max : spec_float)
    (input_val result_val : spec_float) : spec_float :=
  let Xq := quant_point inv_scale zero_point input_val in
  F32.of_bool (SFleb quant_min Xq && SFleb Xq quant_max).

Definition FakeQuantizePerTensorAffineOp_forward
    (X : Tensor) (scale : spec_float)
    (zero_point num_bits quant_delay iter : Z) : M Tensor :=
  AT_CHECK (is_cuda X) ;;;
  AT_CHECK (ScalarType_eqb (scalar_type X) Float) ;;;
  throw_if ((num_bits >? 32) || (num_bits <? 1))
    (invalid_argument msg_num_bits) ;;;
  throw_if (zero_point <? 0) (invalid_argument msg_zero_point) ;;;
  throw_if (quant_delay <? 0) (invalid_argument msg_quant_delay) ;;;
  throw_if (negb (quant_delay =? 0) && (iter <? 0))
    (invalid_argument msg_iter) ;;;
  Y <- empty_like X ;;
  if (quant_delay >? 0) && (iter <=? quant_delay) then
    copy_ Y X
  else
    let inv_scale := inv_scale_of scale in
    let quant_min := quant_min_of in
    let quant_max := quant_max_of num_bits in
    CUDA_tensor_apply2 X Y
      (forward_lambda scale inv_scale zero_point quant_min quant_max).

Definition FakeQuantizePerTensorAffineOp_backward
    (X dY : Tensor) (scale : spec_float)
    (zero_point num_bits quant_delay iter : Z) : M Tensor :=
  AT_CHECK (is_cuda X) ;;;
  AT_CHECK (ScalarType_eqb (scalar_type X) Float) ;;;
  throw_if ((num_bits >? 32) || (num_bits <? 1))
    (invalid_argument msg_num_bits) ;;;
  throw_if (zero_point <? 0) (invalid_argument msg_zero_point) ;;;
  throw_if (quant_delay <? 0) (invalid_argument msg_quant_delay) ;;;
  throw_if (numel X <=? 0) (length_error msg_empty) ;;;
  throw_if (negb (numel X =? numel dY)) (invalid_argument msg_size) ;;;
  throw_if (negb (quant_delay =? 0) && (iter <? 0))
    (invalid_argument msg_iter) ;;;
  dX <- zeros_like dY ;;
  if (quant_delay >? 0) && (iter <=? quant_delay) then
    copy_ dX dY
  else
    let inv_scale := inv_scale_of scale in
    let quant_min := quant_min_of in
    let quant_max := quant_max_of num_bits in
    mask <- empty_like dY ;;
    mask <- CUDA_tensor_apply2 X mask
      (backward_lambda inv_scale zero_point quant_min quant_max) ;;
    tensor_mul mask dY.

(** ** Results of the two branches *)

(** The tensor the forward kernel returns once quantization is active. *)
Definition forward_active (X : Tensor) (scale : spec_float)
    (zero_point num_bits : Z) : Tensor :=
  mkTensor (is_cuda X) (scalar_type X)
    (map (fun x => forward_lambda scale (inv_scale_of scale) zero_point
                     quant_min_of (quant_max_of num_bits) x uninit)
         (data X)).

(** The mask tensor of the backward kernel. *)
Definition backward_mask (X dY : Tensor) (scale : spec_float)
    (zero_point num_bits : Z) : list spec_float :=
  apply2 (backward_lambda (inv_scale_of scale) zero_point
            quant_min_of (quant_max_of num_bits))
         (data X) (map (fun _ => uninit) (data dY)).

(** The tensor the backward kernel returns once quantization is active. *)
Definition backward_active (X dY : Tensor) (scale : spec_float)
    (zero_point num_bits : Z) : Tensor :=
  mkTensor (is_cuda dY) (scalar_type dY)
    (mul_data (backward_mask X dY scale zero_point num_bits) (data dY)).

(** The exception of a run, if it threw. *)
Definition thrown {A} (m : M A) : option exn :=
  match outcome m with inl e => Some e | inr _ => None end.

(** ** The formulas of the specification

    Written from the specification's sentences, in the arithmetic of the
    kernel: [quant_min = 0], [quant_max = 2^num_bits - 1],
    [q = round(x * (1/scale) + zero_point)],
    [q_clamped = min(quant_max, max(quant_min, q))],
    [y = (q_clamped - zero_point) * scale]. *)

Definition spec_quant_min : Z := 0.
Definition spec_quant_max (num_bits : Z) : Z := 2 ^ num_bits - 1.

Definition spec_q (scale : spec_float) (zero_point : Z) (x : spec_float)
    : spec_float :=
  F32.round (F32.add (F32.mul x (inv_scale_of scale)) (F32.of_int zero_point)).

Definition spec_forward_element (scale : spec_float) (zero_point num_bits : Z)
    (x : spec_float) : spec_float :=
  let q := spec_q scale zero_point x in
  let q_clamped :=
    fminf (F32.of_int (spec_quant_max num_bits))
          (fmaxf (F32.of_int spec_quant_min) q) in
  dequantize scale zero_point q_clamped.

Definition spec_mask_element (scale : spec_float) (zero_point num_bits : Z)
    (x : spec_float) : spec_float :=
  let q := spec_q scale zero_point x in
  F32.of_bool (SFleb (F32.of_int spec_quant_min) q
               && SFleb q (F32.of_int (spec_quant_max num_bits))).

(** ** Numbers a format holds exactly

    [dyadic prec s n j] is the canonical form, in a format of precision
    [prec], of the number [(-1)^s * n * 2^j] for an integer [n] below
    [2^prec]: the mantissa is shifted up to [prec] digits. *)

Definition dyadic (prec : Z) (s : bool) (n : positive) (j : Z) : spec_float :=
  S754_finite s
    (Z.to_pos (Zpos n * 2 ^ (prec - Zpos (digits2_pos n))))
    (Zpos (digits2_pos n) - prec + j).

(** [c * 2^j] for an integer [c]. *)
Definition scaled (prec : Z) (c j : Z) : spec_float :=
  match c with
  | Z0 => S754_zero false
  | Zpos n => dyadic prec false n j
  | Zneg n => dyadic prec true n j
  end.

(** The [double] [2^j]. *)
Definition pow2_double (j : Z) : spec_float :=
  S754_finite false 4503599627370496 (j - 52).

(** [x] is the grid point of a level in [0, 2^num_bits - 1]: the kernel's
    [(k - zero_point) * scale]. *)
Definition on_grid (scale : spec_float) (zero_point num_bits : Z)
    (x : spec_float) : Prop :=
  exists k, 0 <= k <= spec_quant_max num_bits
            /\ x = dequantize scale zero_point (F32.of_int k).

(** ** Sample data *)

Definition cuda_floats (l : list spec_float) : Tensor := mkTensor true Float l.

Definition f32 (z : Z) : spec_float := F32.of_int z.
Definition f64 (z : Z) : spec_float := F64.of_int z.
(** The [double] nearest to [n / d]. *)
Definition f64_ratio (n d : Z) : spec_float := F64.div (F64.of_int n) (F64.of_int d).
(** The [float] nearest to [n / d]. *)
Definition f32_ratio (n d : Z) : spec_float := F32.div (F32.of_int n) (F32.of_int d).

(** Structural equality of floating-point data. *)
Definition same_float (a b : spec_float) : bool :=
  match a, b with
  | S754_zero s, S754_zero t => Bool.eqb s t
  | S754_infinity s, S754_infinity t => Bool.eqb s t
  | S754_nan, S754_nan => true
  | S754_finite s m e, S754_finite t n f =>
      Bool.eqb s t && Pos.eqb m n && Z.eqb e f
  | _, _ => false
  end.

(** The integers [lo, lo + 1, ..., lo + len - 1]. *)
Definition Zseq (lo : Z) (len : nat) : list Z :=
  map (fun i => lo + Z.of_nat i) (seq 0 len).

(** Inputs on which the claims are tried. *)
Definition x_300 : Tensor := cuda_floats [f32 300].
Definition ones_1 : Tensor := cuda_floats [f32 1].
Definition x_2p25 : Tensor := cuda_floats [f32 33554432].
Definition x_mask : Tensor := cuda_floats [f32 (-1000); f32 0; f32 1000].
Definition ones_3 : Tensor := cuda_floats [f32 1; f32 1; f32 1].
Definition x_tenths : Tensor :=
  cuda_floats [f32_ratio 1 10; f32_ratio 4 10; f32_ratio 6 10; f32_ratio 9 10].

(** Two points of the grid of step 1/8 around [zero_point = 128]. *)
Definition x_eighths : Tensor :=
  cuda_floats [dequantize (pow2_double (-3)) 128 (f32 77);
               dequantize (pow2_double (-3)) 128 (f32 255)].


(** ** Rounding and order, on integers

    [rne m p] is [m / 2^p] rounded to the nearest integer, halfway cases
    to the even one. *)

Definition rne (m p : Z) : Z :=
  let q := m / 2 ^ p in
  match 2 * (m mod 2 ^ p) ?= 2 ^ p with
  | Lt => q
  | Eq => if Z.even q then q else q + 1
  | Gt => q + 1
  end.

(** [mrs] is what [k] one-bit shifts make of the mantissa [m0]: the
    remaining mantissa, the last bit shifted out and whether any bit below
    it was set. *)
Definition shifted (m0 k : Z) (mrs : shr_record) : Prop :=
  exists t,
    m0 = shr_m mrs * 2 ^ k + (if shr_r mrs then 2 ^ (k - 1) else 0) + t
    /\ 0 <= t /\ 2 * t < 2 ^ k
    /\ (shr_s mrs = true <-> 0 < t) /\ 0 <= shr_m mrs.

Section Rounded.

Variables prec emax : Z.

(** The number of sign [s] with the rounded mantissa [n] at exponent
    [E]: a carry into the next binade is renormalised, too large an
    exponent gives an infinity. *)
Definition pack (s : bool) (n E : Z) : spec_float :=
  match n with
  | Z0 => S754_zero s
  | Zpos q =>
      if n =? 2 ^ prec then
        if E + 1 <=? emax - prec
        then S754_finite s (Z.to_pos (2 ^ (prec - 1))) (E + 1)
        else S754_infinity s
      else if E <=? emax - prec then S754_finite s q E
      else S754_infinity s
  | Zneg _ => S754_nan
  end.

(** The mantissa of [m * 2^e] on the grid of its binade, of exponent
    [fexp (digits m + e)]. *)
Definition grid_mantissa (m e : Z) : Z :=
  let E := fexp prec emax (Zdigits2 m + e) in
  if e <=? E then rne m (E - e) else m * 2 ^ (e - E).

(** [m * 2^e] rounded to the format. *)
Definition rounded (s : bool) (m e : Z) : spec_float :=
  pack s (grid_mantissa m e) (fexp prec emax (Zdigits2 m + e)).

(** The place of a number of the format on the grid of step [2^emin],
    the infinities standing at [2^emax]. *)
Definition ord (x : spec_float) : Z :=
  match x with
  | S754_zero _ | S754_nan => 0
  | S754_infinity s => cond_Zopp s (2 ^ (emax - emin prec emax))
  | S754_finite s m e => cond_Zopp s (Zpos m * 2 ^ (e - emin prec emax))
  end.

(** The place of the rounded [m * 2^e], for a positive [m] and for a
    signed one. *)
Definition round_ord (m e : Z) : Z :=
  Z.min (grid_mantissa m e
         * 2 ^ (fexp prec emax (Zdigits2 m + e) - emin prec emax))
        (2 ^ (emax - emin prec emax)).

Definition sround_ord (m e : Z) : Z :=
  match m with
  | Z0 => 0
  | Zpos _ => round_ord m e
  | Zneg _ => - round_ord (- m) e
  end.

End Rounded.

(** A number of the format: a zero, a canonical finite number or an
    infinity. *)
Definition is_number (prec emax : Z) (x : spec_float) : bool :=
  valid_binary prec emax x && negb (is_nan x).

(** The signed mantissa and the exponent of a finite number; a zero is
    [0 * 2^emin]. *)
Definition Fnum (x : spec_float) : Z :=
  match x with
  | S754_finite s m _ => cond_Zopp s (Zpos m)
  | _ => 0
  end.

Definition Fexp (prec emax : Z) (x : spec_float) : Z :=
  match x with
  | S754_finite _ _ e => e
  | _ => emin prec emax
  end.

(** Rounding to the nearest integer, halfway cases away from zero, of
    the number at the place [o] of the grid of step [2^emin]. *)
Definition round_half_away (prec emax : Z) (o : Z) : Z :=
  Z.sgn o * ((Z.abs o + 2 ^ (- emin prec emax - 1)) / 2 ^ (- emin prec emax)).

(** * Properties *)

(** ** Control flow of the kernels *)

Lemma tensor_eta (t : Tensor) :
  mkTensor (is_cuda t) (scalar_type t) (data t) = t.
Proof. destruct t; reflexivity. Qed.

Lemma apply2_fresh op u (a : list spec_float) :
  apply2 op a (map (fun _ => u) a) = map (fun x => op x u) a.
Proof.
  induction a as [|x a IH]; simpl; [reflexivity|].
  now rewrite IH.
Qed.

Lemma apply2_length op (a b : list spec_float) :
  List.length (apply2 op a b) = List.length b.
Proof.
  revert b; induction a as [|x a IH]; intros [|y b]; simpl; auto.
Qed.

Lemma apply2_same_length op u (a b : list spec_float) :
  List.length a = List.length b ->
  apply2 op a (map (fun _ => u) b) = map (fun x => op x u) a.
Proof.
  revert b; induction a as [|x a IH]; intros [|y b]; simpl; intros H;
    try discriminate; [reflexivity|].
  f_equal. apply IH. now injection H.
Qed.

(** The forward kernel is a cascade of checks followed by one of two
    element-wise passes. *)
Lemma forward_cases X scale zero_point num_bits quant_delay iter :
  FakeQuantizePerTensorAffineOp_forward X scale zero_point num_bits quant_delay iter =
  if negb (is_cuda X) then throw c10_Error
  else if negb (ScalarType_eqb (scalar_type X) Float) then throw c10_Error
  else if (num_bits >? 32) || (num_bits <? 1)
    then throw (invalid_argument msg_num_bits)
  else if zero_point <? 0 then throw (invalid_argument msg_zero_point)
  else if quant_delay <? 0 then throw (invalid_argument msg_quant_delay)
  else if negb (quant_delay =? 0) && (iter <? 0)
    then throw (invalid_argument msg_iter)
  else if (quant_delay >? 0) && (iter <=? quant_delay)
    then mkM [EvEmptyLike; EvCopy] (inr X)
  else mkM [EvEmptyLike; EvApply2]
         (inr (forward_active X scale zero_point num_bits)).
Proof.
  unfold FakeQuantizePerTensorAffineOp_forward, forward_active.
  destruct (is_cuda X) eqn:Hc; [|reflexivity].
  destruct (ScalarType_eqb (scalar_type X) Float) eqn:Ht; [|reflexivity].
  destruct ((num_bits >? 32) || (num_bits <? 1)); [reflexivity|].
  destruct (zero_point <? 0); [reflexivity|].
  destruct (quant_delay <? 0); [reflexivity|].
  destruct (negb (quant_delay =? 0) && (iter <? 0)); [reflexivity|].
  destruct ((quant_delay >? 0) && (iter <=? quant_delay));
    unfold bind; simpl.
  - now rewrite tensor_eta.
  - now rewrite apply2_fresh, Hc.
Qed.

(** The backward kernel has two more checks, on the element counts. *)
Lemma backward_cases X dY scale zero_point num_bits quant_delay iter :
  FakeQuantizePerTensorAffineOp_backward X dY scale zero_point num_bits quant_delay iter =
  if negb (is_cuda X) then throw c10_Error
  else if negb (ScalarType_eqb (scalar_type X) Float) then throw c10_Error
  else if (num_bits >? 32) || (num_bits <? 1)
    then throw (invalid_argument msg_num_bits)
  else if zero_point <? 0 then throw (invalid_argument msg_zero_point)
  else if quant_delay <? 0 then throw (invalid_argument msg_quant_delay)
  else if numel X <=? 0 then throw (length_error msg_empty)
  else if negb (numel X =? numel dY) then throw (invalid_argument msg_size)
  else if negb (quant_delay =? 0) && (iter <? 0)
    then throw (invalid_argument msg_iter)
  else if (quant_delay >? 0) && (iter <=? quant_delay)
    then mkM [EvZerosLike; EvCopy] (inr dY)
  else mkM [EvZerosLike; EvEmptyLike; EvApply2; EvMul]
         (inr (backward_active X dY scale zero_point num_bits)).
Proof.
  unfold FakeQuantizePerTensorAffineOp_backward, backward_active, backward_mask.
  destruct (is_cuda X) eqn:Hc; [|reflexivity].
  destruct (ScalarType_eqb (scalar_type X) Float) eqn:Ht; [|reflexivity].
  destruct ((num_bits >? 32) || (num_bits <? 1)); [reflexivity|].
  destruct (zero_point <? 0); [reflexivity|].
  destruct (quant_delay <? 0); [reflexivity|].
  destruct (numel X <=? 0); [reflexivity|].
  destruct (negb (numel X =? numel dY)); [reflexivity|].
  destruct (negb (quant_delay =? 0) && (iter <? 0)); [reflexivity|].
  destruct ((quant_delay >? 0) && (iter <=? quant_delay));
    unfold bind; simpl.
  - now rewrite tensor_eta.
  - reflexivity.
Qed.

(** Decides the tests of the cascade from integer facts in the context. *)
Ltac decide_tests :=
  repeat match goal with
  | |- context [?a >? ?b] => rewrite (Z.gtb_ltb a b)
  | |- context [?a <? ?b] =>
      first [ replace (a <? b) with true by (symmetry; apply Z.ltb_lt; lia)
            | replace (a <? b) with false by (symmetry; apply Z.ltb_ge; lia) ]
  | |- context [?a <=? ?b] =>
      first [ replace (a <=? b) with true by (symmetry; apply Z.leb_le; lia)
            | replace (a <=? b) with false by (symmetry; apply Z.leb_gt; lia) ]
  | |- context [?a =? ?b] =>
      first [ replace (a =? b) with true by (symmetry; apply Z.eqb_eq; lia)
            | replace (a =? b) with false by (symmetry; apply Z.eqb_neq; lia) ]
  end;
  rewrite ?andb_false_r, ?andb_true_r, ?orb_false_r; simpl.

Lemma numel_nonneg t : 0 <= numel t.
Proof. unfold numel; lia. Qed.

(** A valid call in the delay window copies its input. *)
Lemma forward_passthrough X scale zero_point num_bits quant_delay iter :
  is_cuda X = true -> scalar_type X = Float ->
  1 <= num_bits <= 32 -> 0 <= zero_point ->
  0 < quant_delay -> 0 <= iter <= quant_delay ->
  FakeQuantizePerTensorAffineOp_forward X scale zero_point num_bits quant_delay iter
  = mkM [EvEmptyLike; EvCopy] (inr X).
Proof.
  intros Hc Ht Hb Hz Hd Hi. rewrite forward_cases, Hc, Ht. simpl.
  decide_tests. reflexivity.
Qed.

(** A valid call outside the delay window quantizes. *)
Lemma forward_quantizes X scale zero_point num_bits quant_delay iter :
  is_cuda X = true -> scalar_type X = Float ->
  1 <= num_bits <= 32 -> 0 <= zero_point ->
  quant_delay = 0 \/ 0 <= quant_delay < iter ->
  FakeQuantizePerTensorAffineOp_forward X scale zero_point num_bits quant_delay iter
  = mkM [EvEmptyLike; EvApply2]
      (inr (forward_active X scale zero_point num_bits)).
Proof.
  intros Hc Ht Hb Hz Hd. rewrite forward_cases, Hc, Ht. simpl.
  destruct Hd as [-> | Hd]; decide_tests; reflexivity.
Qed.

Lemma backward_passthrough X dY scale zero_point num_bits quant_delay iter :
  is_cuda X = true -> scalar_type X = Float ->
  1 <= num_bits <= 32 -> 0 <= zero_point ->
  0 < numel X -> numel X = numel dY ->
  0 < quant_delay -> 0 <= iter <= quant_delay ->
  FakeQuantizePerTensorAffineOp_backward X dY scale zero_point num_bits quant_delay iter
  = mkM [EvZerosLike; EvCopy] (inr dY).
Proof.
  intros Hc Ht Hb Hz Hn Hs Hd Hi. rewrite backward_cases, Hc, Ht. simpl.
  rewrite <- Hs. decide_tests. reflexivity.
Qed.

Lemma backward_quantizes X dY scale zero_point num_bits quant_delay iter :
  is_cuda X = true -> scalar_type X = Float ->
  1 <= num_bits <= 32 -> 0 <= zero_point ->
  0 < numel X -> numel X = numel dY ->
  quant_delay = 0 \/ 0 <= quant_delay < iter ->
  FakeQuantizePerTensorAffineOp_backward X dY scale zero_point num_bits quant_delay iter
  = mkM [EvZerosLike; EvEmptyLike; EvApply2; EvMul]
      (inr (backward_active X dY scale zero_point num_bits)).
Proof.
  intros Hc Ht Hb Hz Hn Hs Hd. rewrite backward_cases, Hc, Ht. simpl.
  rewrite <- Hs. destruct Hd as [-> | Hd]; decide_tests; reflexivity.
Qed.

(** Splits on the tests of the cascade, leaving integer facts. *)
Ltac split_tests :=
  unfold thrown, throw; simpl;
  repeat match goal with
  | |- context [?a >? ?b] => rewrite (Z.gtb_ltb a b)
  | |- context [?a <? ?b] => destruct (Z.ltb_spec a b); simpl
  | |- context [?a <=? ?b] => destruct (Z.leb_spec a b); simpl
  | |- context [?a =? ?b] => destruct (Z.eqb_spec a b); simpl
  end.

(** ** The delay window *)

(** C4: a valid call with [quant_delay > 0] and [iter <= quant_delay]
    returns an exact copy of [X] (forward) and of [dY] (backward); the
    bound is inclusive: with [quant_delay = 5], [iter = 5] is still a
    passthrough and [iter = 6] quantizes. *)
Theorem C4_delay_window_passthrough
    X dY scale zero_point num_bits quant_delay iter :
  is_cuda X = true -> scalar_type X = Float ->
  1 <= num_bits <= 32 -> 0 <= zero_point ->
  0 < quant_delay -> 0 <= iter <= quant_delay ->
  (outcome (FakeQuantizePerTensorAffineOp_forward
              X scale zero_point num_bits quant_delay iter) = inr X
   /\ outcome (FakeQuantizePerTensorAffineOp_forward
                 X scale zero_point num_bits 5 5) = inr X
   /\ FakeQuantizePerTensorAffineOp_forward X scale zero_point num_bits 5 6
      = mkM [EvEmptyLike; EvApply2]
          (inr (forward_active X scale zero_point num_bits)))
  /\ (0 < numel X -> numel X = numel dY ->
      outcome (FakeQuantizePerTensorAffineOp_backward
                 X dY scale zero_point num_bits quant_delay iter) = inr dY
      /\ outcome (FakeQuantizePerTensorAffineOp_backward
                    X dY scale zero_point num_bits 5 5) = inr dY
      /\ FakeQuantizePerTensorAffineOp_backward
           X dY scale zero_point num_bits 5 6
         = mkM [EvZerosLike; EvEmptyLike; EvApply2; EvMul]
             (inr (backward_active X dY scale zero_point num_bits))).
Proof.
  intros Hc Ht Hb Hz Hd Hi. split; [|intros Hn Hs]; repeat split.
  - rewrite forward_passthrough; auto.
  - rewrite forward_passthrough; auto; lia.
  - apply forward_quantizes; auto; lia.
  - rewrite backward_passthrough; auto.
  - rewrite backward_passthrough; auto; lia.
  - apply backward_quantizes; auto; lia.
Qed.

(** ** Zero delay *)

(** C10: with [quant_delay = 0] the value of [iter] plays no role, also
    when it is negative, and every valid call takes the quantizing branch:
    the passthrough needs [quant_delay > 0], and [iter >= 0] is checked
    for a non-zero [quant_delay] only. *)
Theorem C10_zero_delay_is_active X dY scale zero_point num_bits iter :
  (FakeQuantizePerTensorAffineOp_forward X scale zero_point num_bits 0 iter
   = FakeQuantizePerTensorAffineOp_forward X scale zero_point num_bits 0 0)
  /\ (FakeQuantizePerTensorAffineOp_backward X dY scale zero_point num_bits 0 iter
      = FakeQuantizePerTensorAffineOp_backward X dY scale zero_point num_bits 0 0)
  /\ ~ In EvCopy (trace (FakeQuantizePerTensorAffineOp_forward
                           X scale zero_point num_bits 0 iter))
  /\ ~ In EvCopy (trace (FakeQuantizePerTensorAffineOp_backward
                           X dY scale zero_point num_bits 0 iter))
  /\ (is_cuda X = true -> scalar_type X = Float ->
      1 <= num_bits <= 32 -> 0 <= zero_point ->
      FakeQuantizePerTensorAffineOp_forward X scale zero_point num_bits 0 iter
      = mkM [EvEmptyLike; EvApply2]
          (inr (forward_active X scale zero_point num_bits))
      /\ (0 < numel X -> numel X = numel dY ->
          FakeQuantizePerTensorAffineOp_backward
            X dY scale zero_point num_bits 0 iter
          = mkM [EvZerosLike; EvEmptyLike; EvApply2; EvMul]
              (inr (backward_active X dY scale zero_point num_bits)))).
Proof.
  split; [|split; [|split; [|split]]].
  - now rewrite !forward_cases.
  - now rewrite !backward_cases.
  - rewrite forward_cases.
    destruct (is_cuda X), (ScalarType_eqb (scalar_type X) Float); simpl;
      split_tests; intuition discriminate.
  - rewrite backward_cases.
    destruct (is_cuda X), (ScalarType_eqb (scalar_type X) Float); simpl;
      split_tests; intuition discriminate.
  - intros Hc Ht Hb Hz. split.
    + apply forward_quantizes; auto.
    + intros; apply backward_quantizes; auto.
Qed.

(** ** The scale is not checked *)

(** C9: no check looks at [scale].  Whether a call throws, and what, does
    not depend on [scale]; a call whose other arguments are valid returns
    normally for every [scale], zero, negative, infinite or NaN. *)
Theorem C9_scale_never_rejected
    X dY scale scale' zero_point num_bits quant_delay iter :
  thrown (FakeQuantizePerTensorAffineOp_forward
            X scale zero_point num_bits quant_delay iter)
  = thrown (FakeQuantizePerTensorAffineOp_forward
              X scale' zero_point num_bits quant_delay iter)
  /\ thrown (FakeQuantizePerTensorAffineOp_backward
               X dY scale zero_point num_bits quant_delay iter)
     = thrown (FakeQuantizePerTensorAffineOp_backward
                 X dY scale' zero_point num_bits quant_delay iter)
  /\ (is_cuda X = true -> scalar_type X = Float ->
      1 <= num_bits <= 32 -> 0 <= zero_point ->
      0 <= quant_delay -> (quant_delay <> 0 -> 0 <= iter) ->
      thrown (FakeQuantizePerTensorAffineOp_forward
                X scale zero_point num_bits quant_delay iter) = None
      /\ (0 < numel X -> numel X = numel dY ->
          thrown (FakeQuantizePerTensorAffineOp_backward
                    X dY scale zero_point num_bits quant_delay iter) = None)
      /\ (quant_delay = 0 \/ quant_delay < iter ->
          FakeQuantizePerTensorAffineOp_forward
            X scale zero_point num_bits quant_delay iter
          = mkM [EvEmptyLike; EvApply2]
              (inr (forward_active X scale zero_point num_bits)))).
Proof.
  split; [|split].
  - rewrite !forward_cases.
    destruct (is_cuda X), (ScalarType_eqb (scalar_type X) Float); simpl;
      split_tests; reflexivity.
  - rewrite !backward_cases.
    destruct (is_cuda X), (ScalarType_eqb (scalar_type X) Float); simpl;
      split_tests; reflexivity.
  - intros Hc Ht Hb Hz Hd Hi. split; [|split; [intros Hn Hs|intros Ha]].
    + rewrite forward_cases, Hc, Ht. simpl. split_tests; try reflexivity; lia.
    + rewrite backward_cases, Hc, Ht. simpl. rewrite <- Hs.
      split_tests; try reflexivity; lia.
    + apply forward_quantizes; auto. lia.
Qed.

(** What [1.0f / scale] is for a zero and for a negative [scale]:
    [+infinity] and [-0.5]. *)
Example inv_scale_of_zero_and_negative :
  inv_scale_of (S754_zero false) = S754_infinity false
  /\ inv_scale_of (f64 (-2)) = S754_finite true 8388608 (-24).
Proof. vm_compute. split; reflexivity. Qed.

(** ** Sanity checks *)

(** A call that throws has done no device work. *)
Lemma forward_throws_early X scale zero_point num_bits quant_delay iter :
  thrown (FakeQuantizePerTensorAffineOp_forward
            X scale zero_point num_bits quant_delay iter) <> None ->
  trace (FakeQuantizePerTensorAffineOp_forward
           X scale zero_point num_bits quant_delay iter) = [].
Proof.
  rewrite forward_cases.
  destruct (is_cuda X), (ScalarType_eqb (scalar_type X) Float); simpl;
    split_tests; congruence.
Qed.

Lemma backward_throws_early X dY scale zero_point num_bits quant_delay iter :
  thrown (FakeQuantizePerTensorAffineOp_backward
            X dY scale zero_point num_bits quant_delay iter) <> None ->
  trace (FakeQuantizePerTensorAffineOp_backward
           X dY scale zero_point num_bits quant_delay iter) = [].
Proof.
  rewrite backward_cases.
  destruct (is_cuda X), (ScalarType_eqb (scalar_type X) Float); simpl;
    split_tests; congruence.
Qed.

(** C5, as stated, fails for backward, whose check of [iter] comes after
    the two element-count checks.  With an empty [X], a non-zero
    [quant_delay] and a negative [iter] the call throws
    [std::length_error]; with parameters that meet every condition and
    element counts that differ it throws [std::invalid_argument]. *)
Lemma C5_backward_counterexample :
  ((1 <> 0 /\ -1 < 0)
   /\ thrown (FakeQuantizePerTensorAffineOp_backward
                (cuda_floats []) (cuda_floats []) (f64 1) 0 8 1 (-1))
      = Some (length_error msg_empty))
  /\ (~ (8 < 1 \/ 8 > 32 \/ 128 < 0 \/ 0 < 0 \/ (0 <> 0 /\ 0 < 0))
      /\ thrown (FakeQuantizePerTensorAffineOp_backward
                   x_mask ones_1 (f64 1) 128 8 0 0)
         = Some (invalid_argument msg_size)).
Proof.
  split; split; try reflexivity; lia.
Qed.

(** C5, amended: forward throws [std::invalid_argument] exactly when
    [num_bits < 1], [num_bits > 32], [zero_point < 0], [quant_delay < 0]
    or ([quant_delay <> 0] and [iter < 0]).  Backward throws it exactly
    when one of the first four holds or, [X] being non-empty, the element
    counts differ or ([quant_delay <> 0] and [iter < 0]); its check of
    [iter] comes after the two element-count checks.  Every throw
    precedes all device work, and parameters meeting all conditions raise
    no parameter error. *)
Theorem C5_invalid_argument_conditions
    X dY scale zero_point num_bits quant_delay iter :
  is_cuda X = true -> scalar_type X = Float ->
  ((exists w, thrown (FakeQuantizePerTensorAffineOp_forward
                        X scale zero_point num_bits quant_delay iter)
              = Some (invalid_argument w))
   <-> (num_bits < 1 \/ num_bits > 32 \/ zero_point < 0 \/ quant_delay < 0
        \/ (quant_delay <> 0 /\ iter < 0)))
  /\ ((exists w, thrown (FakeQuantizePerTensorAffineOp_backward
                           X dY scale zero_point num_bits quant_delay iter)
                 = Some (invalid_argument w))
      <-> (num_bits < 1 \/ num_bits > 32 \/ zero_point < 0 \/ quant_delay < 0
           \/ (0 < numel X
               /\ (numel X <> numel dY \/ (quant_delay <> 0 /\ iter < 0)))))
  /\ (thrown (FakeQuantizePerTensorAffineOp_forward
                X scale zero_point num_bits quant_delay iter) <> None ->
      trace (FakeQuantizePerTensorAffineOp_forward
               X scale zero_point num_bits quant_delay iter) = [])
  /\ (thrown (FakeQuantizePerTensorAffineOp_backward
                X dY scale zero_point num_bits quant_delay iter) <> None ->
      trace (FakeQuantizePerTensorAffineOp_backward
               X dY scale zero_point num_bits quant_delay iter) = [])
  /\ (1 <= num_bits <= 32 -> 0 <= zero_point -> 0 <= quant_delay ->
      (quant_delay <> 0 -> 0 <= iter) ->
      thrown (FakeQuantizePerTensorAffineOp_forward
                X scale zero_point num_bits quant_delay iter) = None
      /\ (0 < numel X -> numel X = numel dY ->
          thrown (FakeQuantizePerTensorAffineOp_backward
                    X dY scale zero_point num_bits quant_delay iter) = None)).
Proof.
  intros Hc Ht.
  split; [|split; [|split; [|split]]].
  - rewrite forward_cases, Hc, Ht. simpl.
    split_tests; split;
      try (intros [w Hw]; try discriminate Hw; lia);
      try (intros Hor; try lia; eexists; reflexivity).
  - rewrite backward_cases, Hc, Ht. simpl.
    pose proof (numel_nonneg X).
    split_tests; split;
      try (intros [w Hw]; try discriminate Hw; lia);
      try (intros Hor; try lia; eexists; reflexivity).
  - apply forward_throws_early.
  - apply backward_throws_early.
  - intros Hb Hz Hd Hi. split; [|intros Hn Hs].
    + rewrite forward_cases, Hc, Ht. simpl. split_tests; try reflexivity; lia.
    + rewrite backward_cases, Hc, Ht. simpl. rewrite <- Hs.
      split_tests; try reflexivity; lia.
Qed.



(** ** The clamp bound [quant_max] *)

Lemma same_float_eq a b : same_float a b = true <-> a = b.
Proof.
  destruct a as [s|s| |s m e], b as [t|t| |t n f]; simpl;
    try (split; intros H; congruence).
  - rewrite Bool.eqb_true_iff. split; congruence.
  - rewrite Bool.eqb_true_iff. split; congruence.
  - rewrite !andb_true_iff, Bool.eqb_true_iff, Pos.eqb_eq, Z.eqb_eq.
    split; [intros [[-> ->] ->]; reflexivity|].
    intros H; injection H as -> -> ->; auto.
Qed.

Lemma In_Zseq lo len z :
  In z (Zseq lo len) <-> lo <= z < lo + Z.of_nat len.
Proof.
  unfold Zseq. rewrite in_map_iff. split.
  - intros [i [<- Hi]]. apply in_seq in Hi. lia.
  - intros H. exists (Z.to_nat (z - lo)). split; [lia|].
    apply in_seq. lia.
Qed.

(** A property checked on every integer of a range holds on the range. *)
Lemma forall_Zseq (P : Z -> bool) lo len :
  forallb P (Zseq lo len) = true ->
  forall z, lo <= z < lo + Z.of_nat len -> P z = true.
Proof.
  intros H z Hz. rewrite forallb_forall in H. apply H, In_Zseq, Hz.
Qed.

(** On [int] the expression [(1 << num_bits) - 1] is right up to 31 bits
    (at 31 through two wrap-arounds). *)
Lemma quant_max_int_spec num_bits :
  1 <= num_bits <= 31 -> quant_max_int num_bits = spec_quant_max num_bits.
Proof.
  intros H. apply Z.eqb_eq.
  apply (forall_Zseq (fun n => quant_max_int n =? spec_quant_max n) 1 31);
    [vm_compute; reflexivity | lia].
Qed.

(** Up to 24 bits the [float] holds [2^num_bits - 1] exactly. *)
Lemma quant_max_exact num_bits :
  1 <= num_bits <= 24 ->
  SF2Z (quant_max_of num_bits) = Some (spec_quant_max num_bits).
Proof.
  intros H.
  assert (E : match SF2Z (quant_max_of num_bits) with
              | Some z => z =? spec_quant_max num_bits
              | None => false
              end = true).
  { apply (forall_Zseq (fun n => match SF2Z (quant_max_of n) with
                                 | Some z => z =? spec_quant_max n
                                 | None => false
                                 end) 1 24);
      [vm_compute; reflexivity | lia]. }
  destruct (SF2Z (quant_max_of num_bits)); [|discriminate].
  apply Z.eqb_eq in E. now subst.
Qed.

(** From 25 to 31 bits the conversion to [float] rounds it up to
    [2^num_bits]. *)
Lemma quant_max_rounded num_bits :
  25 <= num_bits <= 31 ->
  SF2Z (quant_max_of num_bits) = Some (2 ^ num_bits).
Proof.
  intros H.
  assert (E : match SF2Z (quant_max_of num_bits) with
              | Some z => z =? 2 ^ num_bits
              | None => false
              end = true).
  { apply (forall_Zseq (fun n => match SF2Z (quant_max_of n) with
                                 | Some z => z =? 2 ^ n
                                 | None => false
                                 end) 25 7);
      [vm_compute; reflexivity | lia]. }
  destruct (SF2Z (quant_max_of num_bits)); [|discriminate].
  apply Z.eqb_eq in E. now subst.
Qed.

(** Up to 31 bits [quant_max] is the [float] nearest to
    [2^num_bits - 1]. *)
Lemma quant_max_nearest num_bits :
  1 <= num_bits <= 31 ->
  quant_max_of num_bits = F32.of_int (spec_quant_max num_bits).
Proof.
  intros H. unfold quant_max_of. now rewrite quant_max_int_spec.
Qed.

(** An [int] cannot hold [2^32 - 1], whatever the shift yields. *)
Lemma Int32_wrap_range z :
  Int32.min_signed <= Int32.wrap z <= Int32.max_signed.
Proof.
  unfold Int32.wrap, Int32.min_signed, Int32.max_signed.
  pose proof (Z.mod_pos_bound (z + 2 ^ 31) (2 ^ 32) ltac:(lia)). lia.
Qed.

Lemma int_below_32_bit_max a : Int32.sub a 1 < spec_quant_max 32.
Proof.
  unfold Int32.sub. pose proof (Int32_wrap_range (a - 1)) as H.
  unfold Int32.max_signed, spec_quant_max in *. lia.
Qed.

(** A host that reduces the shift count computes the same [int] up to
    31 bits, and 0 at 32 bits, where the plain shift gives -1. *)
Lemma quant_max_int_masked_spec num_bits :
  1 <= num_bits <= 31 ->
  quant_max_int_masked num_bits = quant_max_int num_bits.
Proof.
  intros H. apply Z.eqb_eq.
  apply (forall_Zseq (fun n => quant_max_int_masked n =? quant_max_int n) 1 31);
    [vm_compute; reflexivity | lia].
Qed.

Lemma quant_max_int_at_32 :
  quant_max_int 32 = -1 /\ quant_max_int_masked 32 = 0.
Proof. vm_compute. split; reflexivity. Qed.

(** C3: the claim that [quant_max = 2^num_bits - 1] on the whole accepted
    range fails in the code.  The kernel's [quant_max] is
    [2^num_bits - 1] up to 24 bits; from 25 to 31 bits the [float] cannot
    hold that number and [quant_max] is [2^num_bits]; at 32 bits the
    shift is done on a 32-bit [int], which loses the bit, and [quant_max]
    is -1. *)
Theorem C3_quant_max_right_up_to_24_bits num_bits :
  1 <= num_bits <= 32 ->
  SF2Z (quant_max_of num_bits)
  = Some (if num_bits <=? 24 then spec_quant_max num_bits
          else if num_bits <=? 31 then spec_quant_max num_bits + 1
          else -1)
  /\ (SF2Z (quant_max_of num_bits) = Some (spec_quant_max num_bits)
      <-> num_bits <= 24).
Proof.
  intros H.
  assert (E : SF2Z (quant_max_of num_bits)
              = Some (if num_bits <=? 24 then spec_quant_max num_bits
                      else if num_bits <=? 31 then spec_quant_max num_bits + 1
                      else -1)).
  { destruct (Z.leb_spec num_bits 24) as [H24|H24].
    - apply quant_max_exact. lia.
    - destruct (Z.leb_spec num_bits 31) as [H31|H31].
      + rewrite quant_max_rounded by lia. unfold spec_quant_max.
        f_equal. lia.
      + replace num_bits with 32 by lia. reflexivity. }
  split; [exact E|]. rewrite E.
  assert (0 < 2 ^ num_bits) by (apply Z.pow_pos_nonneg; lia).
  destruct (Z.leb_spec num_bits 24) as [H24|H24].
  - split; [lia | reflexivity].
  - split; [|lia]. unfold spec_quant_max.
    destruct (Z.leb_spec num_bits 31); intros [= Hq]; lia.
Qed.

(** ** The element-wise formulas *)

(** Up to 31 bits the lambdas are the formulas of the specification,
    [quant_max] being the [float] nearest to [2^num_bits - 1]. *)
Lemma forward_lambda_spec scale zero_point num_bits x u :
  1 <= num_bits <= 31 ->
  forward_lambda scale (inv_scale_of scale) zero_point
    quant_min_of (quant_max_of num_bits) x u
  = spec_forward_element scale zero_point num_bits x.
Proof.
  intros H. rewrite quant_max_nearest by assumption. reflexivity.
Qed.

Lemma backward_lambda_spec scale zero_point num_bits x u :
  1 <= num_bits <= 31 ->
  backward_lambda (inv_scale_of scale) zero_point
    quant_min_of (quant_max_of num_bits) x u
  = spec_mask_element scale zero_point num_bits x.
Proof.
  intros H. rewrite quant_max_nearest by assumption. reflexivity.
Qed.

(** Up to 31 bits every element of the forward result is the
    specification's formula, [quant_max] being the [float] nearest to
    [2^num_bits - 1]. *)
Lemma forward_active_spec X scale zero_point num_bits :
  1 <= num_bits <= 31 ->
  data (forward_active X scale zero_point num_bits)
  = map (spec_forward_element scale zero_point num_bits) (data X).
Proof.
  intros H. unfold forward_active. simpl.
  apply map_ext. intros x. now apply forward_lambda_spec.
Qed.

Lemma nth_error_mul_data a b i x y :
  nth_error a i = Some x -> nth_error b i = Some y ->
  nth_error (mul_data a b) i = Some (F32.mul x y).
Proof.
  revert b i; induction a as [|x' a IH]; intros [|y' b] [|i]; simpl;
    try discriminate.
  - intros [= ->] [= ->]. reflexivity.
  - apply IH.
Qed.

Lemma mul_data_length a b :
  List.length a = List.length b ->
  List.length (mul_data a b) = List.length b.
Proof.
  revert b; induction a as [|x a IH]; intros [|y b]; simpl;
    try discriminate; auto.
Qed.

(** Up to 31 bits every element of the backward result is the mask of the
    specification times the upstream gradient. *)
Lemma backward_active_spec X dY scale zero_point num_bits i x dy :
  1 <= num_bits <= 31 -> numel X = numel dY ->
  nth_error (data X) i = Some x -> nth_error (data dY) i = Some dy ->
  nth_error (data (backward_active X dY scale zero_point num_bits)) i
  = Some (F32.mul (spec_mask_element scale zero_point num_bits x) dy).
Proof.
  intros Hb Hn Hx Hy. unfold backward_active, backward_mask. simpl.
  rewrite apply2_same_length by (unfold numel in Hn; lia).
  apply nth_error_mul_data; [|assumption].
  rewrite nth_error_map, Hx. simpl.
  now rewrite backward_lambda_spec.
Qed.

Lemma backward_active_length X dY scale zero_point num_bits :
  numel X = numel dY ->
  numel (backward_active X dY scale zero_point num_bits) = numel dY.
Proof.
  intros Hn. unfold numel, backward_active, backward_mask in *. simpl.
  rewrite mul_data_length; [reflexivity|].
  rewrite apply2_length, length_map. reflexivity.
Qed.

(** The end-to-end sample of the specification: 0.1, 0.4, 0.6, 0.9 with
    [scale = 1], [zero_point = 0], 8 bits give 0, 0, 1, 1. *)
Example forward_tenths :
  FakeQuantizePerTensorAffineOp_forward x_tenths (f64 1) 0 8 0 0
  = mkM [EvEmptyLike; EvApply2]
      (inr (cuda_floats [f32 0; f32 0; f32 1; f32 1])).
Proof. vm_compute. reflexivity. Qed.

(** The mask sample of the specification: -1000, 0, 1000 with
    [scale = 1], [zero_point = 128], 8 bits give the mask 0, 1, 0. *)
Example backward_mask_sample :
  backward_mask x_mask ones_3 (f64 1) 128 8 = [f32 0; f32 1; f32 0]
  /\ FakeQuantizePerTensorAffineOp_backward x_mask ones_3 (f64 1) 128 8 0 0
     = mkM [EvZerosLike; EvEmptyLike; EvApply2; EvMul]
         (inr (cuda_floats [f32 0; f32 1; f32 0])).
Proof. vm_compute. split; reflexivity. Qed.

(** C1: at [num_bits = 32], which passes the checks, the forward kernel
    departs from the formula of the claim: the input 300 with [scale = 1]
    and [zero_point = 0] comes back as -1, where
    [min(2^32 - 1, max(0, round(300)))] is 300.  (On a host that reduces
    the shift count [quant_max] is 0 and the input comes back as 0.) *)
Theorem C1_forward_departs_at_32_bits :
  FakeQuantizePerTensorAffineOp_forward x_300 (f64 1) 0 32 0 0
  = mkM [EvEmptyLike; EvApply2] (inr (cuda_floats [f32 (-1)]))
  /\ map (spec_forward_element (f64 1) 0 32) (data x_300) = [f32 300]
  /\ f32 (-1) <> f32 300
  /\ forward_lambda (f64 1) (inv_scale_of (f64 1)) 0
       quant_min_of (F32.of_int (quant_max_int_masked 32)) (f32 300) uninit
     = f32 0
  /\ f32 0 <> f32 300.
Proof. vm_compute. repeat split; discriminate. Qed.

(** C2: the backward kernel departs from the mask of the claim where
    [quant_max] is not [2^num_bits - 1].  At [num_bits = 32], input 300,
    [scale = 1], [zero_point = 0]: the quantization point 300 lies in
    [0, 2^32 - 1], so the claim passes the gradient 1 on, and the kernel,
    whose [quant_max] is -1 (0 on a host that reduces the shift count),
    returns 0.  At [num_bits = 25], input [2^25]: the quantization point
    [2^25] is above [2^25 - 1], so the claim zeroes the gradient, and the
    kernel passes it on. *)
Theorem C2_backward_mask_departs :
  (FakeQuantizePerTensorAffineOp_backward x_300 ones_1 (f64 1) 0 32 0 0
   = mkM [EvZerosLike; EvEmptyLike; EvApply2; EvMul]
       (inr (cuda_floats [f32 0]))
   /\ SF2Z (spec_q (f64 1) 0 (f32 300)) = Some 300
   /\ spec_quant_min <= 300 <= spec_quant_max 32
   /\ F32.mul (spec_mask_element (f64 1) 0 32 (f32 300)) (f32 1) = f32 1
   /\ f32 0 <> f32 1
   /\ backward_lambda (inv_scale_of (f64 1)) 0
        quant_min_of (F32.of_int (quant_max_int_masked 32)) (f32 300) uninit
      = f32 0)
  /\ (FakeQuantizePerTensorAffineOp_backward x_2p25 ones_1 (f64 1) 0 25 0 0
      = mkM [EvZerosLike; EvEmptyLike; EvApply2; EvMul]
          (inr (cuda_floats [f32 1]))
      /\ SF2Z (spec_q (f64 1) 0 (f32 33554432)) = Some 33554432
      /\ spec_quant_max 25 < 33554432
      /\ f32 1 <> f32 0).
Proof. vm_compute. repeat split; discriminate. Qed.

(** ** Range of the forward result *)

Lemma SFcompare_Gt_Lt a b :
  SFcompare a b = Some Gt -> SFcompare b a = Some Lt.
Proof.
  destruct a as [s|s| |s m e], b as [t|t| |t n f]; simpl;
    try discriminate; try (destruct s; discriminate);
    try (destruct t; discriminate);
    try (destruct s, t; discriminate || reflexivity);
    try (destruct s; intros; (discriminate || reflexivity));
    try (destruct t; intros; (discriminate || reflexivity)).
  destruct s, t; try discriminate; try reflexivity;
    rewrite (Z.compare_antisym e f);
    destruct (e ?= f); simpl; try discriminate; try reflexivity;
    change (Pos.compare_cont Eq ?x ?y) with (Pos.compare x y);
    rewrite (Pos.compare_antisym m n);
    destruct (m ?= n)%positive; simpl; discriminate || reflexivity.
Qed.

Lemma SFleb_refl a : is_nan a = false -> SFleb a a = true.
Proof.
  unfold SFleb. destruct a as [s|s| |s m e]; simpl; try discriminate;
    try (destruct s; reflexivity).
  intros _. rewrite Z.compare_refl.
  change (Pos.compare_cont Eq m m) with (Pos.compare m m).
  rewrite Pos.compare_refl. destruct s; reflexivity.
Qed.

Lemma SFleb_not_nan a b : SFleb a b = true -> is_nan a = false /\ is_nan b = false.
Proof.
  unfold SFleb. destruct a, b; simpl; try discriminate; auto.
Qed.

(** The clamped quantization point lies between the kernel's
    [quant_min] and [quant_max], whatever the point is: a finite number,
    an infinity or a NaN. *)
Lemma clamp_between quant_min quant_max q :
  SFleb quant_min quant_max = true ->
  SFleb quant_min (fminf quant_max (fmaxf quant_min q)) = true
  /\ SFleb (fminf quant_max (fmaxf quant_min q)) quant_max = true.
Proof.
  intros H. destruct (SFleb_not_nan _ _ H) as [Hmin Hmax].
  assert (Ht : SFleb quant_min (fmaxf quant_min q) = true
               /\ is_nan (fmaxf quant_min q) = false).
  { unfold fmaxf. destruct (SFcompare quant_min q) as [[| |]|] eqn:E;
      rewrite ?Hmin; auto using SFleb_refl.
    split; [unfold SFleb; now rewrite E|].
    destruct quant_min, q; simpl in *; congruence. }
  destruct Ht as [Ht Hn]. set (t := fmaxf quant_min q) in *.
  unfold fminf. destruct (SFcompare quant_max t) as [[| |]|] eqn:E;
    rewrite ?Hmax; auto using SFleb_refl.
  split; [assumption|]. apply SFcompare_Gt_Lt in E.
  unfold SFleb. now rewrite E.
Qed.

(** Up to 31 bits [quant_max] is at least [quant_min]. *)
Lemma quant_min_le_quant_max num_bits :
  1 <= num_bits <= 31 -> SFleb quant_min_of (quant_max_of num_bits) = true.
Proof.
  intros H.
  apply (forall_Zseq (fun n => SFleb quant_min_of (quant_max_of n)) 1 31);
    [vm_compute; reflexivity | lia].
Qed.

(** Up to 31 bits every forward result is [(c - zero_point) * scale] for
    a level [c] between the kernel's [quant_min] and [quant_max]. *)
Lemma forward_level_in_range scale zero_point num_bits x u :
  1 <= num_bits <= 31 ->
  exists c,
    forward_lambda scale (inv_scale_of scale) zero_point
      quant_min_of (quant_max_of num_bits) x u
    = dequantize scale zero_point c
    /\ SFleb quant_min_of c = true
    /\ SFleb c (quant_max_of num_bits) = true.
Proof.
  intros H. eexists. split; [reflexivity|].
  apply clamp_between. now apply quant_min_le_quant_max.
Qed.


(** ** Requantization *)

(** Forward twice is forward once on every input whose clamped level
    comes back from its own grid point. *)
Lemma forward_lambda_stable_level
    scale inv_scale zero_point quant_min quant_max x u :
  fminf quant_max
    (fmaxf quant_min
       (quant_point inv_scale zero_point
          (forward_lambda scale inv_scale zero_point quant_min quant_max x u)))
  = fminf quant_max (fmaxf quant_min (quant_point inv_scale zero_point x)) ->
  forward_lambda scale inv_scale zero_point quant_min quant_max
    (forward_lambda scale inv_scale zero_point quant_min quant_max x u) u
  = forward_lambda scale inv_scale zero_point quant_min quant_max x u.
Proof.
  intros H. unfold forward_lambda at 1. now rewrite H.
Qed.


(** ** Exact arithmetic on numbers the formats hold *)

(** Number of binary digits. *)
Lemma digits2_pos_bounds m :
  2 ^ (Zpos (digits2_pos m) - 1) <= Zpos m < 2 ^ Zpos (digits2_pos m).
Proof.
  induction m as [m IH|m IH|]; simpl digits2_pos;
    rewrite ?Pos2Z.inj_succ.
  - replace (Z.succ (Zpos (digits2_pos m)) - 1) with (Z.succ (Zpos (digits2_pos m) - 1)) by lia.
    rewrite !Z.pow_succ_r by lia. lia.
  - replace (Z.succ (Zpos (digits2_pos m)) - 1) with (Z.succ (Zpos (digits2_pos m) - 1)) by lia.
    rewrite !Z.pow_succ_r by lia. lia.
  - simpl. lia.
Qed.

Lemma Zdigits2_unique M d :
  2 ^ (d - 1) <= M < 2 ^ d -> 0 < M -> Zdigits2 M = d.
Proof.
  intros HM Hpos. destruct M as [|m|m]; try lia. simpl.
  pose proof (digits2_pos_bounds m) as Hm.
  set (d' := Zpos (digits2_pos m)) in *.
  assert (0 < d).
  { destruct (Z.ltb_spec 0 d) as [|Hd]; [assumption|].
    destruct (Z.eq_dec d 0) as [->|]; [simpl in HM; lia|].
    rewrite (Z.pow_neg_r 2 d) in HM by lia. lia. }
  destruct (Z.lt_trichotomy d d') as [Hlt | [Heq | Hgt]]; [|now symmetry|].
  - assert (2 ^ d <= 2 ^ (d' - 1)) by (apply Z.pow_le_mono_r; lia). lia.
  - assert (2 ^ d' <= 2 ^ (d - 1)) by (apply Z.pow_le_mono_r; lia). lia.
Qed.

Lemma Zdigits2_mul_pow2 M u :
  0 < M -> 0 <= u -> Zdigits2 (M * 2 ^ u) = Zdigits2 M + u.
Proof.
  intros HM Hu. destruct M as [|m|m]; try lia.
  pose proof (digits2_pos_bounds m) as Hm.
  assert (0 < 2 ^ u) by (apply Z.pow_pos_nonneg; lia).
  apply Zdigits2_unique; [|nia].
  simpl Zdigits2.
  replace (Zpos (digits2_pos m) + u - 1) with (Zpos (digits2_pos m) - 1 + u) by lia.
  rewrite !Z.pow_add_r by lia. nia.
Qed.

Lemma iter_pos_xI {A} (f : A -> A) p x :
  iter_pos f p~1 x = iter_pos f p (iter_pos f p (f x)).
Proof. reflexivity. Qed.

Lemma iter_pos_xO {A} (f : A -> A) p x :
  iter_pos f p~0 x = iter_pos f p (iter_pos f p x).
Proof. reflexivity. Qed.

Lemma shr_1_double M :
  0 < M ->
  shr_1 (Build_shr_record (2 * M) false false) = Build_shr_record M false false.
Proof. destruct M; try lia. reflexivity. Qed.

(** Shifting out zero bits is exact. *)
Lemma iter_shr_1_exact p : forall M, 0 < M ->
  iter_pos shr_1 p (Build_shr_record (M * 2 ^ Zpos p) false false)
  = Build_shr_record M false false.
Proof.
  induction p as [p IH|p IH|]; intros M HM;
    try assert (Hp : 0 < 2 ^ Zpos p) by (apply Z.pow_pos_nonneg; lia).
  - rewrite iter_pos_xI.
    replace (M * 2 ^ Zpos p~1) with (2 * (M * 2 ^ Zpos p * 2 ^ Zpos p)).
    2:{ rewrite (Pos2Z.inj_xI p), Z.pow_add_r, Z.pow_twice_r by lia.
        change (2 ^ 1) with 2. ring. }
    rewrite shr_1_double by nia.
    rewrite IH, IH; auto. nia.
  - rewrite iter_pos_xO.
    replace (M * 2 ^ Zpos p~0) with (M * 2 ^ Zpos p * 2 ^ Zpos p).
    2:{ rewrite (Pos2Z.inj_xO p), Z.pow_twice_r by lia. ring. }
    rewrite IH, IH; auto. nia.
  - change (iter_pos shr_1 1 ?x) with (shr_1 x).
    rewrite Z.mul_comm. change (2 ^ 1) with 2. now apply shr_1_double.
Qed.

Lemma shr_exact M e u :
  0 < M -> 0 <= u ->
  shr (Build_shr_record (M * 2 ^ u) false false) (e - u) u
  = (Build_shr_record M false false, e).
Proof.
  intros HM Hu. destruct u as [|p|p]; try lia; unfold shr.
  - rewrite Z.mul_1_r. f_equal. lia.
  - rewrite iter_shr_1_exact by assumption. f_equal. lia.
Qed.

Section Exact.

Variables prec emax : Z.

Local Abbreviation fexp := (fexp prec emax).

(** A canonical mantissa and exponent survive rounding, however many
    zero bits are appended. *)
Lemma binary_round_aux_exact s P e u :
  bounded prec emax P e = true -> 0 <= u ->
  binary_round_aux prec emax s (Zpos P * 2 ^ u) (e - u) loc_Exact
  = S754_finite s P e.
Proof.
  intros Hb Hu. unfold bounded, canonical_mantissa in Hb.
  apply andb_true_iff in Hb. destruct Hb as [Hc He].
  apply Z.eqb_eq in Hc. apply Z.leb_le in He.
  unfold binary_round_aux, shr_fexp.
  rewrite Zdigits2_mul_pow2 by lia. simpl Zdigits2.
  replace (Zpos (digits2_pos P) + u + (e - u)) with (Zpos (digits2_pos P) + e) by lia.
  rewrite Hc. replace (e - (e - u)) with u by lia.
  cbv beta iota delta [shr_record_of_loc].
  rewrite shr_exact by lia.
  cbv beta iota delta [loc_of_shr_record shr_m round_nearest_even Zdigits2].
  rewrite Hc, Z.sub_diag.
  cbv beta iota delta [shr shr_m].
  apply Z.leb_le in He. now rewrite He.
Qed.

Lemma Pos_iter_xO m d : Zpos (Pos.iter xO m d) = Zpos m * 2 ^ Zpos d.
Proof.
  induction d as [|d IH] using Pos.peano_ind.
  - simpl. lia.
  - rewrite Pos.iter_succ, Pos2Z.inj_xO, IH, Pos2Z.inj_succ, Z.pow_succ_r by lia.
    ring.
Qed.

Lemma shl_align_fst m e e' :
  e' <= e -> Zpos (fst (shl_align m e e')) = Zpos m * 2 ^ (e - e').
Proof.
  intros H. unfold shl_align.
  destruct (e' - e) as [|d|d] eqn:E; try lia; simpl fst.
  - replace (e - e') with 0 by lia. lia.
  - rewrite Pos_iter_xO. f_equal. f_equal. lia.
Qed.

(** Rounding a number that the format holds returns its canonical form.
    The number is given by any mantissa and exponent; [B] is an exponent
    below both, to compare them on integers. *)
Lemma binary_round_exact s m E P e B :
  bounded prec emax P e = true -> B <= E -> B <= e ->
  Zpos m * 2 ^ (E - B) = Zpos P * 2 ^ (e - B) ->
  binary_round prec emax s m E = S754_finite s P e.
Proof.
  intros Hb HBE HBe Hv.
  assert (Hd : Zpos (digits2_pos m) + E = Zpos (digits2_pos P) + e).
  { assert (H1 := Zdigits2_mul_pow2 (Zpos m) (E - B) ltac:(lia) ltac:(lia)).
    assert (H2 := Zdigits2_mul_pow2 (Zpos P) (e - B) ltac:(lia) ltac:(lia)).
    rewrite Hv in H1. simpl Zdigits2 in *. lia. }
  assert (Hc : fexp (Zpos (digits2_pos m) + E) = e).
  { rewrite Hd. unfold bounded, canonical_mantissa in Hb.
    apply andb_true_iff in Hb. now apply Z.eqb_eq. }
  unfold binary_round. rewrite Hc.
  assert (Hp : forall a, 0 <= a -> 0 < 2 ^ a) by (intros; apply Z.pow_pos_nonneg; lia).
  destruct (Z.le_gt_cases E e) as [Hle|Hgt].
  - (* the given mantissa has zero bits to spare *)
    assert (Hm : Zpos m = Zpos P * 2 ^ (e - E)).
    { replace (e - B) with (e - E + (E - B)) in Hv by lia.
      rewrite Z.pow_add_r, Z.mul_assoc in Hv by lia.
      apply Z.mul_cancel_r in Hv; [assumption|]. specialize (Hp (E - B)). lia. }
    unfold shl_align.
    destruct (e - E) as [|d|d] eqn:Ed; try lia.
    + rewrite Hm. replace E with (e - 0) by lia.
      apply binary_round_aux_exact; [assumption|lia].
    + rewrite Hm. replace E with (e - Zpos d) by lia.
      apply binary_round_aux_exact; [assumption|lia].
  - (* the given mantissa is shifted left *)
    assert (Hm : Zpos m * 2 ^ (E - e) = Zpos P).
    { replace (E - B) with (E - e + (e - B)) in Hv by lia.
      rewrite Z.pow_add_r, Z.mul_assoc in Hv by lia.
      apply Z.mul_cancel_r in Hv; [assumption|]. specialize (Hp (e - B)). lia. }
    unfold shl_align.
    destruct (e - E) as [|d|d] eqn:Ed; try lia.
    rewrite Pos_iter_xO. replace (Zpos d) with (E - e) by lia.
    rewrite Hm.
    pose proof (binary_round_aux_exact s P e 0 Hb ltac:(lia)) as H0.
    rewrite Z.sub_0_r, Z.pow_0_r, Z.mul_1_r in H0. exact H0.
Qed.

End Exact.


Section Dyadic.

Variables prec emax : Z.
Hypothesis Hprec : 0 < prec.
Hypothesis Hemax : prec < emax.

Local Abbreviation fexp := (fexp prec emax).
Local Abbreviation emin := (emin prec emax).

Lemma pow2_pos a : 0 <= a -> 0 < 2 ^ a.
Proof. intros; apply Z.pow_pos_nonneg; lia. Qed.

Lemma digits_le_prec n :
  Zpos n < 2 ^ prec -> Zpos (digits2_pos n) <= prec.
Proof.
  intros Hn. pose proof (digits2_pos_bounds n) as Hd.
  destruct (Z.le_gt_cases (Zpos (digits2_pos n)) prec) as [|Hgt]; [assumption|].
  assert (2 ^ prec <= 2 ^ (Zpos (digits2_pos n) - 1))
    by (apply Z.pow_le_mono_r; lia).
  lia.
Qed.

Lemma dyadic_mantissa n :
  Zpos n < 2 ^ prec ->
  Zpos (Z.to_pos (Zpos n * 2 ^ (prec - Zpos (digits2_pos n))))
  = Zpos n * 2 ^ (prec - Zpos (digits2_pos n)).
Proof.
  intros Hn. pose proof (digits_le_prec n Hn).
  pose proof (pow2_pos (prec - Zpos (digits2_pos n)) ltac:(lia)).
  apply Z2Pos.id. nia.
Qed.

Lemma dyadic_bounded n j :
  Zpos n < 2 ^ prec ->
  emin <= Zpos (digits2_pos n) - prec + j <= emax - prec ->
  bounded prec emax
    (Z.to_pos (Zpos n * 2 ^ (prec - Zpos (digits2_pos n))))
    (Zpos (digits2_pos n) - prec + j) = true.
Proof.
  intros Hn Hj. pose proof (digits_le_prec n Hn) as Hd.
  unfold bounded, canonical_mantissa.
  apply andb_true_iff. split; [|apply Z.leb_le; lia].
  apply Z.eqb_eq.
  assert (Hdig : Zpos (digits2_pos (Z.to_pos (Zpos n * 2 ^ (prec - Zpos (digits2_pos n))))) = prec).
  { change (Zdigits2 (Zpos (Z.to_pos (Zpos n * 2 ^ (prec - Zpos (digits2_pos n))))) = prec).
    rewrite dyadic_mantissa by assumption.
    rewrite Zdigits2_mul_pow2 by lia. simpl Zdigits2. lia. }
  rewrite Hdig. unfold SpecFloat.fexp. fold emin. lia.
Qed.

(** Rounding [m * 2^E] when it is [n * 2^j] with [n] below [2^prec]. *)
Lemma binary_round_dyadic s m E n j B :
  Zpos n < 2 ^ prec ->
  emin <= Zpos (digits2_pos n) - prec + j <= emax - prec ->
  B <= E -> B <= j ->
  Zpos m * 2 ^ (E - B) = Zpos n * 2 ^ (j - B) ->
  binary_round prec emax s m E = dyadic prec s n j.
Proof.
  intros Hn Hj HBE HBj Hv. pose proof (digits_le_prec n Hn) as Hd.
  set (d := Zpos (digits2_pos n)) in *.
  set (B' := Z.min B (d - prec + j)).
  apply (binary_round_exact prec emax s m E _ _ B');
    [now apply dyadic_bounded | unfold B'; lia | unfold B'; lia |].
  rewrite dyadic_mantissa by assumption. fold d.
  replace (E - B') with (E - B + (B - B')) by lia.
  rewrite Z.pow_add_r, Z.mul_assoc, Hv by (unfold B'; lia).
  rewrite <- !Z.mul_assoc, <- !Z.pow_add_r by (unfold B'; lia).
  f_equal. f_equal. lia.
Qed.

(** Conversion of a small integer. *)
Lemma of_int_pos n :
  Zpos n < 2 ^ prec -> of_int prec emax (Zpos n) = dyadic prec false n 0.
Proof.
  intros Hn. pose proof (digits_le_prec n Hn) as Hd.
  pose proof (digits2_pos_bounds n) as Hb.
  unfold of_int, binary_normalize.
  apply (binary_round_dyadic false n 0 n 0 0); try lia.
  unfold SpecFloat.emin. lia.
Qed.

Lemma of_int_neg n :
  Zpos n < 2 ^ prec -> of_int prec emax (Zneg n) = dyadic prec true n 0.
Proof.
  intros Hn. pose proof (digits_le_prec n Hn) as Hd.
  unfold of_int, binary_normalize.
  apply (binary_round_dyadic true n 0 n 0 0); try lia.
  unfold SpecFloat.emin. lia.
Qed.

Lemma of_int_small z :
  Z.abs z < 2 ^ prec ->
  of_int prec emax z
  = match z with
    | Z0 => S754_zero false
    | Zpos n => dyadic prec false n 0
    | Zneg n => dyadic prec true n 0
    end.
Proof.
  intros Hz. destruct z as [|n|n]; [reflexivity| |].
  - apply of_int_pos. lia.
  - apply of_int_neg. lia.
Qed.

(** Multiplication by a power of two is exact. *)
Lemma SFmul_pow2 s t n j i :
  Zpos n < 2 ^ prec ->
  emin <= Zpos (digits2_pos n) - prec + (i + j) <= emax - prec ->
  SFmul prec emax (dyadic prec s n j) (dyadic prec t 1 i)
  = dyadic prec (xorb s t) n (i + j).
Proof.
  intros Hn Hj. unfold dyadic at 1 2, SFmul.
  rewrite Pos2Z.inj_mul, dyadic_mantissa by assumption.
  change (digits2_pos 1) with 1%positive.
  rewrite Z.mul_1_l, Z2Pos.id by (apply pow2_pos; lia).
  rewrite <- dyadic_mantissa by assumption.
  replace (Zpos (digits2_pos n) - prec + j + (1 - prec + i))
    with (Zpos (digits2_pos n) - prec + (i + j) - (prec - 1)) by lia.
  apply binary_round_aux_exact; [|lia].
  now apply dyadic_bounded.
Qed.

(** Rounding an integer given with a non-positive exponent. *)
Lemma binary_normalize_int c ez :
  ez <= 0 -> Z.abs c < 2 ^ prec ->
  binary_normalize prec emax (c * 2 ^ (- ez)) ez false = of_int prec emax c.
Proof.
  intros He Hc. rewrite of_int_small by assumption.
  pose proof (pow2_pos (- ez) ltac:(lia)) as Hp.
  assert (Hmin : emin <= 1 - prec) by (unfold SpecFloat.emin; lia).
  destruct c as [|n|n].
  - reflexivity.
  - pose proof (digits_le_prec n ltac:(lia)).
    pose proof (digits2_pos_bounds n).
    destruct (Zpos n * 2 ^ (- ez)) as [|q|q] eqn:E; try lia.
    unfold binary_normalize.
    apply (binary_round_dyadic false q ez n 0 ez); try lia.
    rewrite Z.sub_diag, Z.pow_0_r, Z.mul_1_r, Z.sub_0_l. now symmetry.
  - pose proof (digits_le_prec n ltac:(lia)).
    pose proof (digits2_pos_bounds n).
    destruct (Zneg n * 2 ^ (- ez)) as [|q|q] eqn:E; try lia.
    unfold binary_normalize.
    apply (binary_round_dyadic true q ez n 0 ez); try lia.
    rewrite Z.sub_diag, Z.pow_0_r, Z.mul_1_r, Z.sub_0_l. lia.
Qed.

(** The aligned mantissa of a small integer. *)
Lemma dyadic_align n ez :
  Zpos n < 2 ^ prec -> ez <= Zpos (digits2_pos n) - prec ->
  Zpos (fst (shl_align
               (Z.to_pos (Zpos n * 2 ^ (prec - Zpos (digits2_pos n))))
               (Zpos (digits2_pos n) - prec + 0) ez))
  = Zpos n * 2 ^ (- ez).
Proof.
  intros Hn He. pose proof (digits_le_prec n Hn).
  rewrite shl_align_fst by lia.
  rewrite dyadic_mantissa by assumption.
  rewrite <- Z.mul_assoc, <- Z.pow_add_r by lia.
  f_equal. f_equal. lia.
Qed.

(** Sums and differences of small integers are exact. *)
Lemma SFadd_int a b :
  Z.abs a < 2 ^ prec -> Z.abs b < 2 ^ prec -> Z.abs (a + b) < 2 ^ prec ->
  SFadd prec emax (of_int prec emax a) (of_int prec emax b)
  = of_int prec emax (a + b).
Proof.
  intros Ha Hb Hab.
  rewrite (of_int_small a), (of_int_small b) by assumption.
  destruct a as [|n|n], b as [|m|m];
    try reflexivity;
    try (rewrite ?Z.add_0_r, ?Z.add_0_l; rewrite of_int_small by assumption;
         reflexivity);
    unfold dyadic, SFadd;
    set (ez := Z.min (Zpos (digits2_pos n) - prec + 0)
                     (Zpos (digits2_pos m) - prec + 0));
    pose proof (digits_le_prec n ltac:(lia));
    pose proof (digits_le_prec m ltac:(lia));
    rewrite !dyadic_align by (unfold ez; lia);
    unfold cond_Zopp;
    rewrite <- ?Z.mul_opp_l, <- Z.mul_add_distr_r;
    apply binary_normalize_int; try assumption; unfold ez; lia.
Qed.

Lemma SFsub_int a b :
  Z.abs a < 2 ^ prec -> Z.abs b < 2 ^ prec -> Z.abs (a - b) < 2 ^ prec ->
  SFsub prec emax (of_int prec emax a) (of_int prec emax b)
  = of_int prec emax (a - b).
Proof.
  intros Ha Hb Hab.
  rewrite (of_int_small a), (of_int_small b) by assumption.
  destruct a as [|n|n], b as [|m|m];
    try reflexivity;
    try (rewrite ?Z.sub_0_r, ?Z.sub_0_l; rewrite of_int_small by assumption;
         reflexivity);
    unfold dyadic, SFsub;
    set (ez := Z.min (Zpos (digits2_pos n) - prec + 0)
                     (Zpos (digits2_pos m) - prec + 0));
    pose proof (digits_le_prec n ltac:(lia));
    pose proof (digits_le_prec m ltac:(lia));
    rewrite !dyadic_align by (unfold ez; lia);
    unfold cond_Zopp;
    rewrite <- ?Z.mul_opp_l, <- Z.mul_sub_distr_r;
    apply binary_normalize_int; try assumption; unfold ez; lia.
Qed.

End Dyadic.

(** Conversion between formats of a number both hold. *)
Lemma of_float_dyadic prec' emax' prec s n j :
  0 < prec -> 0 < prec' ->
  Zpos n < 2 ^ prec -> Zpos n < 2 ^ prec' ->
  emin prec' emax' <= Zpos (digits2_pos n) - prec' + j <= emax' - prec' ->
  of_float prec' emax' (dyadic prec s n j) = dyadic prec' s n j.
Proof.
  intros Hp Hp' Hn Hn' Hj.
  pose proof (digits_le_prec prec Hp n Hn) as Hd.
  unfold dyadic at 1, of_float.
  assert (H : binary_round prec' emax' s
                (Z.to_pos (Zpos n * 2 ^ (prec - Zpos (digits2_pos n))))
                (Zpos (digits2_pos n) - prec + j)
              = dyadic prec' s n j).
  { apply (binary_round_dyadic prec' emax' Hp' s _ _ n j
             (Zpos (digits2_pos n) - prec + j)); try assumption; try lia.
    rewrite dyadic_mantissa, Z.sub_diag, Z.pow_0_r, Z.mul_1_r by assumption.
    f_equal. f_equal. lia. }
  destruct s; exact H.
Qed.

(** [std::round] leaves a small integer alone. *)
Lemma round_dyadic_int prec emax s n :
  0 < prec -> prec < emax -> Zpos n < 2 ^ prec ->
  round prec emax (dyadic prec s n 0) = dyadic prec s n 0.
Proof.
  intros Hp He Hn.
  pose proof (digits_le_prec prec Hp n Hn) as Hd.
  unfold dyadic at 1, round.
  set (e := Zpos (digits2_pos n) - prec + 0).
  destruct (Z.leb_spec 0 e) as [|Hneg]; [reflexivity|].
  rewrite dyadic_mantissa by assumption.
  replace (prec - Zpos (digits2_pos n)) with (- e) by (unfold e; lia).
  assert (0 < 2 ^ (- e)) by (apply Z.pow_pos_nonneg; lia).
  assert (0 <= 2 ^ (- e - 1) < 2 ^ (- e)).
  { split; [apply Z.pow_nonneg; lia|]. apply Z.pow_lt_mono_r; lia. }
  rewrite Z.div_add_l, Z.div_small, Z.add_0_r by lia.
  destruct s; simpl cond_Zopp.
  - apply of_int_neg; assumption.
  - apply of_int_pos; assumption.
Qed.

(** Order of small positive integers. *)
Lemma digits2_pos_le a b :
  Zpos a <= Zpos b -> Zpos (digits2_pos a) <= Zpos (digits2_pos b).
Proof.
  intros H. pose proof (digits2_pos_bounds a). pose proof (digits2_pos_bounds b).
  destruct (Z.le_gt_cases (Zpos (digits2_pos a)) (Zpos (digits2_pos b)))
    as [|Hgt]; [assumption|].
  assert (2 ^ Zpos (digits2_pos b) <= 2 ^ (Zpos (digits2_pos a) - 1))
    by (apply Z.pow_le_mono_r; lia).
  lia.
Qed.

Lemma SFcompare_dyadic_gt prec a b :
  0 < prec -> Zpos a < 2 ^ prec -> Zpos b < Zpos a ->
  SFcompare (dyadic prec false a 0) (dyadic prec false b 0) = Some Gt.
Proof.
  intros Hp Ha Hb.
  pose proof (digits2_pos_le b a ltac:(lia)) as Hd.
  pose proof (digits_le_prec prec Hp a Ha).
  unfold dyadic, SFcompare.
  destruct (Z.compare_spec (Zpos (digits2_pos a) - prec + 0)
                           (Zpos (digits2_pos b) - prec + 0)) as [E|E|E];
    try reflexivity; try lia.
  f_equal. change (Pos.compare_cont Eq ?x ?y) with (Pos.compare x y).
  apply Pos.compare_gt_iff.
  match goal with |- (?x < ?y)%positive => change (Zpos x < Zpos y) end.
  rewrite !dyadic_mantissa by (assumption || lia).
  replace (Zpos (digits2_pos b)) with (Zpos (digits2_pos a)) by lia.
  assert (0 < 2 ^ (prec - Zpos (digits2_pos a)))
    by (apply Z.pow_pos_nonneg; lia).
  nia.
Qed.

Lemma SFcompare_finite_refl m e :
  SFcompare (S754_finite false m e) (S754_finite false m e) = Some Eq.
Proof.
  unfold SFcompare. rewrite Z.compare_refl.
  change (Pos.compare_cont Eq m m) with (Pos.compare m m).
  now rewrite Pos.compare_refl.
Qed.

(** Clamping a level in range does nothing. *)
Lemma fmaxf_zero_int prec emax k :
  0 < prec -> prec < emax -> 0 <= k < 2 ^ prec ->
  fmaxf (of_int prec emax 0) (of_int prec emax k) = of_int prec emax k.
Proof.
  intros Hp He Hk. rewrite (of_int_small prec emax Hp He k) by lia.
  destruct k as [|n|n]; try lia; reflexivity.
Qed.

Lemma fminf_int_le prec emax q k :
  0 < prec -> prec < emax -> 0 <= k <= q -> q < 2 ^ prec ->
  fminf (of_int prec emax q) (of_int prec emax k) = of_int prec emax k.
Proof.
  intros Hp He Hk Hq.
  rewrite (of_int_small prec emax Hp He k), (of_int_small prec emax Hp He q) by lia.
  destruct k as [|n|n], q as [|m|m]; try lia; try reflexivity.
  unfold fminf.
  destruct (Z.eq_dec (Zpos n) (Zpos m)) as [E|E].
  - injection E as ->. unfold dyadic. now rewrite SFcompare_finite_refl.
  - rewrite SFcompare_dyadic_gt by lia. reflexivity.
Qed.


Lemma pow2_double_dyadic j : pow2_double j = dyadic F64.prec false 1 j.
Proof.
  unfold pow2_double, dyadic, F64.prec. f_equal.
  change (Zpos (digits2_pos 1)) with 1. lia.
Qed.

Lemma F64_div_pow2 j :
  -1000 <= j <= 1000 ->
  F64.div (F64.of_int 1) (pow2_double j) = pow2_double (- j).
Proof.
  intros Hj.
  change (F64.of_int 1) with (S754_finite false 4503599627370496 (-52)).
  unfold F64.div, pow2_double, SFdiv, SFdiv_core_binary.
  change (Zdigits2 4503599627370496) with 53.
  replace (Z.min (fexp F64.prec F64.emax (53 + -52 - (53 + (j - 52))))
                 (-52 - (j - 52)))
    with (- j - 53)
    by (unfold fexp, emin, F64.prec, F64.emax; lia).
  replace (-52 - (j - 52) - (- j - 53)) with 53 by lia.
  change (Z.div_eucl (Z.shiftl 4503599627370496 53) 4503599627370496)
    with (9007199254740992, 0).
  change (new_location 4503599627370496 0) with loc_Exact.
  cbv beta iota.
  change 9007199254740992 with (Zpos 4503599627370496 * 2 ^ 1).
  replace (- j - 53) with (- j - 52 - 1) by lia.
  apply binary_round_aux_exact; [|lia].
  unfold bounded, canonical_mantissa.
  change (Zpos (digits2_pos 4503599627370496)) with 53.
  apply andb_true_iff; split.
  - apply Z.eqb_eq. unfold fexp, emin, F64.prec, F64.emax. lia.
  - apply Z.leb_le. unfold F64.prec, F64.emax. lia.
Qed.

Lemma of_int_scaled prec emax z :
  0 < prec -> prec < emax -> Z.abs z < 2 ^ prec ->
  of_int prec emax z = scaled prec z 0.
Proof. intros. now apply of_int_small. Qed.

Lemma F32_of_int_scaled z :
  Z.abs z < 2 ^ 24 -> F32.of_int z = scaled F32.prec z 0.
Proof. intros. now apply of_int_scaled. Qed.

(** The grid point of level [q]: [(q - zero_point) * 2^j], exactly. *)
Lemma dequantize_pow2 j zero_point q :
  -100 <= j <= 100 -> 0 <= zero_point < 2 ^ 24 -> 0 <= q < 2 ^ 24 ->
  dequantize (pow2_double j) zero_point (F32.of_int q)
  = scaled F32.prec (q - zero_point) j.
Proof.
  intros Hj Hz Hq. unfold dequantize, F32.sub, F32.of_int.
  rewrite (SFsub_int F32.prec F32.emax) by (reflexivity || (change F32.prec with 24; lia)).
  assert (Hc : Z.abs (q - zero_point) < 2 ^ 24) by lia.
  rewrite of_int_scaled by (reflexivity || assumption).
  destruct (q - zero_point) as [|n|n]; [reflexivity| |];
    unfold scaled, F64.of_single, F32.of_double, F64.mul;
    pose proof (digits_le_prec 24 eq_refl n ltac:(lia)) as Hd;
    pose proof (Pos2Z.is_pos (digits2_pos n)) as Hd0.
  - rewrite (of_float_dyadic F64.prec F64.emax F32.prec);
      try reflexivity; try (unfold F32.prec, F64.prec; lia).
    2:{ unfold emin, F64.prec, F64.emax. lia. }
    rewrite pow2_double_dyadic.
    rewrite (SFmul_pow2 F64.prec F64.emax eq_refl);
      try (unfold F64.prec; lia).
    2:{ unfold emin, F64.prec, F64.emax. lia. }
    rewrite (of_float_dyadic F32.prec F32.emax F64.prec);
      try reflexivity; try (unfold F32.prec, F64.prec; lia).
    + unfold dyadic. f_equal. lia.
    + unfold emin, F32.prec, F32.emax. lia.
  - rewrite (of_float_dyadic F64.prec F64.emax F32.prec);
      try reflexivity; try (unfold F32.prec, F64.prec; lia).
    2:{ unfold emin, F64.prec, F64.emax. lia. }
    rewrite pow2_double_dyadic.
    rewrite (SFmul_pow2 F64.prec F64.emax eq_refl);
      try (unfold F64.prec; lia).
    2:{ unfold emin, F64.prec, F64.emax. lia. }
    rewrite (of_float_dyadic F32.prec F32.emax F64.prec);
      try reflexivity; try (unfold F32.prec, F64.prec; lia).
    + unfold dyadic. f_equal. lia.
    + unfold emin, F32.prec, F32.emax. lia.
Qed.

(** [1 / 2^j] is [2^(-j)], in [double] and then in [float]. *)
Lemma inv_scale_pow2 j :
  -100 <= j <= 100 ->
  inv_scale_of (pow2_double j) = dyadic F32.prec false 1 (- j).
Proof.
  intros Hj. unfold inv_scale_of.
  change (F64.of_single F32.one) with (F64.of_int 1).
  rewrite F64_div_pow2 by lia.
  rewrite pow2_double_dyadic.
  apply of_float_dyadic; try reflexivity.
  change (Zpos (digits2_pos 1)) with 1.
  unfold emin, F32.prec, F32.emax. lia.
Qed.

(** The quantization point of a grid point is its level. *)
Lemma quant_point_pow2 j zero_point k :
  -100 <= j <= 100 -> 0 <= zero_point < 2 ^ 24 -> 0 <= k < 2 ^ 24 ->
  quant_point (inv_scale_of (pow2_double j)) zero_point
    (scaled F32.prec (k - zero_point) j)
  = F32.of_int k.
Proof.
  intros Hj Hz Hk. unfold quant_point.
  rewrite inv_scale_pow2 by assumption.
  assert (Hm : F32.mul (scaled F32.prec (k - zero_point) j)
                 (dyadic F32.prec false 1 (- j))
               = F32.of_int (k - zero_point)).
  { rewrite F32_of_int_scaled by lia.
    assert (Hc : Z.abs (k - zero_point) < 2 ^ 24) by lia.
    destruct (k - zero_point) as [|n|n]; [reflexivity| |];
      unfold scaled, F32.mul;
      pose proof (digits_le_prec 24 eq_refl n ltac:(lia)) as Hd;
      pose proof (Pos2Z.is_pos (digits2_pos n)) as Hd0;
      (rewrite (SFmul_pow2 F32.prec F32.emax eq_refl);
       [ unfold dyadic; f_equal; lia
       | unfold F32.prec; lia
       | unfold emin, F32.prec, F32.emax; lia ]). }
  rewrite Hm. unfold F32.add, F32.of_int.
  rewrite (SFadd_int F32.prec F32.emax)
    by (reflexivity || (change F32.prec with 24; lia)).
  replace (k - zero_point + zero_point) with k by lia.
  fold (F32.of_int k). rewrite F32_of_int_scaled by lia.
  destruct k as [|n|n]; try lia; [reflexivity|].
  apply round_dyadic_int; try reflexivity. change F32.prec with 24. lia.
Qed.

(** Forward leaves the points of a power-of-two grid where they are. *)
Lemma forward_lambda_pow2_grid j zero_point num_bits k u :
  -100 <= j <= 100 -> 1 <= num_bits <= 24 ->
  0 <= zero_point < 2 ^ 24 -> 0 <= k <= spec_quant_max num_bits ->
  forward_lambda (pow2_double j) (inv_scale_of (pow2_double j)) zero_point
    quant_min_of (quant_max_of num_bits)
    (dequantize (pow2_double j) zero_point (F32.of_int k)) u
  = dequantize (pow2_double j) zero_point (F32.of_int k).
Proof.
  intros Hj Hb Hz Hk.
  assert (Hq : spec_quant_max num_bits < 2 ^ 24).
  { unfold spec_quant_max.
    assert (2 ^ num_bits <= 2 ^ 24) by (apply Z.pow_le_mono_r; lia). lia. }
  unfold forward_lambda.
  rewrite (dequantize_pow2 j zero_point k) at 1 by lia.
  rewrite quant_point_pow2 by lia.
  rewrite quant_max_nearest by lia.
  unfold quant_min_of, F32.of_int.
  rewrite fmaxf_zero_int by (reflexivity || (change F32.prec with 24; lia)).
  rewrite fminf_int_le by (reflexivity || (change F32.prec with 24; lia)).
  reflexivity.
Qed.


(** ** The theorems at sample calls

    Each theorem with hypotheses is applied to a concrete call. *)

Lemma C4_delay_window_passthrough_witness :
  (0 < 5 /\ 0 <= 3 <= 5)
  /\ outcome (FakeQuantizePerTensorAffineOp_forward
                x_mask (f64 1) 128 8 5 3) = inr x_mask
  /\ outcome (FakeQuantizePerTensorAffineOp_backward
                x_mask ones_3 (f64 1) 128 8 5 3) = inr ones_3.
Proof.
  split; [lia|].
  assert (H := C4_delay_window_passthrough x_mask ones_3 (f64 1) 128 8 5 3
                 eq_refl eq_refl ltac:(lia) ltac:(lia) ltac:(lia) ltac:(lia)).
  destruct H as [[Hf _] Hb].
  split; [exact Hf|].
  exact (proj1 (Hb eq_refl eq_refl)).
Defined.

Lemma C10_zero_delay_is_active_witness :
  FakeQuantizePerTensorAffineOp_forward x_mask (f64 1) 128 8 0 (-7)
  = mkM [EvEmptyLike; EvApply2] (inr (forward_active x_mask (f64 1) 128 8))
  /\ FakeQuantizePerTensorAffineOp_backward x_mask ones_3 (f64 1) 128 8 0 (-7)
     = mkM [EvZerosLike; EvEmptyLike; EvApply2; EvMul]
         (inr (backward_active x_mask ones_3 (f64 1) 128 8)).
Proof.
  destruct (C10_zero_delay_is_active x_mask ones_3 (f64 1) 128 8 (-7))
    as (_ & _ & _ & _ & H).
  assert (H' := H eq_refl eq_refl ltac:(lia) ltac:(lia)).
  destruct H' as [Hf Hb].
  split; [exact Hf|].
  exact (Hb eq_refl eq_refl).
Defined.

Lemma C9_scale_never_rejected_witness :
  thrown (FakeQuantizePerTensorAffineOp_forward
            x_mask (S754_zero false) 128 8 0 0) = None
  /\ thrown (FakeQuantizePerTensorAffineOp_backward
               x_mask ones_3 (f64 (-2)) 128 8 0 0) = None.
Proof.
  split.
  - destruct (C9_scale_never_rejected
                x_mask ones_3 (S754_zero false) (f64 1) 128 8 0 0)
      as (_ & _ & H).
    exact (proj1 (H eq_refl eq_refl ltac:(lia) ltac:(lia) ltac:(lia)
                    ltac:(lia))).
  - destruct (C9_scale_never_rejected
                x_mask ones_3 (f64 (-2)) (f64 1) 128 8 0 0)
      as (_ & _ & H).
    exact (proj1 (proj2 (H eq_refl eq_refl ltac:(lia) ltac:(lia) ltac:(lia)
                           ltac:(lia))) eq_refl eq_refl).
Defined.

Lemma C5_invalid_argument_conditions_witness :
  (exists w, thrown (FakeQuantizePerTensorAffineOp_forward
                       x_mask (f64 1) 128 33 0 0)
             = Some (invalid_argument w))
  /\ (exists w, thrown (FakeQuantizePerTensorAffineOp_backward
                          x_mask ones_3 (f64 1) 128 8 2 (-1))
                = Some (invalid_argument w)).
Proof.
  split.
  - destruct (C5_invalid_argument_conditions
                x_mask ones_3 (f64 1) 128 33 0 0 eq_refl eq_refl)
      as ([_ H] & _).
    apply H. lia.
  - destruct (C5_invalid_argument_conditions
                x_mask ones_3 (f64 1) 128 8 2 (-1) eq_refl eq_refl)
      as (_ & [_ H] & _).
    apply H. right; right; right; right.
    split; [reflexivity|]. right. lia.
Defined.



Lemma C3_quant_max_right_up_to_24_bits_witness :
  SF2Z (quant_max_of 32) = Some (-1)
  /\ SF2Z (quant_max_of 32) <> Some (spec_quant_max 32)
  /\ SF2Z (quant_max_of 25) <> Some (spec_quant_max 25).
Proof.
  split; [|split].
  - exact (proj1 (C3_quant_max_right_up_to_24_bits 32 ltac:(lia))).
  - intros E.
    apply (proj2 (C3_quant_max_right_up_to_24_bits 32 ltac:(lia))) in E. lia.
  - intros E.
    apply (proj2 (C3_quant_max_right_up_to_24_bits 25 ltac:(lia))) in E. lia.
Defined.

(** * Further properties of the kernels *)

(** ** The checks on [X] itself *)

Lemma ScalarType_eqb_Float t : ScalarType_eqb t Float = true <-> t = Float.
Proof. destruct t; simpl; split; intros; congruence. Qed.

Lemma tensor_checks_fail X :
  is_cuda X = false \/ scalar_type X <> Float <->
  negb (is_cuda X) || negb (ScalarType_eqb (scalar_type X) Float) = true.
Proof.
  destruct (is_cuda X); simpl.
  - destruct (ScalarType_eqb (scalar_type X) Float) eqn:E; simpl.
    + apply ScalarType_eqb_Float in E. intuition congruence.
    + split; [reflexivity|]. intros _. right. intros H.
      apply ScalarType_eqb_Float in H. congruence.
  - intuition.
Qed.

(** X1: [AT_CHECK(X.is_cuda())] and
    [AT_CHECK(X.scalar_type() == ScalarType::Float)] come first.  Both
    kernels fail with [c10::Error], with no device work done, exactly
    when [X] is not a CUDA tensor or not a [Float] tensor, whatever the
    other arguments are, valid or not. *)
Theorem X1_tensor_checks_come_first
    X dY scale zero_point num_bits quant_delay iter :
  (FakeQuantizePerTensorAffineOp_forward
     X scale zero_point num_bits quant_delay iter = throw c10_Error
   <-> is_cuda X = false \/ scalar_type X <> Float)
  /\ (FakeQuantizePerTensorAffineOp_backward
        X dY scale zero_point num_bits quant_delay iter = throw c10_Error
      <-> is_cuda X = false \/ scalar_type X <> Float)
  /\ (thrown (FakeQuantizePerTensorAffineOp_forward
                X scale zero_point num_bits quant_delay iter) = Some c10_Error
      <-> is_cuda X = false \/ scalar_type X <> Float)
  /\ (thrown (FakeQuantizePerTensorAffineOp_backward
                X dY scale zero_point num_bits quant_delay iter) = Some c10_Error
      <-> is_cuda X = false \/ scalar_type X <> Float).
Proof.
  rewrite tensor_checks_fail, forward_cases, backward_cases.
  destruct (is_cuda X), (ScalarType_eqb (scalar_type X) Float); simpl;
    repeat split; try reflexivity; try discriminate;
    split_tests; discriminate.
Qed.

(** ** Which error a call reports *)

Ltac settle_error :=
  split;
  [ intros Herr; try (vm_compute in Herr; discriminate Herr); lia
  | intros Harg; try reflexivity; exfalso; lia ].

(** X2: when several arguments are invalid the call reports the first
    failing check in source order: [num_bits], then [zero_point], then
    [quant_delay], then (backward only) the emptiness of [X] and the
    element counts, then [iter].  Each message therefore tells which
    earlier checks have passed. *)
Theorem X2_first_failing_check_is_reported
    X dY scale zero_point num_bits quant_delay iter :
  is_cuda X = true -> scalar_type X = Float ->
  let fwd := thrown (FakeQuantizePerTensorAffineOp_forward
                       X scale zero_point num_bits quant_delay iter) in
  let bwd := thrown (FakeQuantizePerTensorAffineOp_backward
                       X dY scale zero_point num_bits quant_delay iter) in
  ((fwd = Some (invalid_argument msg_num_bits)
    <-> num_bits < 1 \/ 32 < num_bits)
   /\ (fwd = Some (invalid_argument msg_zero_point)
       <-> 1 <= num_bits <= 32 /\ zero_point < 0)
   /\ (fwd = Some (invalid_argument msg_quant_delay)
       <-> 1 <= num_bits <= 32 /\ 0 <= zero_point /\ quant_delay < 0)
   /\ (fwd = Some (invalid_argument msg_iter)
       <-> 1 <= num_bits <= 32 /\ 0 <= zero_point /\ 0 < quant_delay
           /\ iter < 0))
  /\ ((bwd = Some (invalid_argument msg_num_bits)
       <-> num_bits < 1 \/ 32 < num_bits)
      /\ (bwd = Some (invalid_argument msg_zero_point)
          <-> 1 <= num_bits <= 32 /\ zero_point < 0)
      /\ (bwd = Some (invalid_argument msg_quant_delay)
          <-> 1 <= num_bits <= 32 /\ 0 <= zero_point /\ quant_delay < 0)
      /\ (bwd = Some (length_error msg_empty)
          <-> 1 <= num_bits <= 32 /\ 0 <= zero_point /\ 0 <= quant_delay
              /\ numel X = 0)
      /\ (bwd = Some (invalid_argument msg_size)
          <-> 1 <= num_bits <= 32 /\ 0 <= zero_point /\ 0 <= quant_delay
              /\ 0 < numel X /\ numel X <> numel dY)
      /\ (bwd = Some (invalid_argument msg_iter)
          <-> 1 <= num_bits <= 32 /\ 0 <= zero_point /\ 0 < quant_delay
              /\ numel X = numel dY /\ 0 < numel X /\ iter < 0)).
Proof.
  intros Hc Ht fwd bwd. subst fwd bwd.
  rewrite forward_cases, backward_cases, Hc, Ht. simpl.
  pose proof (numel_nonneg X).
  split.
  - split_tests; (split; [|split; [|split]]); settle_error.
  - split_tests;
      (split; [|split; [|split; [|split; [|split]]]]); settle_error.
Qed.

Lemma X2_first_failing_check_is_reported_witness :
  thrown (FakeQuantizePerTensorAffineOp_forward
            x_mask (f64 1) (-1) 8 (-1) 0)
  = Some (invalid_argument msg_zero_point)
  /\ thrown (FakeQuantizePerTensorAffineOp_backward
               (cuda_floats []) ones_1 (f64 1) 0 8 1 (-1))
     = Some (length_error msg_empty).
Proof.
  split.
  - pose proof (X2_first_failing_check_is_reported
                  x_mask ones_3 (f64 1) (-1) 8 (-1) 0 eq_refl eq_refl) as H.
    cbv zeta in H. destruct H as [(_ & [_ H] & _) _].
    apply H. lia.
  - pose proof (X2_first_failing_check_is_reported
                  (cuda_floats []) ones_1 (f64 1) 0 8 1 (-1) eq_refl eq_refl)
      as H.
    cbv zeta in H. destruct H as [_ (_ & _ & _ & [_ H] & _)].
    apply H. repeat split; lia.
Defined.

(** ** Shape of the result *)

Lemma forward_active_numel X scale zero_point num_bits :
  numel (forward_active X scale zero_point num_bits) = numel X.
Proof. unfold numel, forward_active. simpl. now rewrite length_map. Qed.

(** X3: a call that returns keeps the shape.  The forward result has as
    many elements as [X] and is a CUDA [Float] tensor, in the delay window
    and outside it; the backward result has as many elements as [dY],
    which is as many as [X], and is never empty. *)
Theorem X3_result_keeps_element_count
    X dY scale zero_point num_bits quant_delay iter Y :
  (outcome (FakeQuantizePerTensorAffineOp_forward
              X scale zero_point num_bits quant_delay iter) = inr Y ->
   numel Y = numel X /\ is_cuda Y = true /\ scalar_type Y = Float)
  /\ (outcome (FakeQuantizePerTensorAffineOp_backward
                 X dY scale zero_point num_bits quant_delay iter) = inr Y ->
      numel Y = numel dY /\ numel Y = numel X /\ 0 < numel Y).
Proof.
  split.
  - rewrite forward_cases.
    destruct (is_cuda X) eqn:Hc; [|discriminate].
    destruct (ScalarType_eqb (scalar_type X) Float) eqn:Ht; [|discriminate].
    apply ScalarType_eqb_Float in Ht. simpl.
    split_tests; intros [= <-]; try (now auto);
      rewrite forward_active_numel; auto.
  - rewrite backward_cases.
    destruct (is_cuda X) eqn:Hc; [|discriminate].
    destruct (ScalarType_eqb (scalar_type X) Float) eqn:Ht; [|discriminate].
    simpl.
    split_tests; intros [= <-]; try lia;
      rewrite backward_active_length by assumption; lia.
Qed.

Lemma X3_result_keeps_element_count_witness :
  numel (forward_active x_mask (f64 1) 128 8) = 3
  /\ numel (backward_active x_mask ones_3 (f64 1) 128 8) = 3.
Proof.
  split.
  - exact (proj1 (proj1 (X3_result_keeps_element_count
                            x_mask ones_3 (f64 1) 128 8 0 0
                            (forward_active x_mask (f64 1) 128 8))
                   eq_refl)).
  - exact (proj1 (proj2 (X3_result_keeps_element_count
                            x_mask ones_3 (f64 1) 128 8 0 0
                            (backward_active x_mask ones_3 (f64 1) 128 8))
                   eq_refl)).
Defined.

(** ** Order of floating-point numbers *)

Lemma SFcompare_swap a b :
  SFcompare b a
  = match SFcompare a b with Some c => Some (CompOpp c) | None => None end.
Proof.
  destruct a as [s|s| |s m e], b as [t|t| |t n f]; simpl;
    try reflexivity;
    try (destruct s; reflexivity); try (destruct t; reflexivity);
    try (destruct s, t; reflexivity).
  destruct s, t; try reflexivity;
    rewrite (Z.compare_antisym e f);
    change (Pos.compare_cont Eq n m) with (Pos.compare n m);
    change (Pos.compare_cont Eq m n) with (Pos.compare m n);
    rewrite (Pos.compare_antisym m n);
    destruct (e ?= f); simpl; try reflexivity;
    destruct (m ?= n)%positive; reflexivity.
Qed.

(** ** Rounding never invents a NaN *)

Lemma shr_1_nonneg mrs : 0 <= shr_m mrs -> 0 <= shr_m (shr_1 mrs).
Proof. destruct mrs as [[|[p|p|]|p] r s]; simpl; lia. Qed.

Lemma iter_shr_1_nonneg p :
  forall mrs, 0 <= shr_m mrs -> 0 <= shr_m (iter_pos shr_1 p mrs).
Proof.
  induction p as [p IH|p IH|]; simpl; intros mrs H;
    auto using shr_1_nonneg.
Qed.

Lemma shr_nonneg mrs e n : 0 <= shr_m mrs -> 0 <= shr_m (fst (shr mrs e n)).
Proof.
  intros H. unfold shr. destruct n; simpl; auto using iter_shr_1_nonneg.
Qed.

Lemma round_nearest_even_nonneg m l :
  0 <= m -> 0 <= round_nearest_even m l.
Proof.
  intros H. unfold round_nearest_even.
  destruct l as [|[| |]]; try destruct (Z.even m); lia.
Qed.

(** Rounding a non-negative mantissa gives a zero, a finite number or an
    infinity of the sign asked for. *)
Lemma binary_round_aux_sign prec emax s m e :
  0 <= m ->
  let r := binary_round_aux prec emax s m e loc_Exact in
  r = S754_zero s \/ r = S754_infinity s \/ exists n f, r = S754_finite s n f.
Proof.
  intros Hm. unfold binary_round_aux, shr_fexp.
  destruct (shr (shr_record_of_loc m loc_Exact) e
              (fexp prec emax (Zdigits2 m + e) - e)) as [mrs' e'] eqn:E1.
  assert (H1 : 0 <= shr_m mrs').
  { change mrs' with (fst (mrs', e')). rewrite <- E1.
    apply shr_nonneg. exact Hm. }
  set (m1 := round_nearest_even (shr_m mrs') (loc_of_shr_record mrs')).
  assert (H2 : 0 <= m1) by (apply round_nearest_even_nonneg; exact H1).
  destruct (shr (shr_record_of_loc m1 loc_Exact) e'
              (fexp prec emax (Zdigits2 m1 + e') - e')) as [mrs'' e''] eqn:E2.
  assert (H3 : 0 <= shr_m mrs'').
  { change mrs'' with (fst (mrs'', e'')). rewrite <- E2.
    apply shr_nonneg. exact H2. }
  simpl. destruct (shr_m mrs'') as [|p|p]; [auto | | lia].
  destruct (e'' <=? emax - prec); eauto.
Qed.

Lemma binary_round_sign prec emax s m e :
  let r := binary_round prec emax s m e in
  r = S754_zero s \/ r = S754_infinity s \/ exists n f, r = S754_finite s n f.
Proof.
  unfold binary_round.
  destruct (shl_align m e (fexp prec emax (Zpos (digits2_pos m) + e))) as [mz ez].
  apply binary_round_aux_sign. lia.
Qed.

Lemma binary_normalize_not_nan prec emax m e s :
  is_nan (binary_normalize prec emax m e s) = false.
Proof.
  destruct m as [|p|p]; simpl; [reflexivity| |].
  - destruct (binary_round_sign prec emax false p e) as [E|[E|(n & f & E)]];
      now rewrite E.
  - destruct (binary_round_sign prec emax true p e) as [E|[E|(n & f & E)]];
      now rewrite E.
Qed.

(** The conversion of a non-negative integer is not negative. *)
Lemma of_int_nonneg prec emax z :
  0 <= z ->
  let r := of_int prec emax z in
  r = S754_zero false \/ r = S754_infinity false
  \/ exists n f, r = S754_finite false n f.
Proof.
  intros Hz. unfold of_int. destruct z as [|p|p]; [now left| |lia].
  apply binary_round_sign.
Qed.

(** ** Inputs that are not numbers *)


Lemma quant_max_positive num_bits :
  1 <= num_bits <= 31 ->
  exists m e, quant_max_of num_bits = S754_finite false m e.
Proof.
  intros H.
  assert (E : match quant_max_of num_bits with
              | S754_finite false _ _ => true | _ => false end = true).
  { apply (forall_Zseq (fun n => match quant_max_of n with
                                 | S754_finite false _ _ => true
                                 | _ => false end) 1 31);
      [vm_compute; reflexivity | lia]. }
  destruct (quant_max_of num_bits) as [| | |[|] m e]; try discriminate. eauto.
Qed.

(** The quantization point of a NaN is a NaN, that of an infinity an
    infinity or a NaN. *)
Lemma quant_point_nan inv_scale zero_point :
  quant_point inv_scale zero_point S754_nan = S754_nan.
Proof. reflexivity. Qed.

Lemma quant_point_infinity inv_scale zero_point s :
  0 <= zero_point ->
  let q := quant_point inv_scale zero_point (S754_infinity s) in
  q = S754_nan \/ exists t, q = S754_infinity t.
Proof.
  intros Hz. unfold quant_point, F32.mul, F32.add, F32.round, F32.of_int.
  destruct (of_int_nonneg F32.prec F32.emax zero_point Hz)
    as [E|[E|(n & f & E)]]; rewrite E;
    destruct inv_scale as [t|t| |t m e]; simpl; auto;
    destruct (xorb s t); simpl; eauto.
Qed.

Lemma quant_point_infinity_positive inv_scale zero_point s :
  0 <= zero_point -> SFltb F32.zero inv_scale = true ->
  let q := quant_point inv_scale zero_point (S754_infinity s) in
  if s then q = S754_nan \/ q = S754_infinity true
  else q = S754_infinity false.
Proof.
  intros Hz Hi. unfold quant_point, F32.mul, F32.add, F32.round, F32.of_int.
  destruct (of_int_nonneg F32.prec F32.emax zero_point Hz)
    as [E|[E|(n & f & E)]]; rewrite E;
    destruct inv_scale as [t|[|]| |[|] m e]; try discriminate Hi;
    destruct s; simpl; auto.
Qed.

(** The clamp of a point that is not a number. *)
Lemma clamp_special m e q :
  q = S754_nan \/ (exists t, q = S754_infinity t) ->
  let quant_max := S754_finite false m e in
  fminf quant_max (fmaxf quant_min_of q)
  = (if same_float q (S754_infinity false) then quant_max else quant_min_of)
  /\ SFleb quant_min_of q && SFleb q quant_max = false.
Proof.
  intros [->|[[|] ->]]; split; reflexivity.
Qed.

(** X4: inputs that are not numbers saturate.  Up to 31 bits a NaN input
    comes out of forward as the lower end of the grid,
    [(quant_min - zero_point) * scale]: [fmaxf] drops the NaN.  An
    infinite input comes out as one of the two ends of the grid, whatever
    [scale] is; when [1.0f / scale] is positive, [+infinity] gives the
    upper end and [-infinity] the lower one.  Backward lets no gradient
    through at such an input: its mask is 0. *)
Theorem X4_non_finite_inputs_saturate scale zero_point num_bits u :
  1 <= num_bits <= 31 -> 0 <= zero_point ->
  let inv_scale := inv_scale_of scale in
  let quant_max := quant_max_of num_bits in
  let fwd := forward_lambda scale inv_scale zero_point quant_min_of quant_max in
  let bwd := backward_lambda inv_scale zero_point quant_min_of quant_max in
  let low := dequantize scale zero_point quant_min_of in
  let high := dequantize scale zero_point quant_max in
  (fwd S754_nan u = low /\ bwd S754_nan u = F32.zero)
  /\ (forall s, (fwd (S754_infinity s) u = low \/ fwd (S754_infinity s) u = high)
                /\ bwd (S754_infinity s) u = F32.zero)
  /\ (SFltb F32.zero inv_scale = true ->
      fwd (S754_infinity false) u = high
      /\ fwd (S754_infinity true) u = low).
Proof.
  intros Hb Hz inv_scale quant_max fwd bwd low high.
  destruct (quant_max_positive num_bits Hb) as (m & e & Hq).
  subst fwd bwd low high quant_max.
  unfold forward_lambda, backward_lambda. rewrite Hq.
  split; [|split].
  - split; reflexivity.
  - intros s.
    destruct (clamp_special m e _ (quant_point_infinity inv_scale zero_point s Hz))
      as [-> ->].
    split; [|reflexivity].
    destruct (same_float _ _); auto.
  - intros Hi. split.
    + pose proof (quant_point_infinity_positive inv_scale zero_point false Hz Hi)
        as Hp.
      simpl in Hp. rewrite Hp. reflexivity.
    + pose proof (quant_point_infinity_positive inv_scale zero_point true Hz Hi)
        as Hp.
      simpl in Hp. destruct Hp as [-> | ->]; reflexivity.
Qed.

Lemma X4_non_finite_inputs_saturate_witness :
  forward_lambda (f64 1) (inv_scale_of (f64 1)) 128
    quant_min_of (quant_max_of 8) (S754_infinity false) uninit
  = dequantize (f64 1) 128 (quant_max_of 8)
  /\ forward_lambda (f64 1) (inv_scale_of (f64 1)) 128
       quant_min_of (quant_max_of 8) S754_nan uninit
     = dequantize (f64 1) 128 quant_min_of.
Proof.
  pose proof (X4_non_finite_inputs_saturate (f64 1) 128 8 uninit
                ltac:(lia) ltac:(lia)) as H.
  split.
  - exact (proj1 (proj2 (proj2 H) eq_refl)).
  - exact (proj1 (proj1 H)).
Defined.

(** ** The mask and the clamp *)

Lemma SFcompare_finite_same s m e :
  SFcompare (S754_finite s m e) (S754_finite s m e) = Some Eq.
Proof.
  unfold SFcompare. rewrite Z.compare_refl.
  change (Pos.compare_cont Eq m m) with (Pos.compare m m).
  rewrite Pos.compare_refl. destruct s; reflexivity.
Qed.

Lemma SFcompare_refl a : is_nan a = false -> SFcompare a a = Some Eq.
Proof.
  destruct a as [s|s| |s m e]; try discriminate; intros _;
    try (destruct s; reflexivity).
  apply SFcompare_finite_same.
Qed.

(** With a positive [quant_max] the point is in range exactly when the
    clamp returns it. *)
Lemma in_range_iff_clamp_idle m e q :
  let quant_max := S754_finite false m e in
  SFleb quant_min_of q && SFleb q quant_max
  = SFeqb (fminf quant_max (fmaxf quant_min_of q)) q.
Proof.
  intros quant_max. subst quant_max.
  destruct q as [s|[|]| |[|] n f]; try reflexivity.
  change (fmaxf quant_min_of (S754_finite false n f))
    with (S754_finite false n f).
  change (SFleb quant_min_of (S754_finite false n f)) with true.
  rewrite andb_true_l. unfold fminf, SFleb, SFeqb.
  rewrite (SFcompare_swap (S754_finite false m e) (S754_finite false n f)).
  destruct (SFcompare (S754_finite false m e) (S754_finite false n f))
    as [[| |]|] eqn:E; cbv beta iota delta [CompOpp];
    rewrite ?E, ?SFcompare_finite_same; reflexivity || discriminate E.
Qed.

(** X5: the backward mask is 1 exactly where the clamp of forward is
    idle.  Up to 31 bits, for every input and every [scale] and
    [zero_point], the mask of an element is [float(c == q)], where [q] is
    the quantization point and [c] the clamped level that forward
    dequantizes: the gradient passes where forward did not saturate and
    is blocked where it did, also for a NaN or infinite point. *)
Theorem X5_mask_is_one_where_clamp_is_idle scale zero_point num_bits x u v :
  1 <= num_bits <= 31 ->
  let inv_scale := inv_scale_of scale in
  let quant_max := quant_max_of num_bits in
  let q := quant_point inv_scale zero_point x in
  let c := fminf quant_max (fmaxf quant_min_of q) in
  forward_lambda scale inv_scale zero_point quant_min_of quant_max x u
  = dequantize scale zero_point c
  /\ backward_lambda inv_scale zero_point quant_min_of quant_max x v
     = F32.of_bool (SFeqb c q)
  /\ (SFeqb c q = false -> c = quant_min_of \/ c = quant_max).
Proof.
  intros Hb inv_scale quant_max q c.
  destruct (quant_max_positive num_bits Hb) as (m & e & Hq).
  subst c quant_max. rewrite Hq in *.
  split; [reflexivity|]. split.
  - unfold backward_lambda. fold q. now rewrite in_range_iff_clamp_idle.
  - unfold fminf, fmaxf.
    change (is_nan quant_min_of) with false.
    change (is_nan (S754_finite false m e)) with false.
    destruct (SFcompare quant_min_of q) as [[| |]|] eqn:E1; cbv beta iota;
      try (destruct (SFcompare (S754_finite false m e) quant_min_of)
             as [[| |]|]; now auto).
    destruct (SFcompare (S754_finite false m e) q) as [[| |]|] eqn:E2;
      cbv beta iota; auto.
    unfold SFeqb. rewrite SFcompare_refl; [discriminate|].
    destruct q; try reflexivity. discriminate E2.
Qed.

Lemma X5_mask_is_one_where_clamp_is_idle_witness :
  let q := quant_point (inv_scale_of (f64 1)) 128 (f32 1000) in
  let c := fminf (quant_max_of 8) (fmaxf quant_min_of q) in
  SFeqb c q = false
  /\ backward_lambda (inv_scale_of (f64 1)) 128 quant_min_of (quant_max_of 8)
       (f32 1000) uninit = F32.of_bool (SFeqb c q)
  /\ (c = quant_min_of \/ c = quant_max_of 8).
Proof.
  intros q c.
  assert (Hf : SFeqb c q = false) by (vm_compute; reflexivity).
  pose proof (X5_mask_is_one_where_clamp_is_idle (f64 1) 128 8 (f32 1000)
                uninit uninit ltac:(lia)) as H.
  split; [exact Hf|]. split.
  - exact (proj1 (proj2 H)).
  - exact (proj2 (proj2 H) Hf).
Defined.

(** ** The product of the mask and the gradient *)

(** Multiplying by 1 changes nothing. *)
Lemma F32_mul_one_l y :
  valid_binary F32.prec F32.emax y = true -> F32.mul F32.one y = y.
Proof.
  intros Hv. destruct y as [s|s| |s m e]; try reflexivity.
  change F32.one with (S754_finite false 8388608 (-23)).
  unfold F32.mul, SFmul. simpl xorb.
  replace (Zpos (8388608 * m)) with (Zpos m * 2 ^ 23) by lia.
  replace (-23 + e) with (e - 23) by lia.
  apply binary_round_aux_exact; [exact Hv | lia].
Qed.

(** Multiplying by 0 gives a zero of the sign of the other factor, or a
    NaN when that factor is not finite. *)
Lemma F32_mul_zero_l y :
  F32.mul F32.zero y
  = match y with
    | S754_zero s | S754_finite s _ _ => S754_zero s
    | _ => S754_nan
    end.
Proof. destruct y; reflexivity. Qed.

Lemma nth_error_apply2 op u (a b : list spec_float) i x :
  List.length a = List.length b ->
  nth_error a i = Some x ->
  nth_error (apply2 op a (map (fun _ => u) b)) i = Some (op x u).
Proof.
  intros Hl Hx. rewrite apply2_same_length by assumption.
  rewrite nth_error_map, Hx. reflexivity.
Qed.

(** X6: what backward returns at each position.  Where the mask is 1 the
    result is the gradient [dY[i]] itself, bit for bit; where the mask is
    0 it is a zero with the sign of [dY[i]] when [dY[i]] is finite, and a
    NaN when [dY[i]] is infinite or a NaN: a blocked position does not
    hide a gradient that has overflowed.  The mask is never anything but
    0 or 1. *)
Theorem X6_backward_passes_or_zeroes
    X dY scale zero_point num_bits i x dy :
  numel X = numel dY ->
  nth_error (data X) i = Some x -> nth_error (data dY) i = Some dy ->
  valid_binary F32.prec F32.emax dy = true ->
  let mask := backward_lambda (inv_scale_of scale) zero_point
                quant_min_of (quant_max_of num_bits) x uninit in
  let dx := nth_error (data (backward_active X dY scale zero_point num_bits)) i in
  (mask = F32.one \/ mask = F32.zero)
  /\ (mask = F32.one -> dx = Some dy)
  /\ (mask = F32.zero ->
      dx = Some (match dy with
                 | S754_zero s | S754_finite s _ _ => S754_zero s
                 | _ => S754_nan
                 end)).
Proof.
  intros Hn Hx Hy Hv mask dx.
  assert (Hdx : dx = Some (F32.mul mask dy)).
  { subst dx mask. unfold backward_active, backward_mask. simpl.
    apply nth_error_mul_data; [|assumption].
    apply nth_error_apply2; [unfold numel in Hn; lia | assumption]. }
  split; [|split].
  - subst mask. unfold backward_lambda.
    destruct (SFleb _ _ && SFleb _ _); auto.
  - intros E. rewrite Hdx, E. f_equal. now apply F32_mul_one_l.
  - intros E. rewrite Hdx, E, F32_mul_zero_l. reflexivity.
Qed.

Lemma X6_backward_passes_or_zeroes_witness :
  nth_error (data (backward_active x_mask
                     (cuda_floats [f32 5; f32 (-7); S754_infinity false])
                     (f64 1) 128 8)) 1 = Some (f32 (-7))
  /\ nth_error (data (backward_active x_mask
                        (cuda_floats [f32 5; f32 (-7); S754_infinity false])
                        (f64 1) 128 8)) 2 = Some S754_nan.
Proof.
  split.
  - exact (proj1 (proj2 (X6_backward_passes_or_zeroes x_mask
                           (cuda_floats [f32 5; f32 (-7); S754_infinity false])
                           (f64 1) 128 8 1 (f32 0) (f32 (-7))
                           eq_refl eq_refl eq_refl eq_refl)) eq_refl).
  - exact (proj2 (proj2 (X6_backward_passes_or_zeroes x_mask
                           (cuda_floats [f32 5; f32 (-7); S754_infinity false])
                           (f64 1) 128 8 2 (f32 1000) (S754_infinity false)
                           eq_refl eq_refl eq_refl eq_refl)) eq_refl).
Defined.

(** ** The forward result is a number *)

(** The clamped level is finite whenever [quant_max] is. *)
Lemma clamp_is_finite s m e q :
  is_finite (fminf (S754_finite s m e) (fmaxf quant_min_of q)) = true.
Proof.
  unfold fminf, fmaxf.
  change (is_nan quant_min_of) with false.
  change (is_nan (S754_finite s m e)) with false.
  destruct (SFcompare quant_min_of q) as [[| |]|] eqn:E1; cbv beta iota;
    try (destruct (SFcompare (S754_finite s m e) quant_min_of) as [[| |]|];
         reflexivity).
  destruct (SFcompare (S754_finite s m e) q) as [[| |]|] eqn:E2;
    cbv beta iota; try reflexivity.
  destruct q as [t|[|]| |t n f]; try reflexivity; try discriminate E1.
  destruct s; discriminate E2.
Qed.






(** ** Levels and grid points of a power-of-two grid *)

(** Small non-negative integers are ordered as their conversions. *)
Lemma SFleb_of_int prec emax a b :
  0 < prec -> prec < emax -> 0 <= a < 2 ^ prec -> 0 <= b < 2 ^ prec ->
  SFleb (of_int prec emax a) (of_int prec emax b) = (a <=? b).
Proof.
  intros Hp He Ha Hb.
  rewrite (of_int_small prec emax Hp He a), (of_int_small prec emax Hp He b)
    by lia.
  destruct a as [|n|n], b as [|m|m]; try lia; try reflexivity.
  unfold SFleb.
  destruct (Z.compare_spec (Zpos n) (Zpos m)) as [E|E|E].
  - injection E as ->. unfold dyadic. rewrite SFcompare_finite_refl.
    symmetry. apply Z.leb_le. lia.
  - rewrite (SFcompare_swap (dyadic prec false m 0) (dyadic prec false n 0)).
    rewrite SFcompare_dyadic_gt by lia. simpl.
    symmetry. apply Z.leb_le. lia.
  - rewrite SFcompare_dyadic_gt by lia.
    symmetry. apply Z.leb_gt. lia.
Qed.

(** The quantization point of a grid point is its level. *)
Lemma quant_point_grid_point j zero_point k :
  -100 <= j <= 100 -> 0 <= zero_point < 2 ^ 24 -> 0 <= k < 2 ^ 24 ->
  quant_point (inv_scale_of (pow2_double j)) zero_point
    (dequantize (pow2_double j) zero_point (F32.of_int k))
  = F32.of_int k.
Proof.
  intros Hj Hz Hk. rewrite dequantize_pow2 by lia.
  apply quant_point_pow2; lia.
Qed.

(** A level passes the two tests of the mask when it is at most
    [2^num_bits - 1]. *)
Lemma level_in_window num_bits k :
  1 <= num_bits <= 24 -> 0 <= k < 2 ^ 24 ->
  SFleb quant_min_of (F32.of_int k)
  && SFleb (F32.of_int k) (quant_max_of num_bits)
  = (k <=? spec_quant_max num_bits).
Proof.
  intros Hb Hk.
  assert (Hm : 0 <= spec_quant_max num_bits < 2 ^ 24).
  { unfold spec_quant_max.
    assert (2 ^ 1 <= 2 ^ num_bits <= 2 ^ 24)
      by (split; apply Z.pow_le_mono_r; lia).
    lia. }
  rewrite quant_max_nearest by lia.
  unfold quant_min_of, F32.of_int.
  rewrite !SFleb_of_int by (reflexivity || (change F32.prec with 24; lia)).
  replace (0 <=? k) with true by (symmetry; apply Z.leb_le; lia).
  reflexivity.
Qed.

(** X8: on a grid of step [2^j] levels and grid points correspond
    exactly.  With [-100 <= j <= 100] and [zero_point] below [2^24], the
    quantization point of the grid point [(k - zero_point) * 2^j] is the
    level [k] itself, for every [k] from 0 to [2^24 - 1], in the window
    of the clamp or above it; with at most 24 bits the backward mask at
    that grid point is 1 when [k <= 2^num_bits - 1] and 0 otherwise. *)
Theorem X8_level_of_a_grid_point j zero_point num_bits k u :
  -100 <= j <= 100 -> 1 <= num_bits <= 24 ->
  0 <= zero_point < 2 ^ 24 -> 0 <= k < 2 ^ 24 ->
  let scale := pow2_double j in
  let x := dequantize scale zero_point (F32.of_int k) in
  quant_point (inv_scale_of scale) zero_point x = F32.of_int k
  /\ backward_lambda (inv_scale_of scale) zero_point
       quant_min_of (quant_max_of num_bits) x u
     = F32.of_bool (k <=? spec_quant_max num_bits).
Proof.
  intros Hj Hb Hz Hk scale x. subst scale x. split.
  - now apply quant_point_grid_point.
  - unfold backward_lambda. rewrite quant_point_grid_point by assumption.
    f_equal. now apply level_in_window.
Qed.

Lemma X8_level_of_a_grid_point_witness :
  quant_point (inv_scale_of (pow2_double (-3))) 128
    (dequantize (pow2_double (-3)) 128 (F32.of_int 300))
  = F32.of_int 300
  /\ backward_lambda (inv_scale_of (pow2_double (-3))) 128
       quant_min_of (quant_max_of 8)
       (dequantize (pow2_double (-3)) 128 (F32.of_int 300)) uninit
     = F32.of_bool (300 <=? spec_quant_max 8).
Proof.
  exact (X8_level_of_a_grid_point (-3) 128 8 300 uninit
           ltac:(lia) ltac:(lia) ltac:(lia) ltac:(lia)).
Defined.

(** ** Backward on a tensor of grid points *)

Lemma mul_data_ones (f : spec_float -> spec_float) a :
  forall b,
    List.length a = List.length b ->
    Forall (fun x => f x = F32.one) a ->
    Forall (fun dy => valid_binary F32.prec F32.emax dy = true) b ->
    mul_data (map f a) b = b.
Proof.
  induction a as [|x a IH]; intros [|y b] Hl Ha Hb; simpl in *;
    try discriminate; [reflexivity|].
  inversion Ha as [|? ? Hx Ha']; subst.
  inversion Hb as [|? ? Hy Hb']; subst.
  rewrite Hx, F32_mul_one_l by assumption.
  f_equal. apply IH; auto.
Qed.

(** X9: on a tensor of grid points backward returns the gradient it was
    given.  When [scale] is [2^j], [-100 <= j <= 100], with at most 24
    bits and [zero_point] below [2^24], and every element of [X] is a
    grid point [(k - zero_point) * scale] with [0 <= k <= 2^num_bits - 1],
    the quantizing branch of backward returns [dY] unchanged, bit for
    bit, for every [dY] of valid [float]s: where forward is the identity
    its gradient is the identity too. *)
Theorem X9_backward_is_identity_on_grid
    X dY j zero_point num_bits quant_delay iter :
  is_cuda X = true -> scalar_type X = Float ->
  -100 <= j <= 100 -> 1 <= num_bits <= 24 -> 0 <= zero_point < 2 ^ 24 ->
  quant_delay = 0 \/ 0 <= quant_delay < iter ->
  0 < numel X -> numel X = numel dY ->
  Forall (on_grid (pow2_double j) zero_point num_bits) (data X) ->
  Forall (fun dy => valid_binary F32.prec F32.emax dy = true) (data dY) ->
  FakeQuantizePerTensorAffineOp_backward
    X dY (pow2_double j) zero_point num_bits quant_delay iter
  = mkM [EvZerosLike; EvEmptyLike; EvApply2; EvMul] (inr dY).
Proof.
  intros Hc Ht Hj Hb Hz Hd Hn Hs Hg Hv.
  rewrite backward_quantizes by (assumption || lia).
  f_equal. f_equal. rewrite <- (tensor_eta dY).
  unfold backward_active, backward_mask. simpl. f_equal.
  rewrite apply2_same_length by (unfold numel in Hs; lia).
  apply mul_data_ones; [unfold numel in Hs; lia | | assumption].
  apply Forall_forall. intros x Hx.
  rewrite Forall_forall in Hg. destruct (Hg x Hx) as [k [Hk ->]].
  assert (Hm : spec_quant_max num_bits < 2 ^ 24).
  { unfold spec_quant_max.
    assert (2 ^ num_bits <= 2 ^ 24) by (apply Z.pow_le_mono_r; lia). lia. }
  unfold backward_lambda.
  rewrite quant_point_grid_point, level_in_window by lia.
  replace (k <=? spec_quant_max num_bits) with true
    by (symmetry; apply Z.leb_le; lia).
  reflexivity.
Qed.

Lemma X9_backward_is_identity_on_grid_witness :
  Forall (on_grid (pow2_double (-3)) 128 8) (data x_eighths)
  /\ FakeQuantizePerTensorAffineOp_backward
       x_eighths (cuda_floats [f32 5; f32_ratio (-1) 3])
       (pow2_double (-3)) 128 8 0 0
     = mkM [EvZerosLike; EvEmptyLike; EvApply2; EvMul]
         (inr (cuda_floats [f32 5; f32_ratio (-1) 3])).
Proof.
  assert (Hg : Forall (on_grid (pow2_double (-3)) 128 8) (data x_eighths)).
  { repeat constructor.
    - exists 77. split; [unfold spec_quant_max; lia | reflexivity].
    - exists 255. split; [unfold spec_quant_max; lia | reflexivity]. }
  assert (Hv : Forall (fun dy => valid_binary F32.prec F32.emax dy = true)
                 (data (cuda_floats [f32 5; f32_ratio (-1) 3]))).
  { repeat constructor. }
  split; [exact Hg|].
  exact (X9_backward_is_identity_on_grid
           x_eighths (cuda_floats [f32 5; f32_ratio (-1) 3]) (-3) 128 8 0 0
           eq_refl eq_refl ltac:(lia) ltac:(lia) ltac:(lia)
           (or_introl eq_refl) eq_refl eq_refl Hg Hv).
Defined.

(** ** Shifting a mantissa right *)

Lemma iter_pos_comm {A} (f : A -> A) p :
  forall x, iter_pos f p (f x) = f (iter_pos f p x).
Proof.
  induction p as [p IH|p IH|]; intros x; simpl; [|now rewrite !IH|reflexivity].
  now rewrite !IH.
Qed.

Lemma iter_pos_succ {A} (f : A -> A) p :
  forall x, iter_pos f (Pos.succ p) x = f (iter_pos f p x).
Proof.
  induction p as [p IH|p IH|]; intros x; simpl.
  - rewrite !IH. now rewrite !iter_pos_comm.
  - now rewrite !iter_pos_comm.
  - reflexivity.
Qed.

Lemma pow2_split k : 1 <= k -> 2 ^ k = 2 * 2 ^ (k - 1).
Proof.
  intros H. rewrite <- Z.pow_succ_r by lia. f_equal. lia.
Qed.

Lemma shr_1_first m0 :
  0 <= m0 -> shifted m0 1 (shr_1 (Build_shr_record m0 false false)).
Proof.
  intros H. exists 0.
  destruct m0 as [|[p|p|]|p]; try lia; simpl;
    repeat split; try lia; discriminate.
Qed.

Lemma shr_1_next m0 k mrs :
  1 <= k -> shifted m0 k mrs -> shifted m0 (k + 1) (shr_1 mrs).
Proof.
  intros Hk (t & Hm & Ht0 & Ht & Hs & Hpos).
  destruct mrs as [m r s]. cbn [shr_m shr_r shr_s] in *.
  assert (Hp : 0 < 2 ^ (k - 1)) by (apply Z.pow_pos_nonneg; lia).
  pose proof (pow2_split k Hk) as Hk2.
  pose proof (pow2_split (k + 1) ltac:(lia)) as Hk3.
  replace (k + 1 - 1) with k in Hk3 by lia.
  exists ((if r then 2 ^ (k - 1) else 0) + t).
  assert (Hor : (r || s = true) <-> 0 < (if r then 2 ^ (k - 1) else 0) + t).
  { destruct r; cbn [orb]; [split; [lia|reflexivity]|].
    rewrite Hs. lia. }
  replace (k + 1 - 1) with k by lia.
  destruct m as [|[p|p|]|p]; try lia; cbn [shr_1 shr_m shr_r shr_s];
    (split; [|split; [|split; [|split]]]);
    try exact Hor; try (destruct r; lia).
Qed.

Lemma iter_shr_1_shifted m0 p :
  0 <= m0 ->
  shifted m0 (Zpos p) (iter_pos shr_1 p (Build_shr_record m0 false false)).
Proof.
  intros H. induction p as [|p IH] using Pos.peano_ind.
  - now apply shr_1_first.
  - rewrite iter_pos_succ, Pos2Z.inj_succ.
    apply shr_1_next; [lia | exact IH].
Qed.

(** What rounding to nearest even makes of the shifted mantissa. *)
Lemma round_shifted m0 k mrs :
  1 <= k -> shifted m0 k mrs ->
  round_nearest_even (shr_m mrs) (loc_of_shr_record mrs) = rne m0 k.
Proof.
  intros Hk (t & Hm & Ht0 & Ht & Hs & Hpos).
  destruct mrs as [m r s]. cbn [shr_m shr_r shr_s] in *.
  assert (Hp : 0 < 2 ^ (k - 1)) by (apply Z.pow_pos_nonneg; lia).
  pose proof (pow2_split k Hk) as Hk2.
  set (rem := (if r then 2 ^ (k - 1) else 0) + t).
  assert (Hrem : 0 <= rem < 2 ^ k) by (unfold rem; destruct r; lia).
  assert (Hq : m0 / 2 ^ k = m).
  { symmetry. apply (Z.div_unique m0 (2 ^ k) m rem); [lia|]. unfold rem. lia. }
  assert (Hr : m0 mod 2 ^ k = rem).
  { symmetry. apply (Z.mod_unique m0 (2 ^ k) m rem); [lia|]. unfold rem. lia. }
  unfold rne. rewrite Hq, Hr. unfold rem.
  destruct r, s; cbn [loc_of_shr_record round_nearest_even].
  - assert (0 < t) by (apply Hs; reflexivity).
    assert (E : (2 * (2 ^ (k - 1) + t) ?= 2 ^ k) = Gt)
      by (apply Z.compare_gt_iff; lia).
    now rewrite E.
  - assert (t = 0).
    { destruct (Z.eq_dec t 0); [assumption|].
      assert (false = true) by (apply Hs; lia). discriminate. }
    subst t.
    assert (E : (2 * (2 ^ (k - 1) + 0) ?= 2 ^ k) = Eq)
      by (apply Z.compare_eq_iff; lia).
    now rewrite E.
  - assert (E : (2 * (0 + t) ?= 2 ^ k) = Lt)
      by (apply Z.compare_lt_iff; lia).
    now rewrite E.
  - assert (E : (2 * (0 + t) ?= 2 ^ k) = Lt)
      by (apply Z.compare_lt_iff; lia).
    now rewrite E.
Qed.

(** A shift by [fexp] and the rounding that follows. *)
Lemma shr_round m e p :
  0 <= m -> 0 <= p ->
  let mrs := fst (shr (Build_shr_record m false false) e p) in
  round_nearest_even (shr_m mrs) (loc_of_shr_record mrs) = rne m p
  /\ snd (shr (Build_shr_record m false false) e p) = e + p.
Proof.
  intros Hm Hp. destruct p as [|p|p]; try lia; simpl.
  - split; [|lia]. unfold rne. rewrite Z.pow_0_r, Z.mod_1_r, Z.div_1_r.
    reflexivity.
  - split; [|reflexivity].
    apply round_shifted; [lia|]. now apply iter_shr_1_shifted.
Qed.

(** ** Rounding to nearest even on integers *)

Lemma rne_bounds m p :
  0 <= p ->
  (2 * rne m p - 1) * 2 ^ p <= 2 * m <= (2 * rne m p + 1) * 2 ^ p.
Proof.
  intros Hp. unfold rne.
  assert (H2 : 0 < 2 ^ p) by (apply Z.pow_pos_nonneg; lia).
  pose proof (Z.div_mod m (2 ^ p) ltac:(lia)) as Hd.
  pose proof (Z.mod_pos_bound m (2 ^ p) H2) as Hr.
  destruct (Z.compare_spec (2 * (m mod 2 ^ p)) (2 ^ p)) as [E|E|E];
    try destruct (Z.even (m / 2 ^ p)); nia.
Qed.

(** A halfway case is rounded to an even integer. *)
Lemma rne_tie_even m p :
  0 <= p ->
  2 * m = (2 * rne m p - 1) * 2 ^ p \/ 2 * m = (2 * rne m p + 1) * 2 ^ p ->
  Z.even (rne m p) = true.
Proof.
  intros Hp. unfold rne.
  assert (H2 : 0 < 2 ^ p) by (apply Z.pow_pos_nonneg; lia).
  pose proof (Z.div_mod m (2 ^ p) ltac:(lia)) as Hd.
  pose proof (Z.mod_pos_bound m (2 ^ p) H2) as Hr.
  destruct (Z.compare_spec (2 * (m mod 2 ^ p)) (2 ^ p)) as [E|E|E].
  - destruct (Z.even (m / 2 ^ p)) eqn:Ev; [auto|].
    intros _. rewrite Z.even_add, Ev. reflexivity.
  - intros [H|H]; exfalso; nia.
  - intros [H|H]; exfalso; nia.
Qed.

Lemma rne_mono m1 m2 p :
  0 <= p -> m1 <= m2 -> rne m1 p <= rne m2 p.
Proof.
  intros Hp Hm.
  assert (H2 : 0 < 2 ^ p) by (apply Z.pow_pos_nonneg; lia).
  pose proof (rne_bounds m1 p Hp) as B1.
  pose proof (rne_bounds m2 p Hp) as B2.
  destruct (Z.le_gt_cases (rne m1 p) (rne m2 p)) as [|Hgt]; [assumption|].
  exfalso.
  assert (Hn : rne m1 p = rne m2 p + 1) by nia.
  assert (T1 : 2 * m1 = (2 * rne m1 p - 1) * 2 ^ p) by nia.
  assert (T2 : 2 * m2 = (2 * rne m2 p + 1) * 2 ^ p) by nia.
  pose proof (rne_tie_even m1 p Hp (or_introl T1)) as E1.
  pose proof (rne_tie_even m2 p Hp (or_intror T2)) as E2.
  rewrite Hn, Z.even_add, E2 in E1. discriminate.
Qed.

(** Appending zero bits and shifting them out again changes nothing. *)
Lemma rne_scale m p u :
  0 <= p -> 0 <= u -> rne (m * 2 ^ u) (p + u) = rne m p.
Proof.
  intros Hp Hu.
  assert (H2 : 0 < 2 ^ p) by (apply Z.pow_pos_nonneg; lia).
  assert (H3 : 0 < 2 ^ u) by (apply Z.pow_pos_nonneg; lia).
  unfold rne. rewrite Z.pow_add_r by lia.
  rewrite Z.div_mul_cancel_r by lia.
  rewrite Z.mul_mod_distr_r by lia.
  replace (2 * (m mod 2 ^ p * 2 ^ u) ?= 2 ^ p * 2 ^ u)
    with (2 * (m mod 2 ^ p) ?= 2 ^ p); [reflexivity|].
  destruct (Z.compare_spec (2 * (m mod 2 ^ p)) (2 ^ p)) as [E|E|E];
    symmetry; [apply Z.compare_eq_iff | apply Z.compare_lt_iff
               | apply Z.compare_gt_iff]; nia.
Qed.

(** Rounding an integer multiple of the step is exact. *)
Lemma rne_exact n p : 0 <= p -> rne (n * 2 ^ p) p = n.
Proof.
  intros Hp. replace p with (0 + p) at 2 by lia.
  rewrite rne_scale by lia.
  unfold rne. rewrite Z.pow_0_r, Z.mod_1_r, Z.div_1_r. reflexivity.
Qed.

Lemma rne_le_pow m p a :
  0 <= p -> 0 <= a -> m <= 2 ^ (p + a) -> rne m p <= 2 ^ a.
Proof.
  intros Hp Ha Hm. rewrite <- (rne_exact (2 ^ a) p Hp).
  apply rne_mono; [assumption|]. rewrite <- Z.pow_add_r by lia.
  now rewrite Z.add_comm.
Qed.

Lemma rne_ge_pow m p a :
  0 <= p -> 0 <= a -> 2 ^ (p + a) <= m -> 2 ^ a <= rne m p.
Proof.
  intros Hp Ha Hm. rewrite <- (rne_exact (2 ^ a) p Hp) at 1.
  apply rne_mono; [assumption|]. rewrite <- Z.pow_add_r by lia.
  now rewrite Z.add_comm.
Qed.

Lemma rne_nonneg m p : 0 <= p -> 0 <= m -> 0 <= rne m p.
Proof.
  intros Hp Hm. rewrite <- (rne_exact 0 p Hp).
  apply rne_mono; lia.
Qed.

Lemma is_number_iff prec emax x :
  is_number prec emax x = true
  <-> valid_binary prec emax x = true /\ is_nan x = false.
Proof.
  unfold is_number. rewrite andb_true_iff, negb_true_iff. reflexivity.
Qed.


(** ** What [binary_round_aux] computes *)

Section Round.

Variables prec emax : Z.
Hypothesis Hprec : 0 < prec.
Hypothesis Hemax : prec < emax.

Local Abbreviation fexp := (fexp prec emax).
Local Abbreviation emin := (emin prec emax).

Lemma fexp_ge_emin L : emin <= fexp L.
Proof using Hprec Hemax. unfold SpecFloat.fexp. lia. Qed.

Lemma fexp_mono L1 L2 : L1 <= L2 -> fexp L1 <= fexp L2.
Proof using Hprec Hemax. unfold SpecFloat.fexp. lia. Qed.

Lemma Zdigits2_bounds m :
  0 < m -> 2 ^ (Zdigits2 m - 1) <= m < 2 ^ Zdigits2 m.
Proof using Hprec Hemax.
  intros H. destruct m as [|p|p]; try lia. apply digits2_pos_bounds.
Qed.

Lemma Zdigits2_pos m : 0 < m -> 0 < Zdigits2 m.
Proof using Hprec Hemax. intros H. destruct m; try lia. reflexivity. Qed.

Lemma Zdigits2_le_prec n : 0 < n < 2 ^ prec -> Zdigits2 n <= prec.
Proof using Hprec Hemax.
  intros H. destruct n as [|p|p]; try lia.
  apply (digits_le_prec prec Hprec). lia.
Qed.

Lemma Zdigits2_ge_prec n : 2 ^ (prec - 1) <= n -> prec <= Zdigits2 n.
Proof using Hprec Hemax.
  intros H.
  assert (0 < 2 ^ (prec - 1)) by (apply Z.pow_pos_nonneg; lia).
  pose proof (Zdigits2_bounds n ltac:(lia)) as Hb.
  destruct (Z.le_gt_cases prec (Zdigits2 n)) as [|Hlt]; [assumption|].
  assert (2 ^ Zdigits2 n <= 2 ^ (prec - 1))
    by (apply Z.pow_le_mono_r; lia).
  lia.
Qed.

(** The rounded mantissa has at most [prec] digits, or is [2^prec]. *)
Lemma grid_mantissa_le m e :
  0 < m -> e <= fexp (Zdigits2 m + e) ->
  0 <= grid_mantissa prec emax m e <= 2 ^ prec.
Proof using Hprec Hemax.
  intros Hm He. unfold grid_mantissa.
  set (E := fexp (Zdigits2 m + e)) in *.
  replace (e <=? E) with true by (symmetry; apply Z.leb_le; lia).
  split; [apply rne_nonneg; lia|].
  apply rne_le_pow; try lia.
  pose proof (Zdigits2_bounds m Hm) as Hb.
  assert (2 ^ Zdigits2 m <= 2 ^ (E - e + prec)).
  { apply Z.pow_le_mono_r; [lia|]. unfold E, SpecFloat.fexp. lia. }
  lia.
Qed.

(** Above the smallest binade the rounded mantissa has [prec] digits. *)
Lemma grid_mantissa_ge m e :
  0 < m -> e <= fexp (Zdigits2 m + e) -> emin < fexp (Zdigits2 m + e) ->
  2 ^ (prec - 1) <= grid_mantissa prec emax m e.
Proof using Hprec Hemax.
  intros Hm He Hn. unfold grid_mantissa.
  set (E := fexp (Zdigits2 m + e)) in *.
  replace (e <=? E) with true by (symmetry; apply Z.leb_le; lia).
  apply rne_ge_pow; try lia.
  pose proof (Zdigits2_bounds m Hm) as Hb.
  replace (E - e + (prec - 1)) with (Zdigits2 m - 1); [lia|].
  unfold E, SpecFloat.fexp in *. lia.
Qed.

Lemma shr_none mrs e n : n <= 0 -> shr mrs e n = (mrs, e).
Proof using Hprec Hemax. intros H. destruct n; try lia; reflexivity. Qed.

(** [binary_round_aux] rounds the mantissa to the grid of the binade and
    packs the result. *)
Lemma binary_round_aux_rounded s m e :
  0 < m -> e <= fexp (Zdigits2 m + e) ->
  binary_round_aux prec emax s m e loc_Exact = rounded prec emax s m e.
Proof using Hprec Hemax.
  intros Hm He.
  pose proof (grid_mantissa_le m e Hm He) as Hn.
  unfold rounded. unfold grid_mantissa in *.
  set (E := fexp (Zdigits2 m + e)) in *.
  replace (e <=? E) with true in * by (symmetry; apply Z.leb_le; lia).
  set (n := rne m (E - e)) in *.
  assert (HE : emin <= E) by apply fexp_ge_emin.
  unfold binary_round_aux, shr_fexp. fold E.
  change (shr_record_of_loc m loc_Exact) with (Build_shr_record m false false).
  destruct (shr_round m e (E - e) ltac:(lia) ltac:(lia)) as [Hr Hs].
  destruct (shr (Build_shr_record m false false) e (E - e)) as [mrs' e'].
  cbn [fst snd] in Hr, Hs. rewrite Hr. fold n. subst e'.
  replace (e + (E - e)) with E by lia.
  change (shr_record_of_loc n loc_Exact) with (Build_shr_record n false false).
  unfold pack.
  destruct (Z.eqb_spec n (2 ^ prec)) as [E2|E2].
  - (* a carry: one more shift *)
    assert (Hd : Zdigits2 n = prec + 1).
    { apply Zdigits2_unique; [|rewrite E2; apply Z.pow_pos_nonneg; lia].
      rewrite E2. replace (prec + 1 - 1) with prec by lia.
      split; [lia|]. apply Z.pow_lt_mono_r; lia. }
    rewrite Hd.
    replace (fexp (prec + 1 + E) - E) with 1
      by (unfold SpecFloat.fexp; lia).
    assert (Hh : n = 2 * 2 ^ (prec - 1)).
    { rewrite E2. apply pow2_split. lia. }
    assert (Hp : 0 < 2 ^ (prec - 1)) by (apply Z.pow_pos_nonneg; lia).
    unfold shr. change (iter_pos shr_1 1 ?x) with (shr_1 x).
    rewrite Hh, shr_1_double by assumption. cbn [shr_m].
    destruct n as [|q|q]; try lia.
    destruct (2 ^ (prec - 1)) as [|h|h] eqn:Eh; try lia.
    reflexivity.
  - destruct n as [|q|q]; try lia.
    + rewrite shr_none by (cbn [Zdigits2]; unfold SpecFloat.fexp; lia).
      reflexivity.
    + pose proof (Zdigits2_le_prec (Zpos q) ltac:(lia)) as Hd.
      rewrite shr_none by (unfold SpecFloat.fexp; lia).
      reflexivity.
Qed.


(** The mantissa on the grid, computed from any lower exponent [B]. *)
Lemma grid_mantissa_base m e B :
  0 < m -> B <= e -> B <= fexp (Zdigits2 m + e) ->
  grid_mantissa prec emax m e
  = rne (m * 2 ^ (e - B)) (fexp (Zdigits2 m + e) - B).
Proof using Hprec Hemax.
  intros Hm HB HE. unfold grid_mantissa.
  set (E := fexp (Zdigits2 m + e)) in *.
  destruct (Z.leb_spec e E) as [Hle|Hgt].
  - replace (E - B) with (E - e + (e - B)) by lia.
    now rewrite rne_scale by lia.
  - replace (e - B) with (e - E + (E - B)) by lia.
    rewrite Z.pow_add_r, Z.mul_assoc by lia.
    now rewrite rne_exact by lia.
Qed.

Lemma scaled_bounds m e B :
  0 < m -> B <= e ->
  2 ^ (Zdigits2 m + e - B - 1) <= m * 2 ^ (e - B) < 2 ^ (Zdigits2 m + e - B).
Proof using Hprec Hemax.
  intros Hm HB. pose proof (Zdigits2_bounds m Hm) as Hb.
  pose proof (Zdigits2_pos m Hm) as Hd.
  assert (0 < 2 ^ (e - B)) by (apply Z.pow_pos_nonneg; lia).
  replace (Zdigits2 m + e - B - 1) with (Zdigits2 m - 1 + (e - B)) by lia.
  replace (Zdigits2 m + e - B) with (Zdigits2 m + (e - B)) by lia.
  rewrite !Z.pow_add_r by lia. nia.
Qed.

Lemma grid_mantissa_bounds m e :
  0 < m ->
  0 <= grid_mantissa prec emax m e <= 2 ^ prec
  /\ (emin < fexp (Zdigits2 m + e) ->
      2 ^ (prec - 1) <= grid_mantissa prec emax m e).
Proof using Hprec Hemax.
  intros Hm.
  set (E := fexp (Zdigits2 m + e)).
  set (B := Z.min e E).
  rewrite (grid_mantissa_base m e B) by (unfold B, E; lia). fold E.
  pose proof (scaled_bounds m e B Hm ltac:(unfold B; lia)) as Hs.
  assert (Hp : 0 < 2 ^ (e - B)) by (apply Z.pow_pos_nonneg; unfold B; lia).
  split; [split|].
  - apply rne_nonneg; [unfold B; lia | nia].
  - apply rne_le_pow; try (unfold B; lia).
    assert (2 ^ (Zdigits2 m + e - B) <= 2 ^ (E - B + prec)).
    { apply Z.pow_le_mono_r; [lia|]. unfold E, SpecFloat.fexp. lia. }
    lia.
  - intros Hn. apply rne_ge_pow; try (unfold B; lia).
    replace (E - B + (prec - 1)) with (Zdigits2 m + e - B - 1); [lia|].
    unfold E, SpecFloat.fexp in *. lia.
Qed.

(** [binary_round] is [rounded], whatever the exponent. *)
Lemma binary_round_rounded s m e :
  binary_round prec emax s m e = rounded prec emax s (Zpos m) e.
Proof using Hprec Hemax.
  unfold binary_round, shl_align.
  change (Zpos (digits2_pos m)) with (Zdigits2 (Zpos m)).
  set (E := fexp (Zdigits2 (Zpos m) + e)).
  destruct (E - e) as [|d|d] eqn:Ed.
  - apply binary_round_aux_rounded; [lia | fold E; lia].
  - apply binary_round_aux_rounded; [lia | fold E; lia].
  - rewrite Pos_iter_xO.
    assert (Hp : 0 < 2 ^ Zpos d) by (apply Z.pow_pos_nonneg; lia).
    assert (Hd : Zdigits2 (Zpos m * 2 ^ Zpos d) + E = Zdigits2 (Zpos m) + e).
    { rewrite Zdigits2_mul_pow2 by lia. lia. }
    rewrite binary_round_aux_rounded; [|nia|rewrite Hd; fold E; lia].
    unfold rounded, grid_mantissa. rewrite Hd. fold E.
    replace (E <=? E) with true by (symmetry; apply Z.leb_le; lia).
    replace (e <=? E) with false by (symmetry; apply Z.leb_gt; lia).
    rewrite Z.sub_diag. unfold rne.
    rewrite Z.pow_0_r, Z.mod_1_r, Z.div_1_r. cbn [Z.mul Z.compare].
    replace (e - E) with (Zpos d) by lia. reflexivity.
Qed.

Lemma binary_normalize_rounded m e sz :
  binary_normalize prec emax m e sz
  = match m with
    | Z0 => S754_zero sz
    | Zpos _ => rounded prec emax false m e
    | Zneg p => rounded prec emax true (Zpos p) e
    end.
Proof using Hprec Hemax.
  destruct m; [reflexivity| |]; apply binary_round_rounded.
Qed.

(** The rounded number is a number of the format. *)
Lemma rounded_valid s m e :
  0 < m -> valid_binary prec emax (rounded prec emax s m e) = true.
Proof using Hprec Hemax.
  intros Hm. unfold rounded, pack.
  destruct (grid_mantissa_bounds m e Hm) as [Hn Hg].
  set (E := fexp (Zdigits2 m + e)) in *.
  set (n := grid_mantissa prec emax m e) in *.
  assert (HE : emin <= E) by apply fexp_ge_emin.
  assert (Hp : 0 < 2 ^ (prec - 1)) by (apply Z.pow_pos_nonneg; lia).
  destruct n as [|q|q] eqn:En; try lia; [reflexivity|].
  destruct (Z.eqb_spec (Zpos q) (2 ^ prec)) as [E2|E2].
  - destruct (Z.leb_spec (E + 1) (emax - prec)) as [Ho|Ho]; [|reflexivity].
    unfold valid_binary, bounded, canonical_mantissa.
    apply andb_true_iff. split; [|apply Z.leb_le; lia].
    apply Z.eqb_eq.
    change (Zpos (digits2_pos (Z.to_pos (2 ^ (prec - 1)))))
      with (Zdigits2 (Zpos (Z.to_pos (2 ^ (prec - 1))))).
    rewrite Z2Pos.id by lia.
    rewrite (Zdigits2_unique (2 ^ (prec - 1)) prec); [|split; [lia|]|lia].
    + unfold SpecFloat.fexp. lia.
    + apply Z.pow_lt_mono_r; lia.
  - destruct (Z.leb_spec E (emax - prec)) as [Ho|Ho]; [|reflexivity].
    unfold valid_binary, bounded, canonical_mantissa.
    apply andb_true_iff. split; [|apply Z.leb_le; lia].
    apply Z.eqb_eq.
    change (Zpos (digits2_pos q)) with (Zdigits2 (Zpos q)).
    pose proof (Zdigits2_le_prec (Zpos q) ltac:(lia)) as Hd.
    destruct (Z.eq_dec E emin) as [Ee|Ee].
    + unfold SpecFloat.fexp. lia.
    + pose proof (Zdigits2_ge_prec (Zpos q) (Hg ltac:(lia))) as Hd2.
      unfold SpecFloat.fexp. lia.
Qed.

Lemma rounded_not_nan s m e :
  0 < m -> is_nan (rounded prec emax s m e) = false.
Proof using Hprec Hemax.
  intros Hm. unfold rounded, pack.
  destruct (grid_mantissa_bounds m e Hm) as [Hn _].
  destruct (grid_mantissa prec emax m e) as [|q|q]; try lia; [reflexivity|].
  destruct (Zpos q =? 2 ^ prec);
    [destruct (_ + 1 <=? _) | destruct (_ <=? _)]; reflexivity.
Qed.

(** Its place on the grid of step [2^emin]. *)
Lemma rounded_ord s m e :
  0 < m ->
  ord prec emax (rounded prec emax s m e)
  = cond_Zopp s (round_ord prec emax m e).
Proof using Hprec Hemax.
  intros Hm. unfold rounded, pack, round_ord.
  destruct (grid_mantissa_bounds m e Hm) as [Hn Hg].
  set (E := fexp (Zdigits2 m + e)) in *.
  set (n := grid_mantissa prec emax m e) in *.
  assert (HE : emin <= E) by apply fexp_ge_emin.
  assert (Hmin : emin <= emax - prec) by (unfold SpecFloat.emin; lia).
  assert (Hp : 0 < 2 ^ (prec - 1)) by (apply Z.pow_pos_nonneg; lia).
  assert (Hp2 : 2 ^ prec = 2 * 2 ^ (prec - 1)) by (apply pow2_split; lia).
  assert (HpE : 0 < 2 ^ (E - emin)) by (apply Z.pow_pos_nonneg; lia).
  assert (Hcap : 2 ^ (emax - emin) = 2 ^ prec * 2 ^ (emax - prec - emin)).
  { rewrite <- Z.pow_add_r by lia. f_equal. lia. }
  destruct n as [|q|q] eqn:En; try lia.
  - cbn [ord]. rewrite Z.mul_0_l, Z.min_l; [destruct s; reflexivity|].
    apply Z.pow_nonneg. lia.
  - destruct (Z.eqb_spec (Zpos q) (2 ^ prec)) as [E2|E2].
    + destruct (Z.leb_spec (E + 1) (emax - prec)) as [Ho|Ho]; cbn [ord].
      * rewrite Z2Pos.id by lia. f_equal.
        assert (2 ^ (E - emin) <= 2 ^ (emax - prec - emin))
          by (apply Z.pow_le_mono_r; lia).
        rewrite Z.min_l by (rewrite Hcap, E2; nia).
        rewrite E2, Hp2.
        replace (E + 1 - emin) with (1 + (E - emin)) by lia.
        rewrite Z.pow_add_r by lia. change (2 ^ 1) with 2. ring.
      * f_equal.
        assert (2 ^ (emax - prec - emin) <= 2 ^ (E - emin))
          by (apply Z.pow_le_mono_r; lia).
        rewrite Z.min_r by (rewrite Hcap, E2; nia). reflexivity.
    + destruct (Z.leb_spec E (emax - prec)) as [Ho|Ho]; cbn [ord].
      * f_equal.
        assert (2 ^ (E - emin) <= 2 ^ (emax - prec - emin))
          by (apply Z.pow_le_mono_r; lia).
        rewrite Z.min_l by (rewrite Hcap; nia). reflexivity.
      * f_equal.
        assert (2 * 2 ^ (emax - prec - emin) <= 2 ^ (E - emin)).
        { replace (E - emin) with (1 + (E - 1 - emin)) by lia.
          rewrite Z.pow_add_r by lia. change (2 ^ 1) with 2.
          assert (2 ^ (emax - prec - emin) <= 2 ^ (E - 1 - emin))
            by (apply Z.pow_le_mono_r; lia).
          lia. }
        pose proof (Hg ltac:(lia)) as Hg'.
        rewrite Z.min_r by (rewrite Hcap, Hp2; nia). reflexivity.
Qed.

(** ** Rounding keeps the order *)
(** The larger number has the larger magnitude. *)
Lemma magnitude_mono m1 e1 m2 e2 B :
  0 < m1 -> 0 < m2 -> B <= e1 -> B <= e2 ->
  m1 * 2 ^ (e1 - B) <= m2 * 2 ^ (e2 - B) ->
  Zdigits2 m1 + e1 <= Zdigits2 m2 + e2.
Proof using Hprec Hemax.
  intros H1 H2 B1 B2 Hle.
  pose proof (scaled_bounds m1 e1 B H1 B1) as S1.
  pose proof (scaled_bounds m2 e2 B H2 B2) as S2.
  pose proof (Zdigits2_pos m1 H1). pose proof (Zdigits2_pos m2 H2).
  destruct (Z.le_gt_cases (Zdigits2 m1 + e1) (Zdigits2 m2 + e2)) as [|Hgt];
    [assumption|].
  assert (2 ^ (Zdigits2 m2 + e2 - B) <= 2 ^ (Zdigits2 m1 + e1 - B - 1))
    by (apply Z.pow_le_mono_r; lia).
  lia.
Qed.

Lemma round_ord_nonneg m e : 0 < m -> 0 <= round_ord prec emax m e.
Proof using Hprec Hemax.
  intros Hm. unfold round_ord.
  destruct (grid_mantissa_bounds m e Hm) as [Hn _].
  pose proof (fexp_ge_emin (Zdigits2 m + e)).
  assert (0 <= 2 ^ (fexp (Zdigits2 m + e) - emin)) by (apply Z.pow_nonneg; lia).
  assert (0 <= 2 ^ (emax - emin)) by (apply Z.pow_nonneg; lia).
  apply Z.min_glb; [nia | assumption].
Qed.

(** Rounding to nearest even is monotone: of two positive numbers the
    larger is rounded to the larger place. *)
Lemma round_ord_mono m1 e1 m2 e2 B :
  0 < m1 -> 0 < m2 -> B <= e1 -> B <= e2 ->
  m1 * 2 ^ (e1 - B) <= m2 * 2 ^ (e2 - B) ->
  round_ord prec emax m1 e1 <= round_ord prec emax m2 e2.
Proof using Hprec Hemax.
  intros H1 H2 B1 B2 Hle.
  pose proof (magnitude_mono m1 e1 m2 e2 B H1 H2 B1 B2 Hle) as HL.
  unfold round_ord.
  set (E1 := fexp (Zdigits2 m1 + e1)).
  set (E2 := fexp (Zdigits2 m2 + e2)).
  assert (HE : E1 <= E2) by (apply fexp_mono; exact HL).
  assert (Hm1 : emin <= E1) by apply fexp_ge_emin.
  apply Z.min_le_compat_r.
  set (B' := Z.min B emin).
  assert (HB' : 0 < 2 ^ (B - B')) by (apply Z.pow_pos_nonneg; unfold B'; lia).
  assert (Hle' : m1 * 2 ^ (e1 - B') <= m2 * 2 ^ (e2 - B')).
  { replace (e1 - B') with (e1 - B + (B - B')) by lia.
    replace (e2 - B') with (e2 - B + (B - B')) by lia.
    rewrite !Z.pow_add_r, !Z.mul_assoc by (unfold B'; lia).
    apply Z.mul_le_mono_nonneg_r; lia. }
  rewrite (grid_mantissa_base m1 e1 B') by (unfold B'; fold E1; lia).
  rewrite (grid_mantissa_base m2 e2 B') by (unfold B'; fold E2; lia).
  fold E1 E2.
  destruct (Z.eq_dec E1 E2) as [Ee|Ene].
  - rewrite Ee.
    assert (0 < 2 ^ (E2 - emin)) by (apply Z.pow_pos_nonneg; lia).
    apply Z.mul_le_mono_nonneg_r; [lia|].
    apply rne_mono; [unfold B'; lia | exact Hle'].
  - destruct (grid_mantissa_bounds m1 e1 H1) as [[_ Hn1] _].
    destruct (grid_mantissa_bounds m2 e2 H2) as [_ Hn2].
    fold E2 in Hn2. specialize (Hn2 ltac:(lia)).
    rewrite (grid_mantissa_base m1 e1 B') in Hn1
      by (unfold B'; fold E1; lia).
    rewrite (grid_mantissa_base m2 e2 B') in Hn2
      by (unfold B'; fold E2; lia).
    fold E1 in Hn1. fold E2 in Hn2.
    assert (Hp1 : 0 < 2 ^ (E1 - emin)) by (apply Z.pow_pos_nonneg; lia).
    assert (Hp : 0 < 2 ^ (prec - 1)) by (apply Z.pow_pos_nonneg; lia).
    assert (Hp2 : 2 ^ prec = 2 * 2 ^ (prec - 1)) by (apply pow2_split; lia).
    assert (Hs : 2 * 2 ^ (E1 - emin) <= 2 ^ (E2 - emin)).
    { rewrite <- Z.pow_succ_r by lia. apply Z.pow_le_mono_r; lia. }
    nia.
Qed.

Lemma sround_ord_mono m1 e1 m2 e2 B :
  B <= e1 -> B <= e2 ->
  m1 * 2 ^ (e1 - B) <= m2 * 2 ^ (e2 - B) ->
  sround_ord prec emax m1 e1 <= sround_ord prec emax m2 e2.
Proof using Hprec Hemax.
  intros B1 B2 Hle.
  assert (P1 : 0 < 2 ^ (e1 - B)) by (apply Z.pow_pos_nonneg; lia).
  assert (P2 : 0 < 2 ^ (e2 - B)) by (apply Z.pow_pos_nonneg; lia).
  destruct m1 as [|p1|p1], m2 as [|p2|p2]; cbn [sround_ord];
    try lia; try (exfalso; nia).
  - apply round_ord_nonneg. lia.
  - apply (round_ord_mono _ _ _ _ B); lia.
  - pose proof (round_ord_nonneg (- Zneg p1) e1). lia.
  - pose proof (round_ord_nonneg (- Zneg p1) e1).
    pose proof (round_ord_nonneg (Zpos p2) e2). lia.
  - apply Z.opp_le_mono. rewrite !Z.opp_involutive.
    apply (round_ord_mono _ _ _ _ B); lia.
Qed.

(** The place of a rounded integer. *)
Lemma binary_normalize_ord m e sz :
  ord prec emax (binary_normalize prec emax m e sz) = sround_ord prec emax m e.
Proof using Hprec Hemax.
  rewrite binary_normalize_rounded by assumption.
  destruct m as [|p|p]; [reflexivity| |].
  - now rewrite rounded_ord by (assumption || lia).
  - now rewrite rounded_ord by (assumption || lia).
Qed.

Lemma binary_normalize_valid m e sz :
  valid_binary prec emax (binary_normalize prec emax m e sz) = true.
Proof using Hprec Hemax.
  rewrite binary_normalize_rounded by assumption.
  destruct m as [|p|p]; [reflexivity| |];
    apply rounded_valid; assumption || lia.
Qed.

(** ** The order of the format and the places on the grid *)

Lemma bounded_facts m e :
  bounded prec emax m e = true ->
  emin <= e <= emax - prec
  /\ Zpos m < 2 ^ prec
  /\ (emin < e -> 2 ^ (prec - 1) <= Zpos m).
Proof using Hprec Hemax.
  unfold bounded, canonical_mantissa. intros H.
  apply andb_true_iff in H. destruct H as [Hc Hb].
  apply Z.eqb_eq in Hc. apply Z.leb_le in Hb.
  pose proof (digits2_pos_bounds m) as Hd.
  pose proof (Pos2Z.is_pos (digits2_pos m)).
  unfold SpecFloat.fexp in Hc.
  split; [lia|]. split.
  - assert (2 ^ Zpos (digits2_pos m) <= 2 ^ prec)
      by (apply Z.pow_le_mono_r; lia).
    lia.
  - intros He. replace (prec - 1) with (Zpos (digits2_pos m) - 1) by lia.
    lia.
Qed.

Lemma ord_finite_bound m e :
  bounded prec emax m e = true ->
  0 < Zpos m * 2 ^ (e - emin) < 2 ^ (emax - emin).
Proof using Hprec Hemax.
  intros H. destruct (bounded_facts m e H) as (He & Hm & _).
  assert (0 < 2 ^ (e - emin)) by (apply Z.pow_pos_nonneg; lia).
  split; [nia|].
  assert (2 ^ (e - emin) <= 2 ^ (emax - prec - emin))
    by (apply Z.pow_le_mono_r; lia).
  assert (Hcap : 2 ^ (emax - emin) = 2 ^ prec * 2 ^ (emax - prec - emin)).
  { rewrite <- Z.pow_add_r by (unfold SpecFloat.emin in *; lia).
    f_equal. lia. }
  rewrite Hcap. nia.
Qed.

(** Numbers of the format in one binade, and in two. *)
Lemma ord_binades m1 e1 m2 e2 :
  bounded prec emax m1 e1 = true -> bounded prec emax m2 e2 = true ->
  e1 < e2 ->
  Zpos m1 * 2 ^ (e1 - emin) < Zpos m2 * 2 ^ (e2 - emin).
Proof using Hprec Hemax.
  intros H1 H2 He.
  destruct (bounded_facts m1 e1 H1) as (He1 & Hm1 & _).
  destruct (bounded_facts m2 e2 H2) as (He2 & _ & Hm2).
  specialize (Hm2 ltac:(lia)).
  assert (Hp1 : 0 < 2 ^ (e1 - emin)) by (apply Z.pow_pos_nonneg; lia).
  assert (Hp : 0 < 2 ^ (prec - 1)) by (apply Z.pow_pos_nonneg; lia).
  assert (Hp2 : 2 ^ prec = 2 * 2 ^ (prec - 1)) by (apply pow2_split; lia).
  assert (Hs : 2 * 2 ^ (e1 - emin) <= 2 ^ (e2 - emin)).
  { rewrite <- Z.pow_succ_r by lia. apply Z.pow_le_mono_r; lia. }
  nia.
Qed.

Lemma SFcompare_finite_ord m1 e1 m2 e2 :
  bounded prec emax m1 e1 = true -> bounded prec emax m2 e2 = true ->
  match e1 ?= e2 with
  | Eq => Pos.compare_cont Eq m1 m2
  | Lt => Lt
  | Gt => Gt
  end
  = (Zpos m1 * 2 ^ (e1 - emin) ?= Zpos m2 * 2 ^ (e2 - emin)).
Proof using Hprec Hemax.
  intros H1 H2.
  destruct (Z.compare_spec e1 e2) as [E|E|E]; symmetry.
  - subst e2. destruct (bounded_facts m1 e1 H1) as (He1 & _).
    assert (0 < 2 ^ (e1 - emin)) by (apply Z.pow_pos_nonneg; lia).
    change (Pos.compare_cont Eq m1 m2) with (Zpos m1 ?= Zpos m2).
    destruct (Z.compare_spec (Zpos m1) (Zpos m2)) as [C|C|C];
      [apply Z.compare_eq_iff | apply Z.compare_lt_iff
       | apply Z.compare_gt_iff]; nia.
  - apply Z.compare_lt_iff. now apply ord_binades.
  - apply Z.compare_gt_iff. now apply ord_binades.
Qed.

(** On numbers of the format the comparison is that of the places. *)
Lemma SFcompare_ord x y :
  valid_binary prec emax x = true -> valid_binary prec emax y = true ->
  is_nan x = false -> is_nan y = false ->
  SFcompare x y = Some (ord prec emax x ?= ord prec emax y).
Proof using Hprec Hemax.
  intros Vx Vy Nx Ny.
  assert (Hcap : 0 < 2 ^ (emax - emin))
    by (apply Z.pow_pos_nonneg; unfold SpecFloat.emin; lia).
  destruct x as [s|s| |s m e], y as [t|t| |t n f];
    try discriminate; cbn [valid_binary] in Vx, Vy;
    try pose proof (ord_finite_bound m e Vx) as Bx;
    try pose proof (ord_finite_bound n f Vy) as By;
    cbn [SFcompare ord]; f_equal;
    try (destruct s); try (destruct t); cbn [cond_Zopp];
    try (symmetry;
         first [ apply Z.compare_eq_iff; lia
               | apply Z.compare_lt_iff; lia
               | apply Z.compare_gt_iff; lia ]).
  - rewrite Z.compare_opp.
    rewrite (Z.compare_antisym (Zpos m * 2 ^ (e - emin))
               (Zpos n * 2 ^ (f - emin))).
    rewrite <- (SFcompare_finite_ord m e n f Vx Vy).
    destruct (e ?= f); reflexivity.
  - now apply SFcompare_finite_ord.
Qed.

Lemma SFleb_ord x y :
  valid_binary prec emax x = true -> valid_binary prec emax y = true ->
  is_nan x = false -> is_nan y = false ->
  SFleb x y = (ord prec emax x <=? ord prec emax y).
Proof using Hprec Hemax.
  intros Vx Vy Nx Ny. unfold SFleb. rewrite SFcompare_ord by assumption.
  unfold Z.leb. destruct (_ ?= _); reflexivity.
Qed.

(** ** The operations round the exact result *)

(** Two writings of one number are rounded alike. *)
Lemma sround_ord_eq m1 e1 m2 e2 B :
  B <= e1 -> B <= e2 ->
  m1 * 2 ^ (e1 - B) = m2 * 2 ^ (e2 - B) ->
  sround_ord prec emax m1 e1 = sround_ord prec emax m2 e2.
Proof using Hprec Hemax.
  intros B1 B2 H. apply Z.le_antisymm;
    apply (sround_ord_mono _ _ _ _ B); lia.
Qed.

Lemma sround_ord_opp m e : sround_ord prec emax (- m) e = - sround_ord prec emax m e.
Proof using Hprec Hemax.
  destruct m as [|p|p]; cbn [SpecFloat.cond_Zopp sround_ord Z.opp]; lia.
Qed.

(** A number of the format is its own rounding. *)
Lemma round_ord_exact m e :
  bounded prec emax m e = true ->
  round_ord prec emax (Zpos m * 2 ^ (e - emin)) emin
  = Zpos m * 2 ^ (e - emin).
Proof using Hprec Hemax.
  intros Hb.
  destruct (bounded_facts m e Hb) as (He & _).
  assert (Hp : 0 < 2 ^ (e - emin)) by (apply Z.pow_pos_nonneg; lia).
  pose proof (binary_round_aux_exact prec emax false m e (e - emin) Hb
                ltac:(lia)) as Hx.
  replace (e - (e - emin)) with emin in Hx by lia.
  rewrite binary_round_aux_rounded in Hx; try assumption; [|nia|].
  - pose proof (rounded_ord false
                  (Zpos m * 2 ^ (e - emin)) emin ltac:(nia)) as Ho.
    rewrite Hx in Ho. cbn [ord SpecFloat.cond_Zopp] in Ho.
    symmetry. exact Ho.
  - apply fexp_ge_emin.
Qed.

Lemma sround_ord_exact x :
  valid_binary prec emax x = true -> is_finite x = true ->
  sround_ord prec emax (ord prec emax x) emin = ord prec emax x.
Proof using Hprec Hemax.
  intros Hv Hf. destruct x as [s|s| |s m e]; try discriminate;
    [reflexivity|].
  cbn [valid_binary] in Hv.
  pose proof (ord_finite_bound m e Hv) as Hb.
  pose proof (round_ord_exact m e Hv) as Hr.
  cbn [ord]. destruct s; cbn [SpecFloat.cond_Zopp].
  - rewrite sround_ord_opp. f_equal.
    destruct (Zpos m * 2 ^ (e - emin)) as [|q|q] eqn:E; try lia.
    exact Hr.
  - destruct (Zpos m * 2 ^ (e - emin)) as [|q|q] eqn:E; try lia.
    exact Hr.
Qed.

Lemma sround_ord_bounds m e :
  - 2 ^ (emax - emin) <= sround_ord prec emax m e <= 2 ^ (emax - emin).
Proof using Hprec Hemax.
  assert (Hcap : 0 < 2 ^ (emax - emin))
    by (apply Z.pow_pos_nonneg; unfold SpecFloat.emin; lia).
  destruct m as [|p|p]; cbn [sround_ord]; [lia| |].
  - pose proof (round_ord_nonneg (Zpos p) e ltac:(lia)).
    unfold round_ord in *. lia.
  - pose proof (round_ord_nonneg (- Zneg p) e ltac:(lia)).
    unfold round_ord in *. lia.
Qed.

(** The aligned mantissa of a finite number. *)
Lemma aligned_ord s m e ez :
  emin <= ez -> ez <= e ->
  cond_Zopp s (Zpos (fst (shl_align m e ez))) * 2 ^ (ez - emin)
  = ord prec emax (S754_finite s m e).
Proof using Hprec Hemax.
  intros H1 H2. rewrite shl_align_fst by assumption. cbn [ord].
  replace (e - emin) with (e - ez + (ez - emin)) by lia.
  rewrite Z.pow_add_r by lia.
  destruct s; cbn [SpecFloat.cond_Zopp]; ring.
Qed.

(** The difference of two finite numbers is the exact difference,
    rounded. *)
Lemma SFsub_ord x y :
  valid_binary prec emax x = true -> valid_binary prec emax y = true ->
  is_finite x = true -> is_finite y = true ->
  ord prec emax (SFsub prec emax x y) = sround_ord prec emax (ord prec emax x - ord prec emax y) emin
  /\ is_number prec emax (SFsub prec emax x y) = true.
Proof using Hprec Hemax.
  intros Vx Vy Fx Fy.
  destruct x as [s|s| |s m e], y as [t|t| |t n f]; try discriminate.
  - split; [|destruct s, t; reflexivity].
    destruct s, t; reflexivity.
  - split.
    + change (SFsub prec emax (S754_zero s) (S754_finite t n f))
        with (S754_finite (negb t) n f).
      rewrite <- (sround_ord_exact (S754_finite (negb t) n f))
        by (assumption || reflexivity).
      f_equal. cbn [ord]. destruct t; cbn [negb SpecFloat.cond_Zopp]; lia.
    + apply is_number_iff. split; [exact Vy | reflexivity].
  - split.
    + change (SFsub prec emax (S754_finite s m e) (S754_zero t))
        with (S754_finite s m e).
      rewrite <- (sround_ord_exact (S754_finite s m e)) at 1
        by (assumption || reflexivity).
      f_equal. cbn [ord]. lia.
    + apply is_number_iff. split; [exact Vx | reflexivity].
  - cbn [valid_binary] in Vx, Vy.
    destruct (bounded_facts m e Vx) as (He & _).
    destruct (bounded_facts n f Vy) as (Hf & _).
    unfold SFsub. set (ez := Z.min e f). split.
    + rewrite binary_normalize_ord by assumption.
      apply (sround_ord_eq _ _ _ _ emin); [unfold ez; lia | lia |].
      rewrite Z.sub_diag, Z.pow_0_r, Z.mul_1_r, Z.mul_sub_distr_r.
      rewrite !aligned_ord by (unfold ez; lia). reflexivity.
    + apply is_number_iff. split.
      * now apply binary_normalize_valid.
      * apply binary_normalize_not_nan.
Qed.

(** A finite number of the format is [Fnum * 2^Fexp]. *)
Lemma ord_Fnum x :
  valid_binary prec emax x = true -> is_finite x = true ->
  ord prec emax x = Fnum x * 2 ^ (Fexp prec emax x - emin)
  /\ emin <= Fexp prec emax x.
Proof using Hprec Hemax.
  intros Hv Hf. destruct x as [s|s| |s m e]; try discriminate.
  - cbn [ord Fnum Fexp]. lia.
  - cbn [valid_binary] in Hv.
    destruct (bounded_facts m e Hv) as (He & _).
    cbn [ord Fnum Fexp]. split; [|lia].
    destruct s; cbn [SpecFloat.cond_Zopp]; lia.
Qed.

Lemma ord_finite_range x :
  valid_binary prec emax x = true -> is_finite x = true ->
  - 2 ^ (emax - emin) < ord prec emax x < 2 ^ (emax - emin).
Proof using Hprec Hemax.
  intros Hv Hf.
  assert (Hcap : 0 < 2 ^ (emax - emin))
    by (apply Z.pow_pos_nonneg; unfold SpecFloat.emin; lia).
  destruct x as [s|s| |s m e]; try discriminate; cbn [ord]; [lia|].
  cbn [valid_binary] in Hv. pose proof (ord_finite_bound m e Hv).
  destruct s; cbn [SpecFloat.cond_Zopp]; lia.
Qed.

(** Subtracting one number from two keeps their order. *)
Lemma SFsub_mono x1 x2 y :
  valid_binary prec emax x1 = true -> valid_binary prec emax x2 = true ->
  is_finite x1 = true -> is_finite x2 = true ->
  is_number prec emax y = true ->
  ord prec emax x1 <= ord prec emax x2 ->
  ord prec emax (SFsub prec emax x1 y) <= ord prec emax (SFsub prec emax x2 y)
  /\ is_number prec emax (SFsub prec emax x1 y) = true
  /\ is_number prec emax (SFsub prec emax x2 y) = true.
Proof using Hprec Hemax.
  intros V1 V2 F1 F2 Ny Hle.
  apply is_number_iff in Ny. destruct Ny as [Vy Ny].
  destruct (is_finite y) eqn:Fy.
  - destruct (SFsub_ord x1 y V1 Vy F1 Fy) as [O1 N1].
    destruct (SFsub_ord x2 y V2 Vy F2 Fy) as [O2 N2].
    rewrite O1, O2. split; [|auto].
    apply (sround_ord_mono _ _ _ _ emin); try lia.
    rewrite Z.sub_diag, Z.pow_0_r. lia.
  - destruct y as [t|t| |t n f]; try discriminate.
    destruct x1 as [s1|s1| |s1 m1 e1], x2 as [s2|s2| |s2 m2 e2];
      try discriminate; cbn [SFsub]; repeat split; lia.
Qed.

(** The product of two numbers of the format can be rounded as it is. *)
Lemma SFmul_exponent mx ex my ey :
  bounded prec emax mx ex = true -> bounded prec emax my ey = true ->
  ex + ey <= fexp (Zdigits2 (Zpos (mx * my)) + (ex + ey)).
Proof using Hprec Hemax.
  intros Hx Hy.
  destruct (bounded_facts mx ex Hx) as (Hex & Hmx & Hnx).
  destruct (bounded_facts my ey Hy) as (Hey & Hmy & Hny).
  assert (Hmin : emin <= 0) by (unfold SpecFloat.emin; lia).
  assert (Hp : 0 < 2 ^ (prec - 1)) by (apply Z.pow_pos_nonneg; lia).
  destruct (Z.eq_dec ex emin) as [Ex|Ex], (Z.eq_dec ey emin) as [Ey|Ey].
  - pose proof (fexp_ge_emin (Zdigits2 (Zpos (mx * my)) + (ex + ey))). lia.
  - specialize (Hny ltac:(lia)).
    assert (Hd : prec <= Zdigits2 (Zpos (mx * my))).
    { apply Zdigits2_ge_prec. rewrite Pos2Z.inj_mul. nia. }
    unfold SpecFloat.fexp. lia.
  - specialize (Hnx ltac:(lia)).
    assert (Hd : prec <= Zdigits2 (Zpos (mx * my))).
    { apply Zdigits2_ge_prec. rewrite Pos2Z.inj_mul. nia. }
    unfold SpecFloat.fexp. lia.
  - specialize (Hnx ltac:(lia)).
    assert (Hd : prec <= Zdigits2 (Zpos (mx * my))).
    { apply Zdigits2_ge_prec. rewrite Pos2Z.inj_mul. nia. }
    unfold SpecFloat.fexp. lia.
Qed.

(** The product with a finite number is the exact product, rounded. *)
Lemma SFmul_ord x t my ey :
  valid_binary prec emax x = true -> is_finite x = true ->
  bounded prec emax my ey = true ->
  ord prec emax (SFmul prec emax x (S754_finite t my ey))
  = sround_ord prec emax (Fnum x * cond_Zopp t (Zpos my)) (Fexp prec emax x + ey)
  /\ is_number prec emax (SFmul prec emax x (S754_finite t my ey)) = true.
Proof using Hprec Hemax.
  intros Vx Fx Hy. destruct x as [s|s| |s mx ex]; try discriminate.
  - split; reflexivity.
  - cbn [valid_binary] in Vx.
    pose proof (SFmul_exponent mx ex my ey Vx Hy) as He.
    unfold SFmul. rewrite binary_round_aux_rounded by (assumption || lia).
    split.
    + rewrite rounded_ord by lia. cbn [Fnum Fexp].
      destruct s, t; cbn [xorb SpecFloat.cond_Zopp sround_ord Z.mul Z.opp];
        reflexivity.
    + apply is_number_iff. split.
      * apply rounded_valid. lia.
      * apply rounded_not_nan. lia.
Qed.

(** Multiplying two numbers by one positive finite number keeps their
    order. *)
Lemma SFmul_mono x1 x2 my ey :
  is_number prec emax x1 = true -> is_number prec emax x2 = true ->
  bounded prec emax my ey = true ->
  ord prec emax x1 <= ord prec emax x2 ->
  ord prec emax (SFmul prec emax x1 (S754_finite false my ey))
  <= ord prec emax (SFmul prec emax x2 (S754_finite false my ey))
  /\ is_number prec emax (SFmul prec emax x1 (S754_finite false my ey)) = true
  /\ is_number prec emax (SFmul prec emax x2 (S754_finite false my ey)) = true.
Proof using Hprec Hemax.
  intros N1 N2 Hy Hle.
  apply is_number_iff in N1. destruct N1 as [V1 N1].
  apply is_number_iff in N2. destruct N2 as [V2 N2].
  assert (Hcap : 0 < 2 ^ (emax - emin))
    by (apply Z.pow_pos_nonneg; unfold SpecFloat.emin; lia).
  destruct (bounded_facts my ey Hy) as (Hey & _).
  assert (Hfin : forall x, valid_binary prec emax x = true ->
                   is_finite x = true ->
                   - 2 ^ (emax - emin)
                   <= ord prec emax (SFmul prec emax x (S754_finite false my ey))
                   <= 2 ^ (emax - emin)).
  { intros x Vx Fx. destruct (SFmul_ord x false my ey Vx Fx Hy) as [-> _].
    apply sround_ord_bounds. }
  destruct (is_finite x1) eqn:F1, (is_finite x2) eqn:F2.
  - destruct (SFmul_ord x1 false my ey V1 F1 Hy) as [O1 M1].
    destruct (SFmul_ord x2 false my ey V2 F2 Hy) as [O2 M2].
    rewrite O1, O2. split; [|auto].
    destruct (ord_Fnum x1 V1 F1) as [Q1 E1].
    destruct (ord_Fnum x2 V2 F2) as [Q2 E2].
    apply (sround_ord_mono _ _ _ _ (emin + ey)); try lia.
    replace (Fexp prec emax x1 + ey - (emin + ey))
      with (Fexp prec emax x1 - emin) by lia.
    replace (Fexp prec emax x2 + ey - (emin + ey))
      with (Fexp prec emax x2 - emin) by lia.
    cbn [SpecFloat.cond_Zopp]. rewrite Q1, Q2 in Hle. nia.
  - destruct (SFmul_ord x1 false my ey V1 F1 Hy) as [_ M1].
    pose proof (Hfin x1 V1 F1) as B1.
    pose proof (ord_finite_range x1 V1 F1) as R1.
    destruct x2 as [s2|[|]| |s2 m2 e2]; try discriminate;
      cbn [ord SpecFloat.cond_Zopp] in Hle; try lia.
    cbn [SFmul xorb ord SpecFloat.cond_Zopp]. repeat split; auto. lia.
  - destruct (SFmul_ord x2 false my ey V2 F2 Hy) as [_ M2].
    pose proof (Hfin x2 V2 F2) as B2.
    pose proof (ord_finite_range x2 V2 F2) as R2.
    destruct x1 as [s1|[|]| |s1 m1 e1]; try discriminate;
      cbn [ord SpecFloat.cond_Zopp] in Hle; try lia.
    cbn [SFmul xorb ord SpecFloat.cond_Zopp]. repeat split; auto. lia.
  - destruct x1 as [s1|[|]| |s1 m1 e1], x2 as [s2|[|]| |s2 m2 e2];
      try discriminate; cbn [ord SpecFloat.cond_Zopp] in Hle; try lia;
      cbn [SFmul xorb ord SpecFloat.cond_Zopp]; repeat split; lia.
Qed.

(** The operations return numbers of the format. *)
Lemma SFmul_valid x y :
  valid_binary prec emax x = true -> valid_binary prec emax y = true ->
  valid_binary prec emax (SFmul prec emax x y) = true.
Proof using Hprec Hemax.
  intros Vx Vy.
  destruct x as [s|s| |s m e], y as [t|t| |t n f]; try reflexivity.
  cbn [valid_binary] in Vx, Vy. unfold SFmul.
  rewrite binary_round_aux_rounded;
    [apply rounded_valid; lia | lia | now apply SFmul_exponent].
Qed.

Lemma SFadd_valid x y :
  valid_binary prec emax x = true -> valid_binary prec emax y = true ->
  valid_binary prec emax (SFadd prec emax x y) = true.
Proof using Hprec Hemax.
  intros Vx Vy.
  destruct x as [s|s| |s m e], y as [t|t| |t n f]; try reflexivity;
    try assumption; try (destruct s, t; reflexivity).
  unfold SFadd. apply binary_normalize_valid.
Qed.

Lemma round_valid x :
  valid_binary prec emax x = true ->
  valid_binary prec emax (round prec emax x) = true.
Proof using Hprec Hemax.
  intros Vx. destruct x as [s|s| |s m e]; try reflexivity.
  unfold round. destruct (0 <=? e); [assumption|].
  apply binary_normalize_valid.
Qed.

Lemma of_float_valid x : valid_binary prec emax (of_float prec emax x) = true.
Proof using Hprec Hemax.
  destruct x as [s|s| |s m e]; try reflexivity.
  unfold of_float. apply binary_normalize_valid.
Qed.

Lemma fmaxf_valid a b :
  valid_binary prec emax a = true -> valid_binary prec emax b = true ->
  valid_binary prec emax (fmaxf a b) = true.
Proof using Hprec Hemax.
  intros Va Vb. unfold fmaxf.
  destruct (SFcompare a b) as [[| |]|]; try assumption.
  destruct (is_nan a); assumption.
Qed.

Lemma fminf_valid a b :
  valid_binary prec emax a = true -> valid_binary prec emax b = true ->
  valid_binary prec emax (fminf a b) = true.
Proof using Hprec Hemax.
  intros Va Vb. unfold fminf.
  destruct (SFcompare a b) as [[| |]|]; try assumption.
  destruct (is_nan a); assumption.
Qed.

(** A number strictly between the infinities is finite. *)
Lemma is_number_finite x :
  is_number prec emax x = true ->
  - 2 ^ (emax - emin) < ord prec emax x < 2 ^ (emax - emin) ->
  is_finite x = true.
Proof using Hprec Hemax.
  intros Nx Hr. apply is_number_iff in Nx. destruct Nx as [_ Nx].
  destruct x as [s|[|]| |s m e]; try discriminate; try reflexivity;
    cbn [ord SpecFloat.cond_Zopp] in Hr; lia.
Qed.

(** The sum of two finite numbers is the exact sum, rounded. *)
Lemma SFadd_ord x y :
  valid_binary prec emax x = true -> valid_binary prec emax y = true ->
  is_finite x = true -> is_finite y = true ->
  ord prec emax (SFadd prec emax x y) = sround_ord prec emax (ord prec emax x + ord prec emax y) emin
  /\ is_number prec emax (SFadd prec emax x y) = true.
Proof using Hprec Hemax.
  intros Vx Vy Fx Fy.
  destruct x as [s|s| |s m e], y as [t|t| |t n f]; try discriminate.
  - split; [|destruct s, t; reflexivity].
    destruct s, t; reflexivity.
  - split.
    + change (SFadd prec emax (S754_zero s) (S754_finite t n f))
        with (S754_finite t n f).
      rewrite <- (sround_ord_exact (S754_finite t n f)) at 1
        by (assumption || reflexivity).
      f_equal.
    + apply is_number_iff. split; [exact Vy | reflexivity].
  - split.
    + change (SFadd prec emax (S754_finite s m e) (S754_zero t))
        with (S754_finite s m e).
      rewrite <- (sround_ord_exact (S754_finite s m e)) at 1
        by (assumption || reflexivity).
      f_equal. cbn [ord]. lia.
    + apply is_number_iff. split; [exact Vx | reflexivity].
  - cbn [valid_binary] in Vx, Vy.
    destruct (bounded_facts m e Vx) as (He & _).
    destruct (bounded_facts n f Vy) as (Hf & _).
    unfold SFadd. set (ez := Z.min e f). split.
    + rewrite binary_normalize_ord.
      apply (sround_ord_eq _ _ _ _ emin); [unfold ez; lia | lia |].
      rewrite Z.sub_diag, Z.pow_0_r, Z.mul_1_r, Z.mul_add_distr_r.
      rewrite !aligned_ord by (unfold ez; lia). reflexivity.
    + apply is_number_iff. split.
      * apply binary_normalize_valid.
      * apply binary_normalize_not_nan.
Qed.

(** Adding one finite number to two numbers keeps their order. *)
Lemma SFadd_mono x1 x2 y :
  is_number prec emax x1 = true -> is_number prec emax x2 = true ->
  valid_binary prec emax y = true -> is_finite y = true ->
  ord prec emax x1 <= ord prec emax x2 ->
  ord prec emax (SFadd prec emax x1 y) <= ord prec emax (SFadd prec emax x2 y)
  /\ is_number prec emax (SFadd prec emax x1 y) = true
  /\ is_number prec emax (SFadd prec emax x2 y) = true.
Proof using Hprec Hemax.
  intros N1 N2 Vy Fy Hle.
  apply is_number_iff in N1. destruct N1 as [V1 N1].
  apply is_number_iff in N2. destruct N2 as [V2 N2].
  assert (Hcap : 0 < 2 ^ (emax - emin))
    by (apply Z.pow_pos_nonneg; unfold SpecFloat.emin; lia).
  assert (Hfin : forall x, valid_binary prec emax x = true ->
                   is_finite x = true ->
                   - 2 ^ (emax - emin) <= ord prec emax (SFadd prec emax x y)
                   <= 2 ^ (emax - emin)).
  { intros x Vx Fx. destruct (SFadd_ord x y Vx Vy Fx Fy) as [-> _].
    apply sround_ord_bounds. }
  assert (Hinf : forall s, SFadd prec emax (S754_infinity s) y
                           = S754_infinity s).
  { intros s. destruct y; try discriminate; reflexivity. }
  destruct (is_finite x1) eqn:F1, (is_finite x2) eqn:F2.
  - destruct (SFadd_ord x1 y V1 Vy F1 Fy) as [O1 M1].
    destruct (SFadd_ord x2 y V2 Vy F2 Fy) as [O2 M2].
    rewrite O1, O2. split; [|auto].
    apply (sround_ord_mono _ _ _ _ emin); try lia.
    rewrite Z.sub_diag, Z.pow_0_r. lia.
  - destruct (SFadd_ord x1 y V1 Vy F1 Fy) as [_ M1].
    pose proof (Hfin x1 V1 F1) as B1.
    pose proof (ord_finite_range x1 V1 F1) as R1.
    destruct x2 as [s2|[|]| |s2 m2 e2]; try discriminate;
      cbn [ord SpecFloat.cond_Zopp] in Hle; try lia.
    rewrite Hinf. cbn [ord SpecFloat.cond_Zopp]. repeat split; auto.
    lia.
  - destruct (SFadd_ord x2 y V2 Vy F2 Fy) as [_ M2].
    pose proof (Hfin x2 V2 F2) as B2.
    pose proof (ord_finite_range x2 V2 F2) as R2.
    destruct x1 as [s1|[|]| |s1 m1 e1]; try discriminate;
      cbn [ord SpecFloat.cond_Zopp] in Hle; try lia.
    rewrite Hinf. cbn [ord SpecFloat.cond_Zopp]. repeat split; auto.
    lia.
  - destruct x1 as [s1|[|]| |s1 m1 e1], x2 as [s2|[|]| |s2 m2 e2];
      try discriminate; cbn [ord SpecFloat.cond_Zopp] in Hle; try lia;
      rewrite !Hinf; cbn [ord SpecFloat.cond_Zopp]; repeat split; lia.
Qed.

(** [fmaxf] and [fminf] on numbers are the larger and the smaller
    place. *)
Lemma fmaxf_ord a b :
  is_number prec emax a = true -> is_number prec emax b = true ->
  ord prec emax (fmaxf a b) = Z.max (ord prec emax a) (ord prec emax b) /\ is_number prec emax (fmaxf a b) = true.
Proof using Hprec Hemax.
  intros Na Nb. pose proof Na as Na'. pose proof Nb as Nb'.
  apply is_number_iff in Na'. destruct Na' as [Va Xa].
  apply is_number_iff in Nb'. destruct Nb' as [Vb Xb].
  unfold fmaxf. rewrite SFcompare_ord by assumption.
  destruct (Z.compare_spec (ord prec emax a) (ord prec emax b)); split; auto; lia.
Qed.

Lemma fminf_ord a b :
  is_number prec emax a = true -> is_number prec emax b = true ->
  ord prec emax (fminf a b) = Z.min (ord prec emax a) (ord prec emax b) /\ is_number prec emax (fminf a b) = true.
Proof using Hprec Hemax.
  intros Na Nb. pose proof Na as Na'. pose proof Nb as Nb'.
  apply is_number_iff in Na'. destruct Na' as [Va Xa].
  apply is_number_iff in Nb'. destruct Nb' as [Vb Xb].
  unfold fminf. rewrite SFcompare_ord by assumption.
  destruct (Z.compare_spec (ord prec emax a) (ord prec emax b)); split; auto; lia.
Qed.

(** Rounding half away from zero grows with the place. *)
Lemma round_half_away_mono o1 o2 :
  o1 <= o2 -> round_half_away prec emax o1 <= round_half_away prec emax o2.
Proof using Hprec Hemax.
  intros H. unfold round_half_away.
  set (h := 2 ^ (- emin - 1)). set (w := 2 ^ (- emin)).
  assert (Hh : 0 <= h) by (apply Z.pow_nonneg; lia).
  assert (Hw : 0 < w)
    by (apply Z.pow_pos_nonneg; unfold SpecFloat.emin; lia).
  assert (Hq : forall a, 0 <= a -> 0 <= (a + h) / w)
    by (intros; apply Z.div_pos; lia).
  destruct (Z.le_gt_cases 0 o1) as [P1|P1], (Z.le_gt_cases 0 o2) as [P2|P2];
    try lia.
  - rewrite !Z.abs_eq by lia.
    assert ((o1 + h) / w <= (o2 + h) / w) by (apply Z.div_le_mono; lia).
    pose proof (Hq o1 P1). pose proof (Hq o2 P2).
    destruct (Z.eq_dec o1 0) as [->|], (Z.eq_dec o2 0) as [->|];
      rewrite ?Z.sgn_pos by lia; cbn [Z.sgn]; lia.
  - pose proof (Hq (Z.abs o1) (Z.abs_nonneg o1)).
    pose proof (Hq (Z.abs o2) (Z.abs_nonneg o2)).
    rewrite (Z.sgn_neg o1) by lia.
    destruct (Z.eq_dec o2 0) as [->|]; [cbn [Z.sgn]; lia|].
    rewrite Z.sgn_pos by lia. lia.
  - rewrite !Z.abs_neq by lia. rewrite !Z.sgn_neg by lia.
    assert ((- o2 + h) / w <= (- o1 + h) / w) by (apply Z.div_le_mono; lia).
    lia.
Qed.

(** [std::round] of a finite number is the integer nearest to it, halfway
    cases away from zero, rounded to the format. *)
Lemma round_half_away_ord x :
  valid_binary prec emax x = true -> is_finite x = true ->
  ord prec emax (round prec emax x) = sround_ord prec emax (round_half_away prec emax (ord prec emax x)) 0
  /\ is_number prec emax (round prec emax x) = true.
Proof using Hprec Hemax.
  intros Vx Fx.
  assert (Hmin : emin <= 0) by (unfold SpecFloat.emin; lia).
  assert (Hw : 0 < 2 ^ (- emin)) by (apply Z.pow_pos_nonneg; lia).
  assert (Hh : 0 <= 2 ^ (- emin - 1) < 2 ^ (- emin)).
  { split; [apply Z.pow_nonneg; lia|].
    destruct (Z.eq_dec emin 0) as [E0|E0].
    - rewrite E0. cbn. lia.
    - apply Z.pow_lt_mono_r; lia. }
  destruct x as [s|s| |s m e]; try discriminate.
  - split; [|reflexivity]. unfold round_half_away. cbn [ord Z.sgn].
    reflexivity.
  - cbn [valid_binary] in Vx.
    destruct (bounded_facts m e Vx) as (He & _).
    pose proof (ord_finite_bound m e Vx) as Ho.
    assert (Hp : 0 < 2 ^ (e - emin)) by (apply Z.pow_pos_nonneg; lia).
    assert (Hsgn : round_half_away prec emax (ord prec emax (S754_finite s m e))
                   = cond_Zopp s ((Zpos m * 2 ^ (e - emin) + 2 ^ (- emin - 1))
                                  / 2 ^ (- emin))).
    { unfold round_half_away. cbn [ord].
      destruct s; cbn [SpecFloat.cond_Zopp].
      - rewrite Z.sgn_neg, Z.abs_neq by lia.
        rewrite Z.opp_involutive. lia.
      - rewrite Z.sgn_pos, Z.abs_eq by lia. lia. }
    rewrite Hsgn. unfold round.
    destruct (Z.leb_spec 0 e) as [Hpos|Hneg].
    + split; [|apply is_number_iff; split; [exact Vx | reflexivity]].
      rewrite <- (sround_ord_exact (S754_finite s m e)) at 1
        by (assumption || reflexivity).
      assert (Hd : (Zpos m * 2 ^ (e - emin) + 2 ^ (- emin - 1)) / 2 ^ (- emin)
                   = Zpos m * 2 ^ e).
      { replace (e - emin) with (e + - emin) by lia.
        rewrite Z.pow_add_r, Z.mul_assoc by lia.
        rewrite Z.div_add_l by lia. rewrite Z.div_small by lia. lia. }
      rewrite Hd.
      apply (sround_ord_eq _ _ _ _ emin); try lia.
      rewrite Z.sub_diag, Z.pow_0_r, Z.mul_1_r, Z.sub_0_l. cbn [ord].
      replace (e - emin) with (e + - emin) by lia.
      rewrite Z.pow_add_r by lia.
      destruct s; cbn [SpecFloat.cond_Zopp]; ring.
    + split.
      * rewrite binary_normalize_ord. f_equal. f_equal.
        assert (Hd : (Zpos m * 2 ^ (e - emin) + 2 ^ (- emin - 1))
                     = (Zpos m + 2 ^ (- e - 1)) * 2 ^ (e - emin)).
        { rewrite Z.mul_add_distr_r, <- Z.pow_add_r by lia.
          do 2 f_equal. lia. }
        rewrite Hd.
        replace (2 ^ (- emin)) with (2 ^ (- e) * 2 ^ (e - emin))
          by (rewrite <- Z.pow_add_r by lia; f_equal; lia).
        rewrite Z.div_mul_cancel_r; [reflexivity| |lia].
        apply Z.pow_nonzero; lia.
      * apply is_number_iff. split.
        -- apply binary_normalize_valid.
        -- apply binary_normalize_not_nan.
Qed.

(** [std::round] keeps the order. *)
Lemma round_mono x1 x2 :
  is_number prec emax x1 = true -> is_number prec emax x2 = true ->
  ord prec emax x1 <= ord prec emax x2 ->
  ord prec emax (round prec emax x1) <= ord prec emax (round prec emax x2)
  /\ is_number prec emax (round prec emax x1) = true
  /\ is_number prec emax (round prec emax x2) = true.
Proof using Hprec Hemax.
  intros N1 N2 Hle.
  apply is_number_iff in N1. destruct N1 as [V1 N1].
  apply is_number_iff in N2. destruct N2 as [V2 N2].
  assert (Hcap : 0 < 2 ^ (emax - emin))
    by (apply Z.pow_pos_nonneg; unfold SpecFloat.emin; lia).
  assert (Hfin : forall x, valid_binary prec emax x = true ->
                   is_finite x = true ->
                   - 2 ^ (emax - emin) <= ord prec emax (round prec emax x)
                   <= 2 ^ (emax - emin)).
  { intros x Vx Fx. destruct (round_half_away_ord x Vx Fx) as [-> _].
    apply sround_ord_bounds. }
  destruct (is_finite x1) eqn:F1, (is_finite x2) eqn:F2.
  - destruct (round_half_away_ord x1 V1 F1) as [O1 M1].
    destruct (round_half_away_ord x2 V2 F2) as [O2 M2].
    rewrite O1, O2. split; [|auto].
    apply (sround_ord_mono _ _ _ _ 0); try lia.
    rewrite Z.sub_diag, Z.pow_0_r, !Z.mul_1_r.
    now apply round_half_away_mono.
  - destruct (round_half_away_ord x1 V1 F1) as [_ M1].
    pose proof (Hfin x1 V1 F1) as B1.
    pose proof (ord_finite_range x1 V1 F1) as R1.
    destruct x2 as [s2|[|]| |s2 m2 e2]; try discriminate;
      cbn [ord SpecFloat.cond_Zopp] in Hle; try lia.
    cbn [round ord SpecFloat.cond_Zopp]. repeat split; auto. lia.
  - destruct (round_half_away_ord x2 V2 F2) as [_ M2].
    pose proof (Hfin x2 V2 F2) as B2.
    pose proof (ord_finite_range x2 V2 F2) as R2.
    destruct x1 as [s1|[|]| |s1 m1 e1]; try discriminate;
      cbn [ord SpecFloat.cond_Zopp] in Hle; try lia.
    cbn [round ord SpecFloat.cond_Zopp]. repeat split; auto. lia.
  - destruct x1 as [s1|[|]| |s1 m1 e1], x2 as [s2|[|]| |s2 m2 e2];
      try discriminate; cbn [ord SpecFloat.cond_Zopp] in Hle; try lia;
      cbn [round ord SpecFloat.cond_Zopp]; repeat split; lia.
Qed.

(** Two numbers at one place other than 0 are the same number. *)
Lemma ord_inj x y :
  is_number prec emax x = true -> is_number prec emax y = true ->
  ord prec emax x = ord prec emax y -> ord prec emax x <> 0 -> x = y.
Proof using Hprec Hemax.
  intros Nx Ny Ho Hz.
  apply is_number_iff in Nx. destruct Nx as [Vx Nx].
  apply is_number_iff in Ny. destruct Ny as [Vy Ny].
  assert (Hcap : 0 < 2 ^ (emax - emin))
    by (apply Z.pow_pos_nonneg; unfold SpecFloat.emin; lia).
  destruct x as [s|s| |s m e], y as [t|t| |t n f]; try discriminate;
    cbn [valid_binary] in Vx, Vy;
    try pose proof (ord_finite_bound m e Vx) as Bx;
    try pose proof (ord_finite_bound n f Vy) as By;
    cbn [ord] in Ho, Hz; try (exfalso; lia);
    try (destruct s, t; cbn [SpecFloat.cond_Zopp] in Ho; try (exfalso; lia);
         reflexivity).
  assert (Hst : s = t)
    by (destruct s, t; cbn [SpecFloat.cond_Zopp] in Ho; try reflexivity; lia).
  subst t.
  assert (Hv : Zpos m * 2 ^ (e - emin) = Zpos n * 2 ^ (f - emin))
    by (destruct s; cbn [SpecFloat.cond_Zopp] in Ho; lia).
  assert (Hef : e = f).
  { destruct (Z.lt_trichotomy e f) as [Hlt|[Heq|Hgt]]; [|assumption|].
    - pose proof (ord_binades m e n f Vx Vy Hlt). lia.
    - pose proof (ord_binades n f m e Vy Vx Hgt). lia. }
  subst f.
  destruct (bounded_facts m e Vx) as (He & _).
  assert (Hp : 0 < 2 ^ (e - emin)) by (apply Z.pow_pos_nonneg; lia).
  assert (Zpos m = Zpos n) by nia.
  congruence.
Qed.

Lemma round_finite x : is_finite (round prec emax x) = true -> is_finite x = true.
Proof using Hprec Hemax.
  destruct x; auto.
Qed.

End Round.

(** ** Conversion between two formats *)

Section Convert.

Variables prec1 emax1 prec2 emax2 : Z.
Hypothesis Hprec1 : 0 < prec1.
Hypothesis Hemax1 : prec1 < emax1.
Hypothesis Hprec2 : 0 < prec2.
Hypothesis Hemax2 : prec2 < emax2.

(** The conversion of a finite number is that number, rounded. *)
Lemma of_float_ord x :
  valid_binary prec1 emax1 x = true -> is_finite x = true ->
  ord prec2 emax2 (of_float prec2 emax2 x)
  = sround_ord prec2 emax2 (Fnum x) (Fexp prec1 emax1 x)
  /\ is_number prec2 emax2 (of_float prec2 emax2 x) = true.
Proof using Hprec1 Hemax1 Hprec2 Hemax2.
  intros Vx Fx. destruct x as [s|s| |s m e]; try discriminate.
  - split; reflexivity.
  - unfold of_float. cbn [Fnum Fexp]. split.
    + now apply binary_normalize_ord.
    + apply is_number_iff. split.
      * now apply binary_normalize_valid.
      * apply binary_normalize_not_nan.
Qed.

(** Conversion keeps the order. *)
Lemma of_float_mono x1 x2 :
  is_number prec1 emax1 x1 = true -> is_number prec1 emax1 x2 = true ->
  ord prec1 emax1 x1 <= ord prec1 emax1 x2 ->
  ord prec2 emax2 (of_float prec2 emax2 x1)
  <= ord prec2 emax2 (of_float prec2 emax2 x2)
  /\ is_number prec2 emax2 (of_float prec2 emax2 x1) = true
  /\ is_number prec2 emax2 (of_float prec2 emax2 x2) = true.
Proof using Hprec1 Hemax1 Hprec2 Hemax2.
  intros N1 N2 Hle.
  apply is_number_iff in N1. destruct N1 as [V1 N1].
  apply is_number_iff in N2. destruct N2 as [V2 N2].
  assert (Hcap : 0 < 2 ^ (emax2 - emin prec2 emax2))
    by (apply Z.pow_pos_nonneg; unfold emin; lia).
  assert (Hfin : forall x, valid_binary prec1 emax1 x = true ->
                   is_finite x = true ->
                   - 2 ^ (emax2 - emin prec2 emax2)
                   <= ord prec2 emax2 (of_float prec2 emax2 x)
                   <= 2 ^ (emax2 - emin prec2 emax2)).
  { intros x Vx Fx. destruct (of_float_ord x Vx Fx) as [-> _].
    now apply sround_ord_bounds. }
  destruct (is_finite x1) eqn:F1, (is_finite x2) eqn:F2.
  - destruct (of_float_ord x1 V1 F1) as [O1 M1].
    destruct (of_float_ord x2 V2 F2) as [O2 M2].
    rewrite O1, O2. split; [|auto].
    destruct (ord_Fnum prec1 emax1 Hprec1 Hemax1 x1 V1 F1) as [Q1 E1].
    destruct (ord_Fnum prec1 emax1 Hprec1 Hemax1 x2 V2 F2) as [Q2 E2].
    apply (sround_ord_mono prec2 emax2 Hprec2 Hemax2 _ _ _ _
             (emin prec1 emax1)); lia.
  - destruct (of_float_ord x1 V1 F1) as [_ M1].
    pose proof (Hfin x1 V1 F1) as B1.
    pose proof (ord_finite_range prec1 emax1 Hprec1 Hemax1 x1 V1 F1) as R1.
    destruct x2 as [s2|[|]| |s2 m2 e2]; try discriminate;
      cbn [ord cond_Zopp] in Hle; try lia.
    cbn [of_float ord cond_Zopp]. repeat split; auto. lia.
  - destruct (of_float_ord x2 V2 F2) as [_ M2].
    pose proof (Hfin x2 V2 F2) as B2.
    pose proof (ord_finite_range prec1 emax1 Hprec1 Hemax1 x2 V2 F2) as R2.
    destruct x1 as [s1|[|]| |s1 m1 e1]; try discriminate;
      cbn [ord cond_Zopp] in Hle; try lia.
    cbn [of_float ord cond_Zopp]. repeat split; auto. lia.
  - assert (Hcap1 : 0 < 2 ^ (emax1 - emin prec1 emax1))
      by (apply Z.pow_pos_nonneg; unfold emin; lia).
    destruct x1 as [s1|[|]| |s1 m1 e1], x2 as [s2|[|]| |s2 m2 e2];
      try discriminate; cbn [ord cond_Zopp] in Hle; try lia;
      cbn [of_float ord cond_Zopp]; repeat split; lia.
Qed.

End Convert.

(** ** The order of the grid points *)

Lemma F32_of_int_number z : is_number F32.prec F32.emax (F32.of_int z) = true.
Proof.
  unfold F32.of_int, of_int. apply is_number_iff. split.
  - now apply binary_normalize_valid.
  - apply binary_normalize_not_nan.
Qed.

(** [(c - zero_point) * scale] grows with the level [c], for every
    positive finite [scale]. *)
Lemma dequantize_mono ms es zero_point c1 c2 :
  bounded F64.prec F64.emax ms es = true ->
  valid_binary F32.prec F32.emax c1 = true ->
  valid_binary F32.prec F32.emax c2 = true ->
  is_finite c1 = true -> is_finite c2 = true ->
  SFleb c1 c2 = true ->
  SFleb (dequantize (S754_finite false ms es) zero_point c1)
        (dequantize (S754_finite false ms es) zero_point c2) = true.
Proof.
  intros Hs V1 V2 F1 F2 Hle.
  assert (N1 : is_nan c1 = false) by (destruct c1; discriminate || reflexivity).
  assert (N2 : is_nan c2 = false) by (destruct c2; discriminate || reflexivity).
  rewrite (SFleb_ord F32.prec F32.emax eq_refl eq_refl) in Hle by assumption.
  apply Z.leb_le in Hle.
  unfold dequantize, F32.sub, F64.of_single, F64.mul, F32.of_double.
  destruct (SFsub_mono F32.prec F32.emax eq_refl eq_refl c1 c2
              (F32.of_int zero_point) V1 V2 F1 F2
              (F32_of_int_number zero_point) Hle) as (H1 & A1 & A2).
  destruct (of_float_mono F32.prec F32.emax F64.prec F64.emax
              eq_refl eq_refl eq_refl eq_refl _ _ A1 A2 H1) as (H2 & B1 & B2).
  destruct (SFmul_mono F64.prec F64.emax eq_refl eq_refl _ _ ms es
              B1 B2 Hs H2) as (H3 & C1 & C2).
  destruct (of_float_mono F64.prec F64.emax F32.prec F32.emax
              eq_refl eq_refl eq_refl eq_refl _ _ C1 C2 H3) as (H4 & D1 & D2).
  apply is_number_iff in D1. apply is_number_iff in D2.
  rewrite (SFleb_ord F32.prec F32.emax eq_refl eq_refl)
    by (apply D1 || apply D2).
  now apply Z.leb_le.
Qed.

(** ** The forward result between the ends of the grid *)

Lemma F32_of_int_valid z : valid_binary F32.prec F32.emax (F32.of_int z) = true.
Proof. unfold F32.of_int, of_int. now apply binary_normalize_valid. Qed.

Lemma inv_scale_valid scale :
  valid_binary F32.prec F32.emax (inv_scale_of scale) = true.
Proof. unfold inv_scale_of, F32.of_double. now apply of_float_valid. Qed.

(** The quantization point of a [float] is a [float]. *)
Lemma quant_point_valid inv_scale zero_point x :
  valid_binary F32.prec F32.emax inv_scale = true ->
  valid_binary F32.prec F32.emax x = true ->
  valid_binary F32.prec F32.emax (quant_point inv_scale zero_point x) = true.
Proof.
  intros Vi Vx. unfold quant_point, F32.round, F32.add, F32.mul.
  apply round_valid; try reflexivity.
  apply SFadd_valid; try reflexivity.
  - now apply SFmul_valid.
  - apply F32_of_int_valid.
Qed.

Lemma clamp_valid quant_max inv_scale zero_point x :
  valid_binary F32.prec F32.emax quant_max = true ->
  valid_binary F32.prec F32.emax inv_scale = true ->
  valid_binary F32.prec F32.emax x = true ->
  valid_binary F32.prec F32.emax
    (fminf quant_max (fmaxf quant_min_of (quant_point inv_scale zero_point x)))
  = true.
Proof.
  intros Vq Vi Vx.
  apply fminf_valid; try reflexivity; [assumption|].
  apply fmaxf_valid; try reflexivity.
  now apply quant_point_valid.
Qed.

(** X10: up to 31 bits, with a positive finite [scale], every forward
    result lies between the two ends of the grid as the kernel computes
    them, [(quant_min - zero_point) * scale] and
    [(quant_max - zero_point) * scale], for every [zero_point] and every
    input element, a NaN or an infinity included: the clamped level lies
    between [quant_min] and [quant_max], and the subtraction, the product
    in [double] and the rounding to [float] all keep the order. *)
Theorem X10_forward_between_grid_ends ms es zero_point num_bits x u :
  1 <= num_bits <= 31 ->
  bounded F64.prec F64.emax ms es = true ->
  valid_binary F32.prec F32.emax x = true ->
  let scale := S754_finite false ms es in
  let y := forward_lambda scale (inv_scale_of scale) zero_point
             quant_min_of (quant_max_of num_bits) x u in
  SFleb (dequantize scale zero_point quant_min_of) y = true
  /\ SFleb y (dequantize scale zero_point (quant_max_of num_bits)) = true.
Proof.
  intros Hb Hs Vx scale y. subst y. unfold forward_lambda.
  set (q := quant_point (inv_scale_of scale) zero_point x).
  set (c := fminf (quant_max_of num_bits) (fmaxf quant_min_of q)).
  destruct (quant_max_positive num_bits Hb) as (m & e & Hq).
  assert (Vmax : valid_binary F32.prec F32.emax (quant_max_of num_bits) = true)
    by apply F32_of_int_valid.
  assert (Vc : valid_binary F32.prec F32.emax c = true).
  { apply clamp_valid; [exact Vmax | apply inv_scale_valid | exact Vx]. }
  assert (Fc : is_finite c = true).
  { unfold c. rewrite Hq. apply clamp_is_finite. }
  destruct (clamp_between quant_min_of (quant_max_of num_bits) q
              (quant_min_le_quant_max num_bits Hb)) as [Hlo Hhi].
  fold c in Hlo, Hhi.
  split.
  - apply dequantize_mono; auto.
  - apply dequantize_mono; auto. rewrite Hq. reflexivity.
Qed.

Lemma X10_forward_between_grid_ends_witness :
  SFleb (dequantize (f64 7) 128 quant_min_of)
        (forward_lambda (f64 7) (inv_scale_of (f64 7)) 128
           quant_min_of (quant_max_of 8) (f32_ratio 1 3) uninit) = true
  /\ SFleb (forward_lambda (f64 7) (inv_scale_of (f64 7)) 128
              quant_min_of (quant_max_of 8) (f32_ratio 1 3) uninit)
           (dequantize (f64 7) 128 (quant_max_of 8)) = true.
Proof.
  exact (X10_forward_between_grid_ends 7881299347898368 (-50) 128 8
           (f32_ratio 1 3) uninit ltac:(lia) eq_refl eq_refl).
Defined.

(** ** Forward keeps the order of its inputs *)

(** A [zero_point] that an [int64_t] holds is converted to a finite
    [float]. *)
Lemma F32_of_int_finite z :
  0 <= z < 2 ^ 63 -> is_finite (F32.of_int z) = true.
Proof.
  intros Hz.
  apply (is_number_finite F32.prec F32.emax eq_refl eq_refl);
    [apply F32_of_int_number|].
  unfold F32.of_int, of_int.
  rewrite binary_normalize_ord by reflexivity.
  assert (H0 : sround_ord F32.prec F32.emax 0 0
               <= sround_ord F32.prec F32.emax z 0).
  { apply (sround_ord_mono F32.prec F32.emax eq_refl eq_refl _ _ _ _ 0); lia. }
  assert (H1 : sround_ord F32.prec F32.emax z 0
               <= sround_ord F32.prec F32.emax (2 ^ 63) 0).
  { apply (sround_ord_mono F32.prec F32.emax eq_refl eq_refl _ _ _ _ 0); lia. }
  assert (E : sround_ord F32.prec F32.emax (2 ^ 63) 0 = 2 ^ 212).
  { rewrite <- (binary_normalize_ord F32.prec F32.emax eq_refl eq_refl
                  (2 ^ 63) 0 false).
    vm_compute. reflexivity. }
  rewrite E in H1. cbn [sround_ord] in H0.
  change (F32.emax - emin F32.prec F32.emax) with 277.
  assert (2 ^ 212 < 2 ^ 277) by (apply Z.pow_lt_mono_r; lia).
  assert (0 < 2 ^ 277) by (apply Z.pow_pos_nonneg; lia).
  lia.
Qed.

(** The quantization point grows with the input, when [inv_scale] is a
    positive finite [float]. *)
Lemma quant_point_mono mi ei zero_point x1 x2 :
  bounded F32.prec F32.emax mi ei = true ->
  0 <= zero_point < 2 ^ 63 ->
  is_number F32.prec F32.emax x1 = true ->
  is_number F32.prec F32.emax x2 = true ->
  ord F32.prec F32.emax x1 <= ord F32.prec F32.emax x2 ->
  let q := quant_point (S754_finite false mi ei) zero_point in
  ord F32.prec F32.emax (q x1) <= ord F32.prec F32.emax (q x2)
  /\ is_number F32.prec F32.emax (q x1) = true
  /\ is_number F32.prec F32.emax (q x2) = true.
Proof.
  intros Hi Hz N1 N2 Hle q. subst q.
  unfold quant_point, F32.round, F32.add, F32.mul.
  destruct (SFmul_mono F32.prec F32.emax eq_refl eq_refl x1 x2 mi ei
              N1 N2 Hi Hle) as (H1 & A1 & A2).
  destruct (SFadd_mono F32.prec F32.emax eq_refl eq_refl _ _
              (F32.of_int zero_point) A1 A2
              (F32_of_int_valid zero_point) (F32_of_int_finite zero_point Hz)
              H1) as (H2 & B1 & B2).
  exact (round_mono F32.prec F32.emax eq_refl eq_refl _ _ B1 B2 H2).
Qed.

Lemma SFleb_numbers x1 x2 :
  valid_binary F32.prec F32.emax x1 = true ->
  valid_binary F32.prec F32.emax x2 = true ->
  SFleb x1 x2 = true ->
  is_number F32.prec F32.emax x1 = true
  /\ is_number F32.prec F32.emax x2 = true
  /\ ord F32.prec F32.emax x1 <= ord F32.prec F32.emax x2.
Proof.
  intros V1 V2 Hle.
  destruct (SFleb_not_nan _ _ Hle) as [X1 X2].
  rewrite (SFleb_ord F32.prec F32.emax eq_refl eq_refl) in Hle by assumption.
  apply Z.leb_le in Hle.
  repeat split; try (apply is_number_iff; auto). exact Hle.
Qed.

Lemma inv_scale_bounded scale mi ei :
  inv_scale_of scale = S754_finite false mi ei ->
  bounded F32.prec F32.emax mi ei = true.
Proof.
  intros Hinv. pose proof (inv_scale_valid scale) as Hv.
  rewrite Hinv in Hv. exact Hv.
Qed.

(** A larger input element never gives a smaller result. *)
Lemma forward_lambda_mono ms es mi ei zero_point num_bits x1 x2 u :
  1 <= num_bits <= 31 -> 0 <= zero_point < 2 ^ 63 ->
  bounded F64.prec F64.emax ms es = true ->
  inv_scale_of (S754_finite false ms es) = S754_finite false mi ei ->
  valid_binary F32.prec F32.emax x1 = true ->
  valid_binary F32.prec F32.emax x2 = true ->
  SFleb x1 x2 = true ->
  SFleb (forward_lambda (S754_finite false ms es)
           (inv_scale_of (S754_finite false ms es)) zero_point
           quant_min_of (quant_max_of num_bits) x1 u)
        (forward_lambda (S754_finite false ms es)
           (inv_scale_of (S754_finite false ms es)) zero_point
           quant_min_of (quant_max_of num_bits) x2 u) = true.
Proof.
  intros Hb Hz Hs Hinv V1 V2 Hle.
  destruct (SFleb_numbers x1 x2 V1 V2 Hle) as (N1 & N2 & Ho).
  pose proof (inv_scale_bounded _ mi ei Hinv) as Hi.
  unfold forward_lambda. rewrite Hinv.
  destruct (quant_point_mono mi ei zero_point x1 x2 Hi Hz N1 N2 Ho)
    as (H3 & C1 & C2).
  set (q1 := quant_point (S754_finite false mi ei) zero_point x1) in *.
  set (q2 := quant_point (S754_finite false mi ei) zero_point x2) in *.
  assert (Nmin : is_number F32.prec F32.emax quant_min_of = true)
    by reflexivity.
  assert (Nmax : is_number F32.prec F32.emax (quant_max_of num_bits) = true)
    by apply F32_of_int_number.
  destruct (fmaxf_ord F32.prec F32.emax eq_refl eq_refl quant_min_of q1
              Nmin C1) as [T1 D1].
  destruct (fmaxf_ord F32.prec F32.emax eq_refl eq_refl quant_min_of q2
              Nmin C2) as [T2 D2].
  destruct (fminf_ord F32.prec F32.emax eq_refl eq_refl
              (quant_max_of num_bits) _ Nmax D1) as [U1 E1].
  destruct (fminf_ord F32.prec F32.emax eq_refl eq_refl
              (quant_max_of num_bits) _ Nmax D2) as [U2 E2].
  destruct (quant_max_positive num_bits Hb) as (m & e & Hq).
  apply is_number_iff in E1. apply is_number_iff in E2.
  apply dequantize_mono; try assumption; try apply E1; try apply E2.
  - rewrite Hq. apply clamp_is_finite.
  - rewrite Hq. apply clamp_is_finite.
  - rewrite (SFleb_ord F32.prec F32.emax eq_refl eq_refl)
      by (apply E1 || apply E2).
    apply Z.leb_le. rewrite U1, U2, T1, T2. lia.
Qed.

(** X11: forward is monotone.  Up to 31 bits, with a positive finite
    [scale] whose reciprocal [1.0f / scale] is a positive finite [float],
    and a [zero_point] that an [int64_t] holds: when every element of
    [X1] is at most the element of [X2] at the same position, every
    element of the result for [X1] is at most the element of the result
    for [X2] at the same position.  The product with [inv_scale], the sum
    with [zero_point], [std::round], the clamp and the dequantization all
    keep the order, infinite inputs included. *)
Theorem X11_forward_is_monotone
    X1 X2 ms es mi ei zero_point num_bits quant_delay iter :
  is_cuda X1 = true -> scalar_type X1 = Float ->
  is_cuda X2 = true -> scalar_type X2 = Float ->
  1 <= num_bits <= 31 -> 0 <= zero_point < 2 ^ 63 ->
  quant_delay = 0 \/ 0 <= quant_delay < iter ->
  bounded F64.prec F64.emax ms es = true ->
  inv_scale_of (S754_finite false ms es) = S754_finite false mi ei ->
  Forall2 (fun x1 x2 =>
             valid_binary F32.prec F32.emax x1 = true
             /\ valid_binary F32.prec F32.emax x2 = true
             /\ SFleb x1 x2 = true) (data X1) (data X2) ->
  exists Y1 Y2,
    outcome (FakeQuantizePerTensorAffineOp_forward
               X1 (S754_finite false ms es) zero_point num_bits
               quant_delay iter) = inr Y1
    /\ outcome (FakeQuantizePerTensorAffineOp_forward
                  X2 (S754_finite false ms es) zero_point num_bits
                  quant_delay iter) = inr Y2
    /\ Forall2 (fun y1 y2 => SFleb y1 y2 = true) (data Y1) (data Y2).
Proof.
  intros Hc1 Ht1 Hc2 Ht2 Hb Hz Hd Hs Hinv Hle.
  exists (forward_active X1 (S754_finite false ms es) zero_point num_bits),
         (forward_active X2 (S754_finite false ms es) zero_point num_bits).
  rewrite !forward_quantizes by (assumption || lia).
  split; [reflexivity|]. split; [reflexivity|].
  unfold forward_active. cbn [data].
  induction Hle as [|x1 x2 l1 l2 (V1 & V2 & H12) _ IH]; cbn [map];
    constructor; [|exact IH].
  now apply (forward_lambda_mono ms es mi ei).
Qed.

Lemma X11_forward_is_monotone_witness :
  exists Y1 Y2,
    outcome (FakeQuantizePerTensorAffineOp_forward
               (cuda_floats [f32_ratio 1 3; f32 (-1000)]) (f64 7) 128 8 0 0)
    = inr Y1
    /\ outcome (FakeQuantizePerTensorAffineOp_forward
                  (cuda_floats [f32 1000; f32 5]) (f64 7) 128 8 0 0)
       = inr Y2
    /\ Forall2 (fun y1 y2 => SFleb y1 y2 = true) (data Y1) (data Y2).
Proof.
  assert (H : Forall2 (fun x1 x2 =>
                valid_binary F32.prec F32.emax x1 = true
                /\ valid_binary F32.prec F32.emax x2 = true
                /\ SFleb x1 x2 = true)
               (data (cuda_floats [f32_ratio 1 3; f32 (-1000)]))
               (data (cuda_floats [f32 1000; f32 5]))).
  { repeat constructor. }
  exact (X11_forward_is_monotone
           (cuda_floats [f32_ratio 1 3; f32 (-1000)])
           (cuda_floats [f32 1000; f32 5])
           7881299347898368 (-50) 9586981 (-26) 128 8 0 0
           eq_refl eq_refl eq_refl eq_refl ltac:(lia) ltac:(lia)
           (or_introl eq_refl) eq_refl eq_refl H).
Defined.

(** ** The inputs that let the gradient through *)

Lemma of_bool_one b : F32.of_bool b = F32.one <-> b = true.
Proof. destruct b; split; intros H; try reflexivity; discriminate H. Qed.

(** X12: the inputs at which backward lets the gradient through form a
    window.  When [1.0f / scale] is a positive finite [float] and
    [zero_point] is one an [int64_t] holds, the mask is 1 at every input
    between two inputs at which it is 1: the quantization point grows
    with the input, and the mask tests it against two fixed bounds. *)
Theorem X12_mask_is_a_window scale mi ei zero_point num_bits x1 x2 x3 u :
  0 <= zero_point < 2 ^ 63 ->
  inv_scale_of scale = S754_finite false mi ei ->
  valid_binary F32.prec F32.emax x1 = true ->
  valid_binary F32.prec F32.emax x2 = true ->
  valid_binary F32.prec F32.emax x3 = true ->
  SFleb x1 x2 = true -> SFleb x2 x3 = true ->
  let mask := backward_lambda (inv_scale_of scale) zero_point
                quant_min_of (quant_max_of num_bits) in
  mask x1 u = F32.one -> mask x3 u = F32.one -> mask x2 u = F32.one.
Proof.
  intros Hz Hinv V1 V2 V3 H12 H23 mask. subst mask.
  unfold backward_lambda. rewrite Hinv, !of_bool_one, !andb_true_iff.
  intros [L1 _] [_ U3].
  destruct (SFleb_numbers x1 x2 V1 V2 H12) as (N1 & N2 & O12).
  destruct (SFleb_numbers x2 x3 V2 V3 H23) as (_ & N3 & O23).
  pose proof (inv_scale_bounded _ mi ei Hinv) as Hi.
  destruct (quant_point_mono mi ei zero_point x1 x2 Hi Hz N1 N2 O12)
    as (Q12 & C1 & C2).
  destruct (quant_point_mono mi ei zero_point x2 x3 Hi Hz N2 N3 O23)
    as (Q23 & _ & C3).
  set (q1 := quant_point (S754_finite false mi ei) zero_point x1) in *.
  set (q2 := quant_point (S754_finite false mi ei) zero_point x2) in *.
  set (q3 := quant_point (S754_finite false mi ei) zero_point x3) in *.
  assert (Nmax : is_number F32.prec F32.emax (quant_max_of num_bits) = true)
    by apply F32_of_int_number.
  apply is_number_iff in C1, C2, C3, Nmax.
  rewrite (SFleb_ord F32.prec F32.emax eq_refl eq_refl) in L1, U3 |- *;
    try reflexivity; try apply C1; try apply C2; try apply C3;
    try apply Nmax.
  rewrite (SFleb_ord F32.prec F32.emax eq_refl eq_refl);
    try reflexivity; try apply C2; try apply Nmax.
  apply Z.leb_le in L1, U3. split; apply Z.leb_le; lia.
Qed.

Lemma X12_mask_is_a_window_witness :
  backward_lambda (inv_scale_of (f64 7)) 128 quant_min_of (quant_max_of 8)
    (f32 5) uninit = F32.one.
Proof.
  exact (X12_mask_is_a_window (f64 7) 9586981 (-26) 128 8
           (f32 (-100)) (f32 5) (f32 100) uninit
           ltac:(lia) eq_refl eq_refl eq_refl eq_refl
           ltac:(vm_compute; reflexivity) ltac:(vm_compute; reflexivity)
           ltac:(vm_compute; reflexivity) ltac:(vm_compute; reflexivity)).
Defined.

(** ** Every forward result is a grid point *)

(** The clamp returns one of its bounds, or the point itself when the
    point lies strictly between them. *)
Lemma clamp_cases quant_max q :
  is_nan quant_max = false ->
  let c := fminf quant_max (fmaxf quant_min_of q) in
  c = quant_min_of \/ c = quant_max
  \/ (c = q /\ SFcompare quant_min_of q = Some Lt
      /\ SFcompare quant_max q = Some Gt).
Proof.
  intros Hn c. subst c. unfold fminf, fmaxf.
  change (is_nan quant_min_of) with false. rewrite Hn.
  destruct (SFcompare quant_min_of q) as [[| |]|] eqn:E1; cbv beta iota;
    try (destruct (SFcompare quant_max quant_min_of) as [[| |]|]; now auto).
  destruct (SFcompare quant_max q) as [[| |]|] eqn:E2; cbv beta iota; auto.
Qed.

(** The clamped level is the [float] of an integer of the window. *)
Lemma clamped_level_is_integer inv_scale zero_point num_bits x :
  1 <= num_bits <= 31 ->
  valid_binary F32.prec F32.emax inv_scale = true ->
  valid_binary F32.prec F32.emax x = true ->
  exists k,
    0 <= k <= spec_quant_max num_bits
    /\ fminf (quant_max_of num_bits)
         (fmaxf quant_min_of (quant_point inv_scale zero_point x))
       = F32.of_int k.
Proof.
  intros Hb Vi Vx.
  assert (HQ : 0 <= spec_quant_max num_bits).
  { unfold spec_quant_max.
    assert (0 < 2 ^ num_bits) by (apply Z.pow_pos_nonneg; lia). lia. }
  pose proof (quant_max_nearest num_bits Hb) as Hq.
  pose proof (F32_of_int_number (quant_max_int num_bits)) as Nmax.
  fold (quant_max_of num_bits) in Nmax.
  pose proof Nmax as Nmax'. apply is_number_iff in Nmax'.
  destruct Nmax' as [Vmax Xmax].
  destruct (clamp_cases (quant_max_of num_bits)
              (quant_point inv_scale zero_point x) Xmax)
    as [E|[E|(E & C1 & C2)]]; rewrite E; clear E.
  - exists 0. split; [lia | reflexivity].
  - exists (spec_quant_max num_bits). split; [lia | exact Hq].
  - pose proof (quant_point_valid inv_scale zero_point x Vi Vx) as Vq.
    set (q := quant_point inv_scale zero_point x) in *.
    assert (Xq : is_nan q = false) by (destruct q; discriminate || reflexivity).
    assert (Nq : is_number F32.prec F32.emax q = true)
      by (apply is_number_iff; auto).
    assert (L1 : 0 < ord F32.prec F32.emax q).
    { pose proof (SFcompare_ord F32.prec F32.emax eq_refl eq_refl
                    quant_min_of q eq_refl Vq eq_refl Xq) as Hc.
      rewrite C1 in Hc.
      assert (Hlt : (ord F32.prec F32.emax quant_min_of
                     ?= ord F32.prec F32.emax q) = Lt) by congruence.
      apply Z.compare_lt_iff in Hlt. exact Hlt. }
    assert (L2 : ord F32.prec F32.emax q
                 < ord F32.prec F32.emax (quant_max_of num_bits)).
    { pose proof (SFcompare_ord F32.prec F32.emax eq_refl eq_refl
                    (quant_max_of num_bits) q Vmax Vq Xmax Xq) as Hc.
      rewrite C2 in Hc.
      assert (Hgt : (ord F32.prec F32.emax (quant_max_of num_bits)
                     ?= ord F32.prec F32.emax q) = Gt) by congruence.
      apply Z.compare_gt_iff in Hgt. exact Hgt. }
    assert (Hcap : ord F32.prec F32.emax (quant_max_of num_bits)
                   <= 2 ^ (F32.emax - emin F32.prec F32.emax)).
    { unfold quant_max_of, F32.of_int, of_int.
      rewrite binary_normalize_ord by reflexivity.
      now apply sround_ord_bounds. }
    assert (Fq : is_finite q = true).
    { apply (is_number_finite F32.prec F32.emax eq_refl eq_refl); [exact Nq|].
      assert (0 < 2 ^ (F32.emax - emin F32.prec F32.emax))
        by (apply Z.pow_pos_nonneg; unfold emin, F32.emax, F32.prec; lia).
      lia. }
    unfold q, quant_point, F32.round in Fq, Vq.
    set (b := F32.add (F32.mul x inv_scale) (F32.of_int zero_point)) in *.
    assert (Vb : valid_binary F32.prec F32.emax b = true).
    { unfold b, F32.add, F32.mul. apply SFadd_valid; try reflexivity.
      - now apply SFmul_valid.
      - apply F32_of_int_valid. }
    pose proof (round_finite F32.prec F32.emax eq_refl eq_refl b Fq) as Fb.
    destruct (round_half_away_ord F32.prec F32.emax eq_refl eq_refl b Vb Fb)
      as [Ho _].
    set (K := round_half_away F32.prec F32.emax (ord F32.prec F32.emax b)) in *.
    assert (HK : ord F32.prec F32.emax (F32.of_int K)
                 = ord F32.prec F32.emax q).
    { unfold q, quant_point, F32.round. fold b. rewrite Ho.
      unfold F32.of_int, of_int. now apply binary_normalize_ord. }
    assert (Hmono : forall a c, a <= c ->
              ord F32.prec F32.emax (F32.of_int a)
              <= ord F32.prec F32.emax (F32.of_int c)).
    { intros a c Hac. unfold F32.of_int, of_int.
      rewrite !binary_normalize_ord by reflexivity.
      apply (sround_ord_mono F32.prec F32.emax eq_refl eq_refl _ _ _ _ 0);
        lia. }
    exists K. split.
    + split.
      * destruct (Z.le_gt_cases 0 K) as [|Hneg]; [assumption|].
        pose proof (Hmono K 0 ltac:(lia)) as H0.
        change (ord F32.prec F32.emax (F32.of_int 0)) with 0 in H0. lia.
      * destruct (Z.le_gt_cases K (spec_quant_max num_bits)) as [|Hbig];
          [assumption|].
        pose proof (Hmono (spec_quant_max num_bits) K ltac:(lia)) as H1.
        rewrite <- Hq in H1. lia.
    + symmetry.
      apply (ord_inj F32.prec F32.emax eq_refl eq_refl);
        [apply F32_of_int_number | exact Nq | exact HK | lia].
Qed.

(** Every forward result is a grid point, whatever [scale] is. *)
Lemma forward_lambda_on_grid scale zero_point num_bits x u :
  1 <= num_bits <= 31 ->
  valid_binary F32.prec F32.emax x = true ->
  on_grid scale zero_point num_bits
    (forward_lambda scale (inv_scale_of scale) zero_point
       quant_min_of (quant_max_of num_bits) x u).
Proof.
  intros Hb Vx.
  destruct (clamped_level_is_integer (inv_scale_of scale) zero_point
              num_bits x Hb (inv_scale_valid scale) Vx) as (k & Hk & Hc).
  exists k. split; [exact Hk|].
  unfold forward_lambda. now rewrite Hc.
Qed.



(** X14: with a power-of-two [scale] forward twice is forward once, on
    every tensor.  When [scale] is [2^j], [-100 <= j <= 100], with at
    most 24 bits and [zero_point] below [2^24], the quantizing branch of
    forward returns its own result unchanged when applied to it, for
    every tensor of [float]s: the result is made of grid points, and
    forward leaves the points of such a grid where they are. *)
Theorem X14_forward_twice_is_forward_once
    X j zero_point num_bits quant_delay iter :
  is_cuda X = true -> scalar_type X = Float ->
  -100 <= j <= 100 -> 1 <= num_bits <= 24 -> 0 <= zero_point < 2 ^ 24 ->
  quant_delay = 0 \/ 0 <= quant_delay < iter ->
  Forall (fun x => valid_binary F32.prec F32.emax x = true) (data X) ->
  outcome (Y <- FakeQuantizePerTensorAffineOp_forward
                  X (pow2_double j) zero_point num_bits quant_delay iter ;;
           FakeQuantizePerTensorAffineOp_forward
             Y (pow2_double j) zero_point num_bits quant_delay iter)
  = outcome (FakeQuantizePerTensorAffineOp_forward
               X (pow2_double j) zero_point num_bits quant_delay iter).
Proof.
  intros Hc Ht Hj Hb Hz Hd Hv.
  rewrite forward_quantizes by (assumption || lia).
  unfold bind. cbn [outcome trace].
  set (Y := forward_active X (pow2_double j) zero_point num_bits).
  rewrite forward_quantizes by (assumption || lia). cbn [outcome].
  f_equal. unfold Y at 2. unfold forward_active at 1.
  unfold Y, forward_active. cbn [is_cuda scalar_type data]. f_equal.
  rewrite map_map. apply map_ext_in. intros x Hx.
  rewrite Forall_forall in Hv.
  destruct (forward_lambda_on_grid (pow2_double j) zero_point num_bits x
              uninit ltac:(lia) (Hv x Hx)) as (k & Hk & ->).
  now apply forward_lambda_pow2_grid.
Qed.

Lemma X14_forward_twice_is_forward_once_witness :
  outcome (Y <- FakeQuantizePerTensorAffineOp_forward
                  x_tenths (pow2_double (-3)) 128 8 0 0 ;;
           FakeQuantizePerTensorAffineOp_forward
             Y (pow2_double (-3)) 128 8 0 0)
  = outcome (FakeQuantizePerTensorAffineOp_forward
               x_tenths (pow2_double (-3)) 128 8 0 0).
Proof.
  assert (Hv : Forall (fun x => valid_binary F32.prec F32.emax x = true)
                 (data x_tenths)) by (repeat constructor).
  exact (X14_forward_twice_is_forward_once x_tenths (-3) 128 8 0 0
           eq_refl eq_refl ltac:(lia) ltac:(lia) ltac:(lia)
           (or_introl eq_refl) Hv).
Defined.

(** ** The kernels at 32 bits *)




(** ** Forward between two neighbours of a power-of-two grid *)

(** The place of [c * 2^j]. *)
Lemma ord_scaled c j :
  Z.abs c < 2 ^ 24 -> -100 <= j <= 100 ->
  ord F32.prec F32.emax (scaled F32.prec c j) = c * 2 ^ (j + 149).
Proof.
  intros Hc Hj.
  assert (Hd : forall n, Zpos n < 2 ^ 24 ->
            Zpos (Z.to_pos (Zpos n * 2 ^ (F32.prec - Zpos (digits2_pos n))))
            * 2 ^ (Zpos (digits2_pos n) - F32.prec + j
                   - emin F32.prec F32.emax)
            = Zpos n * 2 ^ (j + 149)).
  { intros n Hn.
    pose proof (digits_le_prec 24 eq_refl n Hn) as Hle.
    pose proof (Pos2Z.is_pos (digits2_pos n)) as Hpos.
    rewrite (dyadic_mantissa F32.prec eq_refl n) by exact Hn.
    rewrite <- Z.mul_assoc, <- Z.pow_add_r
      by (unfold emin, F32.prec, F32.emax; lia).
    do 2 f_equal. unfold emin, F32.prec, F32.emax. lia. }
  destruct c as [|n|n]; [reflexivity| |];
    unfold scaled, dyadic; cbn [ord cond_Zopp]; rewrite Hd by lia; lia.
Qed.

(** The place of the grid point of level [k]. *)
Lemma ord_grid_point j zero_point k :
  -100 <= j <= 100 -> 0 <= zero_point < 2 ^ 24 -> 0 <= k < 2 ^ 24 ->
  ord F32.prec F32.emax
    (dequantize (pow2_double j) zero_point (F32.of_int k))
  = (k - zero_point) * 2 ^ (j + 149).
Proof.
  intros Hj Hz Hk. rewrite dequantize_pow2 by lia.
  apply ord_scaled; lia.
Qed.

Lemma pow2_double_bounded j :
  -100 <= j <= 100 ->
  bounded F64.prec F64.emax 4503599627370496 (j - 52) = true.
Proof.
  intros Hj. unfold bounded, canonical_mantissa.
  change (Zpos (digits2_pos 4503599627370496)) with 53.
  apply andb_true_iff. split.
  - apply Z.eqb_eq. unfold fexp, emin, F64.prec, F64.emax. lia.
  - apply Z.leb_le. unfold F64.prec, F64.emax. lia.
Qed.

Lemma inv_scale_pow2_finite j :
  -100 <= j <= 100 ->
  inv_scale_of (pow2_double j) = S754_finite false 8388608 (- 23 - j).
Proof.
  intros Hj. rewrite inv_scale_pow2 by assumption.
  unfold dyadic. change (Zpos (digits2_pos 1)) with 1.
  f_equal; unfold F32.prec; lia.
Qed.

Lemma dequantize_valid scale zero_point q :
  valid_binary F32.prec F32.emax (dequantize scale zero_point q) = true.
Proof. unfold dequantize, F32.of_double. now apply of_float_valid. Qed.

(** The order of two forward results on a power-of-two grid, as an
    order of places. *)
Lemma forward_lambda_pow2_mono j zero_point num_bits x1 x2 u :
  -100 <= j <= 100 -> 1 <= num_bits <= 24 -> 0 <= zero_point < 2 ^ 24 ->
  valid_binary F32.prec F32.emax x1 = true ->
  valid_binary F32.prec F32.emax x2 = true ->
  SFleb x1 x2 = true ->
  let fwd := forward_lambda (pow2_double j) (inv_scale_of (pow2_double j))
               zero_point quant_min_of (quant_max_of num_bits) in
  ord F32.prec F32.emax (fwd x1 u) <= ord F32.prec F32.emax (fwd x2 u).
Proof.
  intros Hj Hb Hz V1 V2 Hle fwd. subst fwd.
  assert (H : SFleb
                (forward_lambda (pow2_double j) (inv_scale_of (pow2_double j))
                   zero_point quant_min_of (quant_max_of num_bits) x1 u)
                (forward_lambda (pow2_double j) (inv_scale_of (pow2_double j))
                   zero_point quant_min_of (quant_max_of num_bits) x2 u)
              = true).
  { apply (forward_lambda_mono 4503599627370496 (j - 52)
             8388608 (- 23 - j)); try assumption; try lia.
    - now apply pow2_double_bounded.
    - now apply inv_scale_pow2_finite. }
  destruct (SFleb_not_nan _ _ H) as [N1 N2].
  rewrite (SFleb_ord F32.prec F32.emax eq_refl eq_refl) in H;
    try assumption; try apply dequantize_valid.
  now apply Z.leb_le.
Qed.

(** X16: on a power-of-two grid forward returns one of the two grid
    points that bracket the input.  When [scale] is [2^j],
    [-100 <= j <= 100], with at most 24 bits and [zero_point] below
    [2^24]: an input at or below the lowest grid point gives the lowest
    grid point, an input at or above the highest gives the highest, and
    an input between the grid points of two consecutive levels [k] and
    [k + 1] gives one of these two.  The result is never more than one
    step of the grid away from an input inside the grid. *)
Theorem X16_forward_brackets_the_input j zero_point num_bits x u :
  -100 <= j <= 100 -> 1 <= num_bits <= 24 -> 0 <= zero_point < 2 ^ 24 ->
  valid_binary F32.prec F32.emax x = true ->
  let scale := pow2_double j in
  let grid := fun k => dequantize scale zero_point (F32.of_int k) in
  let y := forward_lambda scale (inv_scale_of scale) zero_point
             quant_min_of (quant_max_of num_bits) x u in
  (SFleb x (grid 0) = true -> y = grid 0)
  /\ (SFleb (grid (spec_quant_max num_bits)) x = true ->
      y = grid (spec_quant_max num_bits))
  /\ (forall k, 0 <= k < spec_quant_max num_bits ->
      SFleb (grid k) x = true -> SFleb x (grid (k + 1)) = true ->
      y = grid k \/ y = grid (k + 1)).
Proof.
  intros Hj Hb Hz Vx scale grid y.
  assert (HQ : 0 <= spec_quant_max num_bits < 2 ^ 24).
  { unfold spec_quant_max.
    assert (2 ^ 1 <= 2 ^ num_bits <= 2 ^ 24)
      by (split; apply Z.pow_le_mono_r; lia).
    lia. }
  assert (Hp : 0 < 2 ^ (j + 149)) by (apply Z.pow_pos_nonneg; lia).
  destruct (forward_lambda_on_grid scale zero_point num_bits x u
              ltac:(lia) Vx) as (m & Hm & Hy).
  fold y in Hy. fold (grid m) in Hy.
  assert (Hfix : forall k, 0 <= k <= spec_quant_max num_bits ->
            forward_lambda scale (inv_scale_of scale) zero_point
              quant_min_of (quant_max_of num_bits) (grid k) u = grid k).
  { intros k Hk. now apply forward_lambda_pow2_grid. }
  assert (Hord : forall k, 0 <= k < 2 ^ 24 ->
            ord F32.prec F32.emax (grid k) = (k - zero_point) * 2 ^ (j + 149)).
  { intros k Hk. now apply ord_grid_point. }
  assert (Hlo : forall k, 0 <= k <= spec_quant_max num_bits ->
            SFleb (grid k) x = true -> k <= m).
  { intros k Hk Hle.
    pose proof (forward_lambda_pow2_mono j zero_point num_bits (grid k) x u
                  Hj Hb Hz (dequantize_valid _ _ _) Vx Hle) as Ho.
    cbv zeta in Ho. fold scale in Ho. rewrite (Hfix k Hk) in Ho.
    fold y in Ho. rewrite Hy, !Hord in Ho by lia. nia. }
  assert (Hhi : forall k, 0 <= k <= spec_quant_max num_bits ->
            SFleb x (grid k) = true -> m <= k).
  { intros k Hk Hle.
    pose proof (forward_lambda_pow2_mono j zero_point num_bits x (grid k) u
                  Hj Hb Hz Vx (dequantize_valid _ _ _) Hle) as Ho.
    cbv zeta in Ho. fold scale in Ho. rewrite (Hfix k Hk) in Ho.
    fold y in Ho. rewrite Hy, !Hord in Ho by lia. nia. }
  split; [|split].
  - intros H. pose proof (Hhi 0 ltac:(lia) H).
    rewrite Hy. f_equal. f_equal. lia.
  - intros H. pose proof (Hlo (spec_quant_max num_bits) ltac:(lia) H).
    rewrite Hy. f_equal. f_equal. lia.
  - intros k Hk H1 H2.
    pose proof (Hlo k ltac:(lia) H1). pose proof (Hhi (k + 1) ltac:(lia) H2).
    destruct (Z.eq_dec m k) as [->|]; [now left|].
    right. rewrite Hy. f_equal. f_equal. lia.
Qed.

Lemma X16_forward_brackets_the_input_witness :
  SFleb (dequantize (pow2_double (-3)) 128 (F32.of_int 130)) (f32_ratio 1 3)
  = true
  /\ SFleb (f32_ratio 1 3) (dequantize (pow2_double (-3)) 128 (F32.of_int 131))
     = true
  /\ (forward_lambda (pow2_double (-3)) (inv_scale_of (pow2_double (-3))) 128
        quant_min_of (quant_max_of 8) (f32_ratio 1 3) uninit
      = dequantize (pow2_double (-3)) 128 (F32.of_int 130)
      \/ forward_lambda (pow2_double (-3)) (inv_scale_of (pow2_double (-3))) 128
           quant_min_of (quant_max_of 8) (f32_ratio 1 3) uninit
         = dequantize (pow2_double (-3)) 128 (F32.of_int 131)).
Proof.
  assert (H1 : SFleb (dequantize (pow2_double (-3)) 128 (F32.of_int 130))
                 (f32_ratio 1 3) = true) by (vm_compute; reflexivity).
  assert (H2 : SFleb (f32_ratio 1 3)
                 (dequantize (pow2_double (-3)) 128 (F32.of_int 131)) = true)
    by (vm_compute; reflexivity).
  split; [exact H1|]. split; [exact H2|].
  exact (proj2 (proj2 (X16_forward_brackets_the_input (-3) 128 8
                         (f32_ratio 1 3) uninit
                         ltac:(lia) ltac:(lia) ltac:(lia) eq_refl))
           130 ltac:(unfold spec_quant_max; lia) H1 H2).
Defined.
